(** * Beam analysis engine (src/utils/beamCalculations.ts)

    A shallow embedding of the analysis pipeline: unit conversion, support
    validation, reaction solving, event generation, the shear and moment
    segment builders, the extrema search, the two samplers and the legacy
    entry point, and of the data the shear force chart
    (src/components/ShearForceDiagram.tsx) draws from a result.

    The engine computes on JavaScript numbers.  The embedding is written
    once, over an interface of number operations ([Number]), and is run in
    two arithmetics:

    - [F64Number]: IEEE 754 binary64 (the kernel's primitive floats), which is
      what the engine executes, with NaN, the infinities and rounding;
    - [QcNumber]: exact rationals, the arithmetic the engine's formulas are
      meant in, for the algebraic laws (equilibrium, continuity, ordering of
      events).  Division by zero is 0 there, so every law proved in this
      instance either assumes or establishes that the divisors it depends on
      are not zero.  *)

From Stdlib Require Import List Bool ZArith QArith Qcanon Qround String Lia Lqa.
From Stdlib Require Import Sorting.Sorted Sorting.Permutation.
From Stdlib Require Import Floats.PrimFloat Numbers.Cyclic.Int63.Uint63.
From Stdlib Require Import Floats.SpecFloat Floats.FloatOps.
Import ListNotations.

Set Implicit Arguments.

(** ** Numbers *)

(** The operations of a JavaScript number that the engine uses. *)
Class Number (num : Type) := {
  ofZ : Z -> num;                       (* an integer literal *)
  add : num -> num -> num;
  sub : num -> num -> num;
  mul : num -> num -> num;
  div : num -> num -> num;
  neg : num -> num;                     (* unary minus *)
  abs : num -> num;                     (* Math.abs *)
  max : num -> num -> num;              (* Math.max *)
  min : num -> num -> num;              (* Math.min *)
  ltb : num -> num -> bool;             (* x < y *)
  leb : num -> num -> bool;             (* x <= y *)
  strictEq : num -> num -> bool;        (* x === y *)
  sameValueZero : num -> num -> bool;   (* the equality of Set *)
  falsy : num -> bool                   (* 0, -0 and NaN *)
}.

(** Math.sin, Math.cos and Math.PI are not computed here: the development holds
    for whatever they are. *)
Class Trig (num : Type) := {
  sin : num -> num;
  cos : num -> num;
  PI : num
}.

(** Infinity and NaN.  Binary64 has them; in the exact instance they stay
    uninterpreted, and nothing proved there depends on them. *)
Class Special (num : Type) := {
  Infinity : num;
  NaN : num
}.

(** Math.round *)
Class Rounding (num : Type) := {
  round : num -> num
}.

Declare Scope js_scope.
Delimit Scope js_scope with js.
Infix "+" := add : js_scope.
Infix "-" := sub : js_scope.
Infix "*" := mul : js_scope.
Infix "/" := div : js_scope.
Notation "- x" := (neg x) : js_scope.
Infix "<?" := ltb : js_scope.
Infix "<=?" := leb : js_scope.
Notation "x >? y" := (ltb y x) (only parsing) : js_scope.
Notation "x >=? y" := (leb y x) (only parsing) : js_scope.
Infix "===" := strictEq (at level 70) : js_scope.
Notation "x !== y" := (negb (strictEq x y)) (at level 70) : js_scope.

(** ** Data model (src/types/beam.ts) *)

Record Units := mkUnits { u_length : string; u_force : string }.

Inductive SupportType := PinRoller | Fixed.
Inductive Side := left | right.
Inductive ReactionType := vertical | moment_reaction | horizontal.
Inductive SegmentType := const | linear | quadratic | cubic.

Definition SegmentType_eqb (s t : SegmentType) : bool :=
  match s, t with
  | const, const | linear, linear | quadratic, quadratic | cubic, cubic => true
  | _, _ => false
  end.

Section DataModel.
Variable num : Type.

Record BeamData := mkBeamData { length : num; units : Units }.

Record Support := mkSupport {
  stype : SupportType;
  pin_x : option num;
  roller_x : option num;
  fixed_pos : option Side
}.

Record PointLoad := mkPointLoad { pt_label : string; pt_x : num; pt_P : num }.
Record AngledLoad := mkAngledLoad {
  ang_label : string; ang_x : num; ang_P : num; ang_theta_deg : num }.
Record UDLLoad := mkUDLLoad { udl_label : string; udl_a : num; udl_b : num; udl_w : num }.
Record UVLLoad := mkUVLLoad {
  uvl_label : string; uvl_a : num; uvl_b : num; uvl_w1 : num; uvl_w2 : num }.
Record MomentLoad := mkMomentLoad { mom_label : string; mom_x : num; mom_M : num }.

Record Loads := mkLoads {
  point : list PointLoad;
  angled : list AngledLoad;
  udl : list UDLLoad;
  uvl : list UVLLoad;
  moment : list MomentLoad
}.

Record Reaction := mkReaction {
  r_type : ReactionType;
  r_at : string;
  r_x : option num;
  r_R : option num;
  r_M : option num;
  r_H : option num
}.

Record DiagramSegment := mkSegment {
  seg_a : num;
  seg_b : num;
  seg_type : SegmentType;
  V_a : option num;
  V_b : option num;
  M_a : option num;
  M_b : option num;
  coeffs : option (list num)
}.

Record Positions := mkPositions {
  Vmax_pos : num; Vmin_pos : num; Mmax_pos : num; Mmin_pos : num }.

Record Extrema := mkExtrema {
  Vmax : num; Vmin : num; Mmax : num; Mmin : num; positions : Positions }.

Record AnalysisResult := mkResult {
  reactions : list Reaction;
  events : list num;
  V_segments : list DiagramSegment;
  M_segments : list DiagramSegment;
  extrema : Extrema;
  isValid : bool;
  error : option string
}.

End DataModel.

Arguments mkSupport {num}.
Arguments mkLoads {num}.
Arguments mkReaction {num}.
Arguments mkSegment {num}.

(** ** The engine *)

Section Engine.
Context {num : Type} {N : Number num} {T : Trig num} {S : Special num}
        {Rd : Rounding num}.
Local Open Scope js_scope.

Local Notation "'zero'" := (ofZ 0).
Local Notation "'one'" := (ofZ 1).

(** A decimal literal [n / d], such as 0.001 = [dec 1 1000]: in binary64 the
    quotient of two exactly represented integers is correctly rounded, so it
    is the double the literal denotes. *)
Definition dec (n d : Z) : num := ofZ n / ofZ d.

(** [x || d] on an optional number: [undefined], 0 and NaN give [d]. *)
Definition orElse (x : option num) (d : num) : num :=
  match x with
  | Some v => if falsy v then d else v
  | None => d
  end.

Definition BASE_UNITS : Units := mkUnits "m" "N".

Definition LENGTH_CONVERSIONS : list (string * num) :=
  [("m", one); ("mm", dec 1 1000); ("ft", dec 3048 10000)]%string.

Definition FORCE_CONVERSIONS : list (string * num) :=
  [("N", one); ("kN", ofZ 1000); ("kips", dec 444822 100)]%string.

(** [table[key]] on an object literal whose own keys are those of the list
    (keys inherited from Object.prototype are outside the model). *)
Fixpoint lookup (table : list (string * num)) (key : string) : option num :=
  match table with
  | [] => None
  | (k, v) :: rest => if String.eqb k key then Some v else lookup rest key
  end.

Definition convertLength (value : num) (fromUnit toUnit : string) : num :=
  let fromFactor := orElse (lookup LENGTH_CONVERSIONS fromUnit) one in
  let toFactor := orElse (lookup LENGTH_CONVERSIONS toUnit) one in
  (value * fromFactor) / toFactor.

Definition convertForce (value : num) (fromUnit toUnit : string) : num :=
  let fromFactor := orElse (lookup FORCE_CONVERSIONS fromUnit) one in
  let toFactor := orElse (lookup FORCE_CONVERSIONS toUnit) one in
  (value * fromFactor) / toFactor.

Definition convertLoadsToBaseUnits (loads : Loads num) (u : Units) : Loads num :=
  {| point := map (fun load =>
       {| pt_label := pt_label load;
          pt_x := convertLength (pt_x load) (u_length u) (u_length BASE_UNITS);
          pt_P := convertForce (pt_P load) (u_force u) (u_force BASE_UNITS) |})
       (point loads);
     angled := map (fun load =>
       {| ang_label := ang_label load;
          ang_x := convertLength (ang_x load) (u_length u) (u_length BASE_UNITS);
          ang_P := convertForce (ang_P load) (u_force u) (u_force BASE_UNITS);
          ang_theta_deg := ang_theta_deg load |})
       (angled loads);
     udl := map (fun load =>
       {| udl_label := udl_label load;
          udl_a := convertLength (udl_a load) (u_length u) (u_length BASE_UNITS);
          udl_b := convertLength (udl_b load) (u_length u) (u_length BASE_UNITS);
          udl_w := convertForce (udl_w load) (u_force u) (u_force BASE_UNITS)
                   / convertLength one (u_length u) (u_length BASE_UNITS) |})
       (udl loads);
     uvl := map (fun load =>
       {| uvl_label := uvl_label load;
          uvl_a := convertLength (uvl_a load) (u_length u) (u_length BASE_UNITS);
          uvl_b := convertLength (uvl_b load) (u_length u) (u_length BASE_UNITS);
          uvl_w1 := convertForce (uvl_w1 load) (u_force u) (u_force BASE_UNITS)
                    / convertLength one (u_length u) (u_length BASE_UNITS);
          uvl_w2 := convertForce (uvl_w2 load) (u_force u) (u_force BASE_UNITS)
                    / convertLength one (u_length u) (u_length BASE_UNITS) |})
       (uvl loads);
     moment := map (fun load =>
       {| mom_label := mom_label load;
          mom_x := convertLength (mom_x load) (u_length u) (u_length BASE_UNITS);
          mom_M := convertForce (mom_M load) (u_force u) (u_force BASE_UNITS)
                   * convertLength one (u_length u) (u_length BASE_UNITS) |})
       (moment loads) |}.

Definition convertSupportsToBaseUnits (supports : Support num) (lengthUnit : string)
  : Support num :=
  match stype supports with
  | PinRoller =>
      {| stype := stype supports;
         pin_x := Some (convertLength (orElse (pin_x supports) zero)
                          lengthUnit (u_length BASE_UNITS));
         roller_x := Some (convertLength (orElse (roller_x supports) zero)
                             lengthUnit (u_length BASE_UNITS));
         fixed_pos := fixed_pos supports |}
  | Fixed => supports
  end.

Definition validateSupports (supports : Support num) (length : num) : bool :=
  match stype supports with
  | PinRoller =>
      let pin_x := orElse (pin_x supports) zero in
      let roller_x := orElse (roller_x supports) length in
      (pin_x >=? zero) && (roller_x <=? length) && (pin_x !== roller_x)
  | Fixed => true
  end.

(** *** Reactions *)

(** The three running sums of [calculateReactions]; [totalMomentAbout] is
    [totalMomentAboutPin] in the pin+roller branch and [totalMomentAboutFixed]
    in the fixed one. *)
Record Totals := mkTotals {
  totalVerticalForce : num;
  totalMomentAbout : num;
  totalHorizontalForce : num
}.

Definition Py_of (load : AngledLoad num) : num :=
  ang_P load * sin (ang_theta_deg load * PI / ofZ 180).
Definition Px_of (load : AngledLoad num) : num :=
  ang_P load * cos (ang_theta_deg load * PI / ofZ 180).

(** The bodies of the four [forEach] loops shared by both branches, about the
    point [x0] ([pin_x] or [fixed_x]). *)
Definition addPointLoad (x0 : num) (t : Totals) (load : PointLoad num) : Totals :=
  {| totalVerticalForce := totalVerticalForce t + pt_P load;
     totalMomentAbout := totalMomentAbout t + pt_P load * (pt_x load - x0);
     totalHorizontalForce := totalHorizontalForce t |}.

Definition addAngledLoad (x0 : num) (t : Totals) (load : AngledLoad num) : Totals :=
  let Px := Px_of load in
  let Py := Py_of load in
  {| totalVerticalForce := totalVerticalForce t + Py;
     totalMomentAbout := totalMomentAbout t + Py * (ang_x load - x0);
     totalHorizontalForce := totalHorizontalForce t + Px |}.

Definition addUDLLoad (x0 : num) (t : Totals) (load : UDLLoad num) : Totals :=
  let R := udl_w load * (udl_b load - udl_a load) in
  let xR := (udl_a load + udl_b load) / ofZ 2 in
  {| totalVerticalForce := totalVerticalForce t + R;
     totalMomentAbout := totalMomentAbout t + R * (xR - x0);
     totalHorizontalForce := totalHorizontalForce t |}.

Definition addUVLLoad (x0 : num) (t : Totals) (load : UVLLoad num) : Totals :=
  let L := uvl_b load - uvl_a load in
  let R := (uvl_w1 load + uvl_w2 load) * L / ofZ 2 in
  if abs (uvl_w1 load + uvl_w2 load) >? dec 1 10000000000 then
    let xR := uvl_a load
              + L * (uvl_w1 load + ofZ 2 * uvl_w2 load)
                / (ofZ 3 * (uvl_w1 load + uvl_w2 load)) in
    {| totalVerticalForce := totalVerticalForce t + R;
       totalMomentAbout := totalMomentAbout t + R * (xR - x0);
       totalHorizontalForce := totalHorizontalForce t |}
  else t.

Definition addMomentLoad (t : Totals) (load : MomentLoad num) : Totals :=
  {| totalVerticalForce := totalVerticalForce t;
     totalMomentAbout := totalMomentAbout t + mom_M load;
     totalHorizontalForce := totalHorizontalForce t |}.

Definition sumForces (x0 : num) (loads : Loads num) : Totals :=
  let t := mkTotals zero zero zero in
  let t := fold_left (addPointLoad x0) (point loads) t in
  let t := fold_left (addAngledLoad x0) (angled loads) t in
  let t := fold_left (addUDLLoad x0) (udl loads) t in
  fold_left (addUVLLoad x0) (uvl loads) t.

Definition horizontalReaction (at_ : string) (t : Totals) : list (Reaction num) :=
  if abs (totalHorizontalForce t) >? dec 1 10000000000 then
    [mkReaction horizontal at_ None None None (Some (- totalHorizontalForce t))]
  else [].

Definition fixed_x_of (supports : Support num) (length : num) : num :=
  match fixed_pos supports with
  | Some right => length
  | _ => zero
  end.

Definition calculateReactions (loads : Loads num) (supports : Support num) (length : num)
  : list (Reaction num) :=
  match stype supports with
  | PinRoller =>
      let pin_x := orElse (pin_x supports) zero in
      let roller_x := orElse (roller_x supports) length in
      let t := sumForces pin_x loads in
      (* Moments don't affect vertical equilibrium *)
      let rollerReaction := totalMomentAbout t / (roller_x - pin_x) in
      let pinReaction := totalVerticalForce t - rollerReaction in
      [ mkReaction vertical "pin" (Some pin_x) (Some pinReaction) None None;
        mkReaction vertical "roller" (Some roller_x) (Some rollerReaction) None None ]
      ++ horizontalReaction "pin" t
  | Fixed =>
      let fixed_x := fixed_x_of supports length in
      let t := sumForces fixed_x loads in
      let t := fold_left addMomentLoad (moment loads) t in
      let fixedReaction := - totalVerticalForce t in
      let fixedMoment := - totalMomentAbout t in
      [ mkReaction vertical "fixed" (Some fixed_x) (Some fixedReaction) None None;
        mkReaction moment_reaction "fixed" (Some fixed_x) None (Some fixedMoment) None ]
      ++ horizontalReaction "fixed" t
  end.

(** *** Events *)

(** [events.add(x)] on a Set, kept in insertion order. *)
Definition setAdd (x : num) (s : list num) : list num :=
  if existsb (sameValueZero x) s then s else s ++ [x].

(** [Array.prototype.sort(compareFn)].  The standard's SortCompare reads a
    comparator result that is NaN as +0.  The sort is stable: [x] goes before
    the first [y] with [SortCompare(x, y) <= 0].  Where the comparator is not
    consistent (a NaN among the elements) the standard leaves the order to
    the implementation; the insertion below is then one such order. *)
Definition sortCompare (compareFn : num -> num -> num) (x y : num) : num :=
  let v := compareFn x y in
  if v === v then v else zero.

Fixpoint sortInsert (compareFn : num -> num -> num) (x : num) (l : list num) : list num :=
  match l with
  | [] => [x]
  | y :: l' =>
      if sortCompare compareFn x y <=? zero then x :: l
      else y :: sortInsert compareFn x l'
  end.

Fixpoint arraySort (compareFn : num -> num -> num) (l : list num) : list num :=
  match l with
  | [] => []
  | x :: l' => sortInsert compareFn x (arraySort compareFn l')
  end.

Definition eventSet (loads : Loads num) (supports : Support num) (length : num)
  : list num :=
  let events := setAdd zero [] in
  let events := setAdd length events in
  let events :=
    match stype supports with
    | PinRoller =>
        setAdd (orElse (roller_x supports) length)
          (setAdd (orElse (pin_x supports) zero) events)
    | Fixed => setAdd (fixed_x_of supports length) events
    end in
  let events := fold_left (fun ev load => setAdd (pt_x load) ev) (point loads) events in
  let events := fold_left (fun ev load => setAdd (ang_x load) ev) (angled loads) events in
  let events := fold_left (fun ev load => setAdd (udl_b load) (setAdd (udl_a load) ev))
                  (udl loads) events in
  let events := fold_left (fun ev load => setAdd (uvl_b load) (setAdd (uvl_a load) ev))
                  (uvl loads) events in
  fold_left (fun ev load => setAdd (mom_x load) ev) (moment loads) events.

Definition generateEvents (loads : Loads num) (supports : Support num) (length : num)
  : list num :=
  arraySort (fun a b => a - b) (eventSet loads supports length).

(** *** Shear segments *)

(** The shear at the start [a] of a segment: the five accumulation loops. *)
Definition shearStart (loads : Loads num) (reactions : list (Reaction num)) (a : num)
  : num :=
  let V_a := zero in
  let V_a := fold_left (fun V reaction =>
      match r_type reaction, r_x reaction with
      | vertical, Some x => if x <=? a then V + orElse (r_R reaction) zero else V
      | _, _ => V
      end) reactions V_a in
  let V_a := fold_left (fun V load =>
      if pt_x load <=? a then V - pt_P load else V) (point loads) V_a in
  let V_a := fold_left (fun V load =>
      if ang_x load <=? a then V - Py_of load else V) (angled loads) V_a in
  let V_a := fold_left (fun V load =>
      if udl_b load <=? a then V - udl_w load * (udl_b load - udl_a load)
      else if udl_a load <? a then V - udl_w load * (a - udl_a load)
      else V) (udl loads) V_a in
  fold_left (fun V load =>
      if uvl_b load <=? a
      then V - (uvl_w1 load + uvl_w2 load) * (uvl_b load - uvl_a load) / ofZ 2
      else if uvl_a load <? a then
        let x_rel := a - uvl_a load in
        let L_total := uvl_b load - uvl_a load in
        let w_at_a := uvl_w1 load + (uvl_w2 load - uvl_w1 load) * x_rel / L_total in
        V - (uvl_w1 load + w_at_a) * x_rel / ofZ 2
      else V) (uvl loads) V_a.

(** The variables the two classification loops assign. *)
Record Active := mkActive {
  segmentType : SegmentType;
  hasUDL : bool;
  hasUVL : bool;
  udlRate : num;
  uvlW1 : num;
  uvlW2 : num;
  uvlStart : num;
  uvlLength : num
}.

Definition noActive : Active := mkActive const false false zero zero zero zero zero.

Definition checkUDL (a b : num) (st : Active) (load : UDLLoad num) : Active :=
  if (udl_a load <? b) && (udl_b load >? a) then
    mkActive linear true (hasUVL st) (- udl_w load)
             (uvlW1 st) (uvlW2 st) (uvlStart st) (uvlLength st)
  else st.

Definition checkUVL (a b : num) (st : Active) (load : UVLLoad num) : Active :=
  if (uvl_a load <? b) && (uvl_b load >? a) then
    let segStart := max (uvl_a load) a in
    let segEnd := min (uvl_b load) b in
    let uvlLength := uvl_b load - uvl_a load in
    let x1_rel := (segStart - uvl_a load) / uvlLength in
    let x2_rel := (segEnd - uvl_a load) / uvlLength in
    mkActive quadratic (hasUDL st) true (udlRate st)
             (uvl_w1 load + (uvl_w2 load - uvl_w1 load) * x1_rel)
             (uvl_w1 load + (uvl_w2 load - uvl_w1 load) * x2_rel)
             segStart uvlLength
  else st.

Definition classify (loads : Loads num) (a b : num) : Active :=
  fold_left (checkUVL a b) (uvl loads) (fold_left (checkUDL a b) (udl loads) noActive).

(** [arr[i]] read as a number: a missing element is [undefined], which
    arithmetic turns into NaN. *)
Definition idx (arr : list num) (i : nat) : num := nth i arr NaN.

Definition shearCoeffs (st : Active) (V_a a b : num) : list num :=
  if hasUVL st then
    let slope := (uvlW2 st - uvlW1 st) / (b - a) in
    [V_a; - uvlW1 st; (- slope) / ofZ 2]
  else if hasUDL st then [V_a; udlRate st]
  else [V_a].

Definition shearSegment (loads : Loads num) (reactions : list (Reaction num)) (a b : num)
  : DiagramSegment num :=
  let V_a := shearStart loads reactions a in
  let st := classify loads a b in
  let coeffs := shearCoeffs st V_a a b in
  let V_b :=
    if hasUVL st then
      let dx := b - a in
      idx coeffs 0 + idx coeffs 1 * dx + idx coeffs 2 * dx * dx
    else if hasUDL st then V_a + udlRate st * (b - a)
    else V_a in
  mkSegment a b (segmentType st) (Some V_a) (Some V_b) None None (Some coeffs).

(** The loop [for (i = 0; i < events.length - 1; i++)] over [a = events[i]],
    [b = events[i + 1]].  The source's last parameter, [length], is never
    read by the function and is left out, here and in the two functions
    below that have it. *)
Fixpoint calculateShearSegments (loads : Loads num) (reactions : list (Reaction num))
  (events : list num) {struct events} : list (DiagramSegment num) :=
  match events with
  | a :: ((b :: _) as rest) =>
      shearSegment loads reactions a b :: calculateShearSegments loads reactions rest
  | _ => []
  end.

(** *** Moment segments *)

Definition momentStart (loads : Loads num) (reactions : list (Reaction num)) (a : num)
  : num :=
  let M_a := zero in
  let M_a := fold_left (fun M reaction =>
      let M :=
        match r_type reaction, r_x reaction with
        | vertical, Some x =>
            if x <? a then M + orElse (r_R reaction) zero * (a - x) else M
        | _, _ => M
        end in
      match r_type reaction, r_x reaction with
      | moment_reaction, Some x =>
          if x <=? a then M + orElse (r_M reaction) zero else M
      | _, _ => M
      end) reactions M_a in
  let M_a := fold_left (fun M load =>
      if pt_x load <? a then M - pt_P load * (a - pt_x load) else M) (point loads) M_a in
  let M_a := fold_left (fun M load =>
      if ang_x load <? a then M - Py_of load * (a - ang_x load) else M)
      (angled loads) M_a in
  let M_a := fold_left (fun M load =>
      if udl_b load <=? a then
        let R := udl_w load * (udl_b load - udl_a load) in
        let xR := (udl_a load + udl_b load) / ofZ 2 in
        M - R * (a - xR)
      else if (udl_a load <? a) && (udl_b load >? a) then
        let L_active := a - udl_a load in
        let R_active := udl_w load * L_active in
        M - R_active * L_active / ofZ 2
      else M) (udl loads) M_a in
  let M_a := fold_left (fun M load =>
      if uvl_b load <=? a then
        let R := (uvl_w1 load + uvl_w2 load) * (uvl_b load - uvl_a load) / ofZ 2 in
        let L := uvl_b load - uvl_a load in
        let xR := uvl_a load
                  + L * (uvl_w1 load + ofZ 2 * uvl_w2 load)
                    / (ofZ 3 * (uvl_w1 load + uvl_w2 load)) in
        M - R * (a - xR)
      else if (uvl_a load <? a) && (uvl_b load >? a) then
        let L_active := a - uvl_a load in
        let w_at_a := uvl_w1 load
                      + (uvl_w2 load - uvl_w1 load) * L_active
                        / (uvl_b load - uvl_a load) in
        let R_active := (uvl_w1 load + w_at_a) * L_active / ofZ 2 in
        let xR := uvl_a load
                  + L_active * (uvl_w1 load + ofZ 2 * w_at_a)
                    / (ofZ 3 * (uvl_w1 load + w_at_a)) in
        M - R_active * (a - xR)
      else M) (uvl loads) M_a in
  fold_left (fun M load =>
      if mom_x load <=? a then M + mom_M load else M) (moment loads) M_a.

(** [V_segment.coeffs?.[i] || 0] *)
Definition coeffOr0 (seg : DiagramSegment num) (i : nat) : num :=
  orElse (match coeffs seg with Some c => nth_error c i | None => None end) zero.

Definition momentSegment (loads : Loads num) (reactions : list (Reaction num))
  (a b : num) (V_segment : DiagramSegment num) : DiagramSegment num :=
  let M_a := momentStart loads reactions a in
  let '(segmentType, coeffs) :=
    match seg_type V_segment with
    | const => (linear, [M_a; orElse (V_a V_segment) zero])
    | linear =>
        let c1 := coeffOr0 V_segment 1 in
        (quadratic, [M_a; orElse (V_a V_segment) zero; c1 / ofZ 2])
    | quadratic =>
        let c0 := coeffOr0 V_segment 0 in
        let c1 := coeffOr0 V_segment 1 in
        let c2 := coeffOr0 V_segment 2 in
        (cubic, [M_a; c0; c1 / ofZ 2; c2 / ofZ 3])
    | cubic => (linear, [])
    end in
  let dx := b - a in
  let M_b :=
    match segmentType with
    | linear => idx coeffs 0 + idx coeffs 1 * dx
    | quadratic => idx coeffs 0 + idx coeffs 1 * dx + idx coeffs 2 * dx * dx
    | cubic => idx coeffs 0 + idx coeffs 1 * dx + idx coeffs 2 * dx * dx
               + idx coeffs 3 * dx * dx * dx
    | const => M_a
    end in
  mkSegment a b segmentType None None (Some M_a) (Some M_b) (Some coeffs).

(** What a [try] block can throw here: reading a property of [undefined]. *)
Inductive Exception := TypeError (message : string).

Definition showException (e : Exception) : string :=
  match e with TypeError m => ("TypeError: " ++ m)%string end.

(** The loop of [calculateMomentSegments]; [V_segments[i]] is [undefined] past
    the end of the array, and reading its [type] throws. *)
Fixpoint momentLoop (V_segments : list (DiagramSegment num)) (loads : Loads num)
  (reactions : list (Reaction num)) (i : nat) (events : list num) {struct events}
  : Exception + list (DiagramSegment num) :=
  match events with
  | a :: ((b :: _) as rest) =>
      match nth_error V_segments i with
      | None => inl (TypeError "Cannot read properties of undefined (reading 'type')")
      | Some V_segment =>
          match momentLoop V_segments loads reactions (Datatypes.S i) rest with
          | inl e => inl e
          | inr segments =>
              inr (momentSegment loads reactions a b V_segment :: segments)
          end
      end
  | _ => inr []
  end.

Definition calculateMomentSegments (V_segments : list (DiagramSegment num))
  (loads : Loads num) (reactions : list (Reaction num)) (events : list num)
  : Exception + list (DiagramSegment num) :=
  momentLoop V_segments loads reactions 0 events.

(** *** Moment at a point *)

Definition calculateMomentAtPoint (x : num) (loads : Loads num)
  (reactions : list (Reaction num)) : num :=
  let moment_ := zero in
  let moment_ := fold_left (fun M reaction =>
      match r_type reaction, r_x reaction with
      | vertical, Some rx =>
          if rx <? x then M + orElse (r_R reaction) zero * (x - rx) else M
      | _, _ => M
      end) reactions moment_ in
  let moment_ := fold_left (fun M load =>
      if pt_x load <? x then M - pt_P load * (x - pt_x load) else M)
      (point loads) moment_ in
  let moment_ := fold_left (fun M load =>
      if ang_x load <? x then M - Py_of load * (x - ang_x load) else M)
      (angled loads) moment_ in
  let moment_ := fold_left (fun M load =>
      if udl_b load <? x then
        let R := udl_w load * (udl_b load - udl_a load) in
        let xR := (udl_a load + udl_b load) / ofZ 2 in
        M - R * (x - xR)
      else if udl_a load <? x then
        let L_active := x - udl_a load in
        let R_active := udl_w load * L_active in
        let xR_active := L_active / ofZ 2 in
        M - R_active * (x - (udl_a load + xR_active))
      else M) (udl loads) moment_ in
  let moment_ := fold_left (fun M load =>
      if uvl_b load <? x then
        let R := (uvl_w1 load + uvl_w2 load) * (uvl_b load - uvl_a load) / ofZ 2 in
        let xR := uvl_a load
                  + (uvl_w1 load + ofZ 2 * uvl_w2 load)
                    / (ofZ 3 * (uvl_w1 load + uvl_w2 load))
                    * (uvl_b load - uvl_a load) in
        M - R * (x - xR)
      else if uvl_a load <? x then
        let L_active := x - uvl_a load in
        let w1_at_x := uvl_w1 load
                       + (uvl_w2 load - uvl_w1 load) * L_active
                         / (uvl_b load - uvl_a load) in
        let R_active := (uvl_w1 load + w1_at_x) * L_active / ofZ 2 in
        let xR_active := uvl_a load
                         + (uvl_w1 load + ofZ 2 * w1_at_x)
                           / (ofZ 3 * (uvl_w1 load + w1_at_x)) * L_active in
        M - R_active * (x - xR_active)
      else M) (uvl loads) moment_ in
  fold_left (fun M load =>
      if mom_x load <? x then M + mom_M load else M) (moment loads) moment_.

(** *** Extrema *)

(** [segment.V_a!] read as a number. *)
Definition numOf (o : option num) : num :=
  match o with Some v => v | None => NaN end.

Definition setVmax (v p : num) (e : Extrema num) : Extrema num :=
  let q := positions e in
  mkExtrema v (Vmin e) (Mmax e) (Mmin e)
    (mkPositions p (Vmin_pos q) (Mmax_pos q) (Mmin_pos q)).
Definition setVmin (v p : num) (e : Extrema num) : Extrema num :=
  let q := positions e in
  mkExtrema (Vmax e) v (Mmax e) (Mmin e)
    (mkPositions (Vmax_pos q) p (Mmax_pos q) (Mmin_pos q)).
Definition setMmax (v p : num) (e : Extrema num) : Extrema num :=
  let q := positions e in
  mkExtrema (Vmax e) (Vmin e) v (Mmin e)
    (mkPositions (Vmax_pos q) (Vmin_pos q) p (Mmin_pos q)).
Definition setMmin (v p : num) (e : Extrema num) : Extrema num :=
  let q := positions e in
  mkExtrema (Vmax e) (Vmin e) (Mmax e) v
    (mkPositions (Vmax_pos q) (Vmin_pos q) (Mmax_pos q) p).

Definition scanShearEnds (e : Extrema num) (segment : DiagramSegment num) : Extrema num :=
  let e := if numOf (V_a segment) >? Vmax e
           then setVmax (numOf (V_a segment)) (seg_a segment) e else e in
  let e := if numOf (V_a segment) <? Vmin e
           then setVmin (numOf (V_a segment)) (seg_a segment) e else e in
  let e := if numOf (V_b segment) >? Vmax e
           then setVmax (numOf (V_b segment)) (seg_b segment) e else e in
  if numOf (V_b segment) <? Vmin e
  then setVmin (numOf (V_b segment)) (seg_b segment) e else e.

Definition scanMomentEnds (e : Extrema num) (segment : DiagramSegment num) : Extrema num :=
  let e := if numOf (M_a segment) >? Mmax e
           then setMmax (numOf (M_a segment)) (seg_a segment) e else e in
  let e := if numOf (M_a segment) <? Mmin e
           then setMmin (numOf (M_a segment)) (seg_a segment) e else e in
  let e := if numOf (M_b segment) >? Mmax e
           then setMmax (numOf (M_b segment)) (seg_b segment) e else e in
  if numOf (M_b segment) <? Mmin e
  then setMmin (numOf (M_b segment)) (seg_b segment) e else e.

Definition compareMoment (m x : num) (e : Extrema num) : Extrema num :=
  let e := if m >? Mmax e then setMmax m x e else e in
  if m <? Mmin e then setMmin m x e else e.

Definition scanInterior (loads : Loads num) (reactions : list (Reaction num))
  (e : Extrema num) (segment : DiagramSegment num) : Extrema num :=
  let e :=
    if SegmentType_eqb (seg_type segment) linear
       && (numOf (V_a segment) * numOf (V_b segment) <? zero) then
      let slope := (numOf (V_b segment) - numOf (V_a segment))
                   / (seg_b segment - seg_a segment) in
      let zeroShearX := seg_a segment - numOf (V_a segment) / slope in
      let momentAtZeroShear := calculateMomentAtPoint zeroShearX loads reactions in
      compareMoment momentAtZeroShear zeroShearX e
    else e in
  if SegmentType_eqb (seg_type segment) quadratic then
    let midPoint := (seg_a segment + seg_b segment) / ofZ 2 in
    let momentAtMid := calculateMomentAtPoint midPoint loads reactions in
    compareMoment momentAtMid midPoint e
  else e.

Definition findExtrema (V_segments M_segments : list (DiagramSegment num))
  (loads : Loads num) (reactions : list (Reaction num)) : Extrema num :=
  let e := mkExtrema (- Infinity) Infinity (- Infinity) Infinity
             (mkPositions zero zero zero zero) in
  let e := fold_left scanShearEnds V_segments e in
  let e := fold_left scanMomentEnds M_segments e in
  fold_left (scanInterior loads reactions) V_segments e.

(** *** Back to display units *)

Definition convertReactionsToDisplayUnits (reactions : list (Reaction num)) (u : Units)
  : list (Reaction num) :=
  map (fun reaction =>
    {| r_type := r_type reaction;
       r_at := r_at reaction;
       r_x := option_map (fun x =>
                convertLength x (u_length BASE_UNITS) (u_length u)) (r_x reaction);
       r_R := option_map (fun R =>
                convertForce R (u_force BASE_UNITS) (u_force u)) (r_R reaction);
       r_M := option_map (fun M =>
                convertForce M (u_force BASE_UNITS) (u_force u)
                * convertLength one (u_length BASE_UNITS) (u_length u)) (r_M reaction);
       r_H := option_map (fun H =>
                convertForce H (u_force BASE_UNITS) (u_force u)) (r_H reaction) |})
    reactions.

Definition convertSegmentsToDisplayUnits (segments : list (DiagramSegment num))
  (u : Units) : list (DiagramSegment num) :=
  let force v := convertForce v (u_force BASE_UNITS) (u_force u) in
  let momentOf v := convertForce v (u_force BASE_UNITS) (u_force u)
                    * convertLength one (u_length BASE_UNITS) (u_length u) in
  map (fun segment =>
    {| seg_a := convertLength (seg_a segment) (u_length BASE_UNITS) (u_length u);
       seg_b := convertLength (seg_b segment) (u_length BASE_UNITS) (u_length u);
       seg_type := seg_type segment;
       V_a := option_map force (V_a segment);
       V_b := option_map force (V_b segment);
       M_a := option_map momentOf (M_a segment);
       M_b := option_map momentOf (M_b segment);
       coeffs := coeffs segment |})
    segments.

Definition convertExtremaToDisplayUnits (e : Extrema num) (u : Units) : Extrema num :=
  let force v := convertForce v (u_force BASE_UNITS) (u_force u) in
  let momentOf v := convertForce v (u_force BASE_UNITS) (u_force u)
                    * convertLength one (u_length BASE_UNITS) (u_length u) in
  let len v := convertLength v (u_length BASE_UNITS) (u_length u) in
  let q := positions e in
  mkExtrema (force (Vmax e)) (force (Vmin e)) (momentOf (Mmax e)) (momentOf (Mmin e))
    (mkPositions (len (Vmax_pos q)) (len (Vmin_pos q))
                 (len (Mmax_pos q)) (len (Mmin_pos q))).

Definition createErrorResult (error : string) : AnalysisResult num :=
  {| reactions := [];
     events := [];
     V_segments := [];
     M_segments := [];
     extrema := mkExtrema zero zero zero zero (mkPositions zero zero zero zero);
     isValid := false;
     error := Some error |}.

(** *** The pipeline *)

Definition calculateBeamAnalysis (beamData : BeamData num) (supports : Support num)
  (loads : Loads num) : AnalysisResult num :=
  if length beamData <=? zero then
    createErrorResult "Beam length must be greater than 0"
  else
    let u := units beamData in
    let baseLength := convertLength (length beamData) (u_length u) (u_length BASE_UNITS) in
    let baseLoads := convertLoadsToBaseUnits loads u in
    let baseSupports := convertSupportsToBaseUnits supports (u_length u) in
    if negb (validateSupports baseSupports baseLength) then
      createErrorResult "Invalid support configuration"
    else
      let reactions := calculateReactions baseLoads baseSupports baseLength in
      let events := generateEvents baseLoads baseSupports baseLength in
      let V_segments := calculateShearSegments baseLoads reactions events in
      match calculateMomentSegments V_segments baseLoads reactions events with
      | inl e => createErrorResult ("Calculation error: " ++ showException e)
      | inr M_segments =>
          let extrema := findExtrema V_segments M_segments baseLoads reactions in
          {| reactions := convertReactionsToDisplayUnits reactions u;
             events := map (fun x =>
                         convertLength x (u_length BASE_UNITS) (u_length u)) events;
             V_segments := convertSegmentsToDisplayUnits V_segments u;
             M_segments := convertSegmentsToDisplayUnits M_segments u;
             extrema := convertExtremaToDisplayUnits extrema u;
             isValid := true;
             error := None |}
      end.

(** *** The shear sampler *)

Record ShearPoint := mkShearPoint { sp_x : num; shearForce : num }.

Definition numPoints (segment : DiagramSegment num) : nat :=
  match seg_type segment with
  | linear => 10
  | quadratic => 20
  | _ => 2
  end.

(** The unrounded position of sample [i] and the shear computed there. *)
Definition sampleX (segment : DiagramSegment num) (i : nat) : num :=
  let segmentLength := seg_b segment - seg_a segment in
  let t := ofZ (Z.of_nat i) / ofZ (Z.of_nat (numPoints segment)) in
  seg_a segment + segmentLength * t.

Definition sampleShear (segment : DiagramSegment num) (i : nat) : num :=
  let t := ofZ (Z.of_nat i) / ofZ (Z.of_nat (numPoints segment)) in
  let x := sampleX segment i in
  let dx := x - seg_a segment in
  match coeffs segment with
  | Some c =>
      match seg_type segment with
      | const => idx c 0
      | linear => idx c 0 + orElse (nth_error c 1) zero * dx
      | quadratic => idx c 0 + orElse (nth_error c 1) zero * dx
                     + orElse (nth_error c 2) zero * dx * dx
      | cubic => zero
      end
  | None => numOf (V_a segment) + (numOf (V_b segment) - numOf (V_a segment)) * t
  end.

(** The points pushed for one segment: [for (i = 0; i <= numPoints; i++)]. *)
Definition samplePoints (segment : DiagramSegment num) : list ShearPoint :=
  map (fun i =>
    mkShearPoint (round (sampleX segment i * ofZ 1000) / ofZ 1000)
                 (round (sampleShear segment i * ofZ 1000) / ofZ 1000))
    (seq 0 (numPoints segment + 1)).

(** [dataPoints.filter((point, index, arr) => index === 0 ||
    Math.abs(point.x - arr[index - 1].x) > 0.001)] *)
Fixpoint removeDuplicates (prev : option ShearPoint) (arr : list ShearPoint)
  : list ShearPoint :=
  match arr with
  | [] => []
  | point :: rest =>
      let keep :=
        match prev with
        | None => true
        | Some q => abs (sp_x point - sp_x q) >? dec 1 1000
        end in
      (if keep then [point] else []) ++ removeDuplicates (Some point) rest
  end.

Definition dataPoints (analysisResult : AnalysisResult num) : list ShearPoint :=
  flat_map samplePoints (V_segments analysisResult).

Definition generateShearForceData (analysisResult : AnalysisResult num)
  : list ShearPoint :=
  removeDuplicates None (dataPoints analysisResult).

End Engine.

(** ** The two arithmetics *)

(** *** Exact rationals *)

Definition Qc_ltb (x y : Qc) : bool :=
  match (x ?= y)%Qc with Lt => true | _ => false end.
Definition Qc_leb (x y : Qc) : bool :=
  match (x ?= y)%Qc with Gt => false | _ => true end.
Definition Qc_ofZ (z : Z) : Qc := Q2Qc (inject_Z z).

#[export] Instance QcNumber : Number Qc := {|
  ofZ := Qc_ofZ;
  add := Qcplus;
  sub := Qcminus;
  mul := Qcmult;
  div := Qcdiv;
  neg := Qcopp;
  abs := fun x => if Qc_ltb x (Qc_ofZ 0) then (- x)%Qc else x;
  max := fun x y => if Qc_ltb x y then y else x;
  min := fun x y => if Qc_ltb y x then y else x;
  ltb := Qc_ltb;
  leb := Qc_leb;
  strictEq := Qc_eq_bool;
  sameValueZero := Qc_eq_bool;
  falsy := fun x => Qc_eq_bool x (Qc_ofZ 0)
|}.

(** Math.round: the nearest integer, a tie going up. *)
#[export] Instance QcRounding : Rounding Qc := {|
  round := fun x => Qc_ofZ (Qfloor (x + Q2Qc (1 # 2))%Qc)
|}.

(** *** Binary64 *)

Definition F64_ofZ (z : Z) : float :=
  if (z <? 0)%Z then PrimFloat.opp (PrimFloat.of_uint63 (Uint63.of_Z (- z)))
  else PrimFloat.of_uint63 (Uint63.of_Z z).

Definition F64_max (x y : float) : float :=
  if PrimFloat.is_nan x || PrimFloat.is_nan y then PrimFloat.nan
  else if PrimFloat.ltb x y then y
  else if PrimFloat.ltb y x then x
  else if PrimFloat.eqb x PrimFloat.zero then PrimFloat.add x y   (* -0 < +0 *)
  else x.

Definition F64_min (x y : float) : float :=
  if PrimFloat.is_nan x || PrimFloat.is_nan y then PrimFloat.nan
  else if PrimFloat.ltb x y then x
  else if PrimFloat.ltb y x then y
  else if PrimFloat.eqb x PrimFloat.zero
       then PrimFloat.opp (PrimFloat.add (PrimFloat.opp x) (PrimFloat.opp y))
  else x.

#[export] Instance F64Number : Number float := {|
  ofZ := F64_ofZ;
  add := PrimFloat.add;
  sub := PrimFloat.sub;
  mul := PrimFloat.mul;
  div := PrimFloat.div;
  neg := PrimFloat.opp;
  abs := PrimFloat.abs;
  max := F64_max;
  min := F64_min;
  ltb := PrimFloat.ltb;
  leb := PrimFloat.leb;
  strictEq := PrimFloat.eqb;
  sameValueZero := fun x y =>
    PrimFloat.eqb x y || (PrimFloat.is_nan x && PrimFloat.is_nan y);
  falsy := fun x => PrimFloat.eqb x PrimFloat.zero || PrimFloat.is_nan x
|}.

#[export] Instance F64Special : Special float := {|
  Infinity := PrimFloat.infinity;
  NaN := PrimFloat.nan
|}.

(** Math.round: an integral or non-finite number is returned as it is;
    otherwise the nearest integer, a tie going towards +Infinity, computed
    exactly from the mantissa [m] and the exponent [e] of x = +-m * 2^e as
    floor((2x + 1) / 2); a result 0 keeps the sign of x. *)
Definition F64_round (x : float) : float :=
  match Prim2SF x with
  | S754_finite s m e =>
      if (0 <=? e)%Z then x
      else
        let n := ((2 * (if s then Z.neg m else Z.pos m) + 2 ^ (- e))
                  / (2 * 2 ^ (- e)))%Z in
        if (n =? 0)%Z then (if s then PrimFloat.neg_zero else PrimFloat.zero)
        else F64_ofZ n
  | _ => x
  end.

#[export] Instance F64Rounding : Rounding float := {|
  round := F64_round
|}.

(** ** Scenarios *)

(** The kernel has no binary64 sine and cosine.  No scenario below carries an
    angled load, so the functions are never applied; the statements about the
    scenarios are made for every [Trig float], and this one only closes the
    terms of the statements that have to be closed. *)
Definition noTrig : Trig float :=
  {| sin := fun _ => PrimFloat.nan; cos := fun _ => PrimFloat.nan;
     PI := PrimFloat.div (F64_ofZ 3141592653589793) (F64_ofZ 1000000000000000) |}.

Section Scenarios.
Context {T : Trig float}.

Definition noLoads {num : Type} : Loads num := mkLoads [] [] [] [] [].

(** Scenario 1: a 30 m beam in m/kN, pin at 0, roller at 30, 60 kN at 15. *)
Definition beam1 : BeamData float := mkBeamData (F64_ofZ 30) (mkUnits "m" "kN").
Definition supports1 : Support float :=
  mkSupport PinRoller (Some (F64_ofZ 0)) (Some (F64_ofZ 30)) None.
Definition loads1 : Loads float :=
  mkLoads [mkPointLoad "P1" (F64_ofZ 15) (F64_ofZ 60)] [] [] [] [].
Definition result1 : AnalysisResult float := calculateBeamAnalysis beam1 supports1 loads1.

(** Scenario 4: a 10 m cantilever in m/kN, fixed at the left, 20 kN at 10. *)
Definition beam4 : BeamData float := mkBeamData (F64_ofZ 10) (mkUnits "m" "kN").
Definition supports4 : Support float := mkSupport Fixed None None (Some left).
Definition loads4 : Loads float :=
  mkLoads [mkPointLoad "P1" (F64_ofZ 10) (F64_ofZ 20)] [] [] [] [].
Definition result4 : AnalysisResult float := calculateBeamAnalysis beam4 supports4 loads4.

(** A 10 m beam in m/N on pin 0 and roller 10. *)
Definition beam10 : BeamData float := mkBeamData (F64_ofZ 10) (mkUnits "m" "N").
Definition supports10 : Support float :=
  mkSupport PinRoller (Some (F64_ofZ 0)) (Some (F64_ofZ 10)) None.

(** ... under a UVL over [0, 4] going from 5 to -5, so that w1 + w2 = 0. *)
Definition loadsZeroSum : Loads float :=
  mkLoads [] [] [] [mkUVLLoad "W1" (F64_ofZ 0) (F64_ofZ 4) (F64_ofZ 5) (F64_ofZ (-5))] [].
Definition resultZeroSum : AnalysisResult float :=
  calculateBeamAnalysis beam10 supports10 loadsZeroSum.

(** ... under two UDLs of 2 N/m that both cover [0, 10], and 4 N at 5. *)
Definition loadsOverlap : Loads float :=
  mkLoads [mkPointLoad "P1" (F64_ofZ 5) (F64_ofZ 4)] []
    [mkUDLLoad "U1" (F64_ofZ 0) (F64_ofZ 10) (F64_ofZ 2);
     mkUDLLoad "U2" (F64_ofZ 0) (F64_ofZ 10) (F64_ofZ 2)] [] [].
Definition resultOverlap : AnalysisResult float :=
  calculateBeamAnalysis beam10 supports10 loadsOverlap.

(** ... under a point load, a UDL and an applied moment. *)
Definition loadsWithMoment : Loads float :=
  mkLoads [mkPointLoad "P1" (F64_ofZ 5) (F64_ofZ 4)] []
    [mkUDLLoad "U1" (F64_ofZ 0) (F64_ofZ 10) (F64_ofZ 2)] []
    [mkMomentLoad "M1" (F64_ofZ 3) (F64_ofZ 7)].

(** ... under a point load left of the beam, at x = -5. *)
Definition loadsOutside : Loads float :=
  mkLoads [mkPointLoad "P1" (F64_ofZ (-5)) (F64_ofZ 4)] [] [] [] [].
Definition resultOutside : AnalysisResult float :=
  calculateBeamAnalysis beam10 supports10 loadsOutside.

(** The same beam with pin and roller both given at x = 0. *)
Definition supportsCoincident : Support float :=
  mkSupport PinRoller (Some (F64_ofZ 0)) (Some (F64_ofZ 0)) None.
Definition resultCoincident : AnalysisResult float :=
  calculateBeamAnalysis beam10 supportsCoincident noLoads.


(** ... under a point load whose position is NaN. *)
Definition loadsNaN : Loads float :=
  mkLoads [mkPointLoad "P1" PrimFloat.nan (F64_ofZ 5)] [] [] [] [].
Definition resultNaN : AnalysisResult float :=
  calculateBeamAnalysis beam10 supports10 loadsNaN.

(** The input the application starts with (app/page.tsx): the beam and the
    supports of scenario 1 under 10 kN at 6 and 50 kN at 20. *)
Definition loadsDefault : Loads float :=
  mkLoads [mkPointLoad "P1" (F64_ofZ 6) (F64_ofZ 10);
           mkPointLoad "P2" (F64_ofZ 20) (F64_ofZ 50)] [] [] [] [].
Definition resultDefault : AnalysisResult float :=
  calculateBeamAnalysis beam1 supports1 loadsDefault.

(** A 7 ft beam in ft/kips on pin 0 and roller 7, without loads. *)
Definition beamSevenFeet : BeamData float := mkBeamData (F64_ofZ 7) (mkUnits "ft" "kips").
Definition supportsSevenFeet : Support float :=
  mkSupport PinRoller (Some (F64_ofZ 0)) (Some (F64_ofZ 7)) None.
Definition resultSevenFeet : AnalysisResult float :=
  calculateBeamAnalysis beamSevenFeet supportsSevenFeet noLoads.

(** A constant shear segment over [0, 1] whose value is the double next to
    1/3. *)
Definition oneThird : float := PrimFloat.div (F64_ofZ 1) (F64_ofZ 3).
Definition thirdSegment : DiagramSegment float :=
  mkSegment (F64_ofZ 0) (F64_ofZ 1) const (Some oneThird) (Some oneThird) None None
    (Some [oneThird]).

End Scenarios.


(** ** The vocabulary of the statements *)

Unset Implicit Arguments.

Section LoopVocabulary.
Context {num : Type} {N : Number num} {T : Trig num} {S : Special num}.

(** The moment segments the loop builds when every shear segment is there. *)
Fixpoint momentSegmentsOf (loads : Loads num) (reactions : list (Reaction num))
  (events : list num) {struct events} : list (DiagramSegment num) :=
  match events with
  | a :: ((b :: _) as rest) =>
      momentSegment loads reactions a b (shearSegment loads reactions a b)
      :: momentSegmentsOf loads reactions rest
  | _ => []
  end.

Fixpoint pairs (events : list num) : list (num * num) :=
  match events with
  | a :: ((b :: _) as rest) => (a, b) :: pairs rest
  | _ => []
  end.

Definition ends (segment : DiagramSegment num) : num * num :=
  (seg_a segment, seg_b segment).

End LoopVocabulary.

Section ExactVocabulary.
Context {T : Trig Qc}.

Definition forceFactor (u : string) : Qc := orElse (lookup FORCE_CONVERSIONS u) (ofZ 1).

Definition lengthFactor (u : string) : Qc := orElse (lookup LENGTH_CONVERSIONS u) (ofZ 1).

(** Intensities in base units: force per length. *)
Definition intensityFactor (u : Units) : Qc :=
  (forceFactor (u_force u) / lengthFactor (u_length u))%Qc.

Definition toBase (u : Units) (x : Qc) : Qc :=
  convertLength x (u_length u) (u_length BASE_UNITS).

Definition toDisplay (u : Units) (x : Qc) : Qc :=
  convertLength x (u_length BASE_UNITS) (u_length u).

Definition uvlToBase (u : Units) (load : UVLLoad Qc) : UVLLoad Qc :=
  {| uvl_label := uvl_label load;
     uvl_a := toBase u (uvl_a load);
     uvl_b := toBase u (uvl_b load);
     uvl_w1 := (convertForce (uvl_w1 load) (u_force u) (u_force BASE_UNITS)
                / convertLength (ofZ 1) (u_length u) (u_length BASE_UNITS))%js;
     uvl_w2 := (convertForce (uvl_w2 load) (u_force u) (u_force BASE_UNITS)
                / convertLength (ofZ 1) (u_length u) (u_length BASE_UNITS))%js |}.

Definition sumOfLoads (loads : Loads Qc) : Qc :=
  fold_right (fun load acc => (pt_P load + acc)%Qc) 0%Qc (point loads).

Definition addAll (xs ev : list Qc) : list Qc := fold_left (fun e x => setAdd x e) xs ev.

(** Sorting *)
Definition byDifference (a b : Qc) : Qc := (a - b)%js.

(** The support positions the engine uses. *)
Definition supportPositions (supports : Support Qc) (length : Qc) : list Qc :=
  match stype supports with
  | PinRoller => [orElse (pin_x supports) (ofZ 0); orElse (roller_x supports) length]
  | Fixed => [fixed_x_of supports length]
  end.

Definition givenSupportPositions (supports : Support Qc) : list Qc :=
  match stype supports with
  | PinRoller =>
      match pin_x supports with Some p => [p] | None => [] end
      ++ match roller_x supports with Some r => [r] | None => [] end
  | Fixed => []
  end.

(** The positions of the loads: point, angled and moment x; UDL and UVL a, b. *)
Definition loadPositions (loads : Loads Qc) : list Qc :=
  map (@pt_x Qc) (point loads) ++ map (@ang_x Qc) (angled loads)
  ++ flat_map (fun load => [udl_a load; udl_b load]) (udl loads)
  ++ flat_map (fun load => [uvl_a load; uvl_b load]) (uvl loads)
  ++ map (@mom_x Qc) (moment loads).

(** Every position the contract of the event generator lists. *)
Definition eventPositions (loads : Loads Qc) (supports : Support Qc) (length : Qc)
  : list Qc :=
  [ofZ 0; length] ++ supportPositions supports length ++ loadPositions loads.

Definition withinBeam (beamData : BeamData Qc) (supports : Support Qc)
  (loads : Loads Qc) : Prop :=
  Forall (fun p => (0 <= p)%Qc /\ (p <= length beamData)%Qc)
    (givenSupportPositions supports ++ loadPositions loads).

Fixpoint chain (lo : Qc) (segments : list (DiagramSegment Qc)) (hi : Qc) : Prop :=
  match segments with
  | [] => lo = hi
  | s :: rest => seg_a s = lo /\ (seg_a s < seg_b s)%Qc /\ chain (seg_b s) rest hi
  end.

Definition partitions (segments : list (DiagramSegment Qc)) (lo hi : Qc) : Prop :=
  segments <> [] /\ chain lo segments hi.

Definition total {A} (g : A -> Qc) (l : list A) : Qc :=
  fold_right (fun x acc => (g x + acc)%Qc) 0%Qc l.

Definition zeroTerm {A} (x : A) : Qc := 0%Qc.

(** What one reaction or load adds to the shear and to the moment at [a]. *)
Definition reactionShear (a : Qc) (r : Reaction Qc) : Qc :=
  match r_type r, r_x r with
  | vertical, Some x => if Qc_leb x a then orElse (r_R r) 0%Qc else 0%Qc
  | _, _ => 0%Qc
  end.

Definition reactionMoment (a : Qc) (r : Reaction Qc) : Qc :=
  ((match r_type r, r_x r with
    | vertical, Some x => if Qc_ltb x a then orElse (r_R r) 0%Qc * (a - x) else 0
    | _, _ => 0
    end)
   + (match r_type r, r_x r with
      | moment_reaction, Some x => if Qc_leb x a then orElse (r_M r) 0%Qc else 0
      | _, _ => 0
      end))%Qc.

Definition pointShear (a : Qc) (l : PointLoad Qc) : Qc :=
  if Qc_leb (pt_x l) a then (- pt_P l)%Qc else 0%Qc.

Definition pointMoment (a : Qc) (l : PointLoad Qc) : Qc :=
  if Qc_ltb (pt_x l) a then (- (pt_P l * (a - pt_x l)))%Qc else 0%Qc.

Definition angledShear (a : Qc) (l : AngledLoad Qc) : Qc :=
  if Qc_leb (ang_x l) a then (- Py_of l)%Qc else 0%Qc.

Definition angledMoment (a : Qc) (l : AngledLoad Qc) : Qc :=
  if Qc_ltb (ang_x l) a then (- (Py_of l * (a - ang_x l)))%Qc else 0%Qc.

Definition udlShear (a : Qc) (l : UDLLoad Qc) : Qc :=
  if Qc_leb (udl_b l) a then (- (udl_w l * (udl_b l - udl_a l)))%Qc
  else if Qc_ltb (udl_a l) a then (- (udl_w l * (a - udl_a l)))%Qc
  else 0%Qc.

Definition udlMoment (a : Qc) (l : UDLLoad Qc) : Qc :=
  if Qc_leb (udl_b l) a then
    (- (udl_w l * (udl_b l - udl_a l) * (a - (udl_a l + udl_b l) / Qc_ofZ 2)))%Qc
  else if Qc_ltb (udl_a l) a && Qc_ltb a (udl_b l) then
    (- (udl_w l * (a - udl_a l) * (a - udl_a l) / Qc_ofZ 2))%Qc
  else 0%Qc.

(** The intensity of a UVL at [y]. *)
Definition intensityAt (l : UVLLoad Qc) (y : Qc) : Qc :=
  (uvl_w1 l + (uvl_w2 l - uvl_w1 l) * (y - uvl_a l) / (uvl_b l - uvl_a l))%Qc.

Definition uvlShear (a : Qc) (l : UVLLoad Qc) : Qc :=
  if Qc_leb (uvl_b l) a then
    (- ((uvl_w1 l + uvl_w2 l) * (uvl_b l - uvl_a l) / Qc_ofZ 2))%Qc
  else if Qc_ltb (uvl_a l) a then
    (- ((uvl_w1 l + intensityAt l a) * (a - uvl_a l) / Qc_ofZ 2))%Qc
  else 0%Qc.

Definition uvlMoment (a : Qc) (l : UVLLoad Qc) : Qc :=
  if Qc_leb (uvl_b l) a then
    (- ((uvl_w1 l + uvl_w2 l) * (uvl_b l - uvl_a l) / Qc_ofZ 2
        * (a - (uvl_a l + (uvl_b l - uvl_a l) * (uvl_w1 l + Qc_ofZ 2 * uvl_w2 l)
                          / (Qc_ofZ 3 * (uvl_w1 l + uvl_w2 l))))))%Qc
  else if Qc_ltb (uvl_a l) a && Qc_ltb a (uvl_b l) then
    (- ((uvl_w1 l + intensityAt l a) * (a - uvl_a l) / Qc_ofZ 2
        * (a - (uvl_a l + (a - uvl_a l) * (uvl_w1 l + Qc_ofZ 2 * intensityAt l a)
                          / (Qc_ofZ 3 * (uvl_w1 l + intensityAt l a))))))%Qc
  else 0%Qc.

Definition appliedMoment (a : Qc) (l : MomentLoad Qc) : Qc :=
  if Qc_leb (mom_x l) a then mom_M l else 0%Qc.

(** The resultant of the part of a UVL left of [y], and its line of action
    by the centroid formula. *)
Definition forceLeftOf (l : UVLLoad Qc) (y : Qc) : Qc :=
  ((uvl_w1 l + intensityAt l y) * (y - uvl_a l) / Qc_ofZ 2)%Qc.

Definition centroidLeftOf (l : UVLLoad Qc) (y : Qc) : Qc :=
  (uvl_a l + (y - uvl_a l) * (uvl_w1 l + Qc_ofZ 2 * intensityAt l y)
             / (Qc_ofZ 3 * (uvl_w1 l + intensityAt l y)))%Qc.

(** [p] is not strictly between [a] and [b]. *)
Definition outside (a b p : Qc) : Prop := (p <= a)%Qc \/ (b <= p)%Qc.

Definition udlActive (a b : Qc) (l : UDLLoad Qc) : bool :=
  Qc_ltb (udl_a l) b && Qc_ltb a (udl_b l).

Definition udlTerm (a b : Qc) (l : UDLLoad Qc) : Qc :=
  if udlActive a b l then (- udl_w l)%Qc else 0%Qc.

Definition uvlActive (a b : Qc) (l : UVLLoad Qc) : bool :=
  Qc_ltb (uvl_a l) b && Qc_ltb a (uvl_b l).

(** The intensities [uvlW1], [uvlW2] the classification loop assigns. *)
Definition uvlW1of (a : Qc) (l : UVLLoad Qc) : Qc :=
  (uvl_w1 l + (uvl_w2 l - uvl_w1 l)
              * ((max (uvl_a l) a - uvl_a l) / (uvl_b l - uvl_a l)))%js.

Definition uvlW2of (b : Qc) (l : UVLLoad Qc) : Qc :=
  (uvl_w1 l + (uvl_w2 l - uvl_w1 l)
              * ((min (uvl_b l) b - uvl_a l) / (uvl_b l - uvl_a l)))%js.

Definition uvlTerm1 (a b : Qc) (l : UVLLoad Qc) : Qc :=
  if uvlActive a b l then (- uvlW1of a l)%Qc else 0%Qc.

Definition uvlTerm2 (a b : Qc) (l : UVLLoad Qc) : Qc :=
  if uvlActive a b l
  then (- ((uvlW2of b l - uvlW1of a l) / (b - a)) / Qc_ofZ 2)%Qc else 0%Qc.

(** The divisor of the centroid formula at [x] is not zero. *)
Definition regularAt (x : Qc) (l : UVLLoad Qc) : Prop :=
  (uvl_a l < x)%Qc ->
  (uvl_w1 l + intensityAt l (if Qc_ltb x (uvl_b l) then x else uvl_b l))%Qc <> 0%Qc.

(** Distributed loads as spans; two spans are apart when they share at most
    an end point. *)
Definition spans (loads : Loads Qc) : list (Qc * Qc) :=
  map (fun l => (udl_a l, udl_b l)) (udl loads)
  ++ map (fun l => (uvl_a l, uvl_b l)) (uvl loads).

Definition apart (s1 s2 : Qc * Qc) : Prop :=
  (snd s1 <= fst s2)%Qc \/ (snd s2 <= fst s1)%Qc.

Definition spanActive (a b : Qc) (s : Qc * Qc) : bool :=
  Qc_ltb (fst s) b && Qc_ltb a (snd s).

(** The classification of an interval agrees with the flags it sets. *)
Definition typed (st : Active (num := Qc)) : Prop :=
  segmentType st = if hasUVL st then quadratic else if hasUDL st then linear else const.

End ExactVocabulary.

(** ** Inputs in exact arithmetic *)

(** Rational stand-ins for sine, cosine, pi, Infinity and NaN.  They only close
    the terms of the closed instances of the theorems: the theorems themselves
    are proved for every [Trig Qc] and every [Special Qc]. *)
Definition anyTrig : Trig Qc :=
  {| sin := fun x => x; cos := fun _ => Qc_ofZ 1; PI := Qc_ofZ 3 |}.
Definition anySpecial : Special Qc :=
  {| Infinity := Qc_ofZ 1000000000000; NaN := Qc_ofZ 0 |}.

(** A 10 m beam in m/kN on pin 0 and roller 10. *)
Definition exactBeam : BeamData Qc := mkBeamData (Qc_ofZ 10) (mkUnits "m" "kN").
Definition exactSupports : Support Qc :=
  mkSupport PinRoller (Some (Qc_ofZ 0)) (Some (Qc_ofZ 10)) None.

(** ... under two point loads. *)
Definition exactPointLoads : Loads Qc :=
  mkLoads [mkPointLoad "P1" (Qc_ofZ 5) (Qc_ofZ 4); mkPointLoad "P2" (Qc_ofZ 2) (Qc_ofZ 6)]
    [] [] [] [].

(** ... under a point load at 5, a UDL over [0, 4], a UVL over [4, 10] that
    goes from 1 to 3, and an applied moment at 4. *)
Definition exactLoads : Loads Qc :=
  mkLoads [mkPointLoad "P1" (Qc_ofZ 5) (Qc_ofZ 4)] []
    [mkUDLLoad "U1" (Qc_ofZ 0) (Qc_ofZ 4) (Qc_ofZ 2)]
    [mkUVLLoad "W1" (Qc_ofZ 4) (Qc_ofZ 10) (Qc_ofZ 1) (Qc_ofZ 3)]
    [mkMomentLoad "M1" (Qc_ofZ 4) (Qc_ofZ 7)].

Definition exactResult : AnalysisResult Qc :=
  calculateBeamAnalysis (T := anyTrig) (S := anySpecial) exactBeam exactSupports exactLoads.

(** A segment that stands for a missing one. *)
Definition noSegment : DiagramSegment Qc :=
  mkSegment (Qc_ofZ 0) (Qc_ofZ 0) const None None None None None.

(** ** The rest of the engine and its callers *)

Section Diagrams.
Context {num : Type} {N : Number num} {T : Trig num} {S : Special num}
        {Rd : Rounding num}.
Local Open Scope js_scope.

(** *** The bending moment sampler (generateBendingMomentData) *)

Record MomentPoint := mkMomentPoint { mp_x : num; bendingMoment : num }.

Definition momentNumPoints (segment : DiagramSegment num) : nat :=
  match seg_type segment with
  | quadratic => 20
  | cubic => 30
  | _ => 10
  end.

Definition momentSampleX (segment : DiagramSegment num) (i : nat) : num :=
  let segmentLength := seg_b segment - seg_a segment in
  let t := ofZ (Z.of_nat i) / ofZ (Z.of_nat (momentNumPoints segment)) in
  seg_a segment + segmentLength * t.

Definition sampleMoment (segment : DiagramSegment num) (i : nat) : num :=
  let t := ofZ (Z.of_nat i) / ofZ (Z.of_nat (momentNumPoints segment)) in
  let x := momentSampleX segment i in
  let dx := x - seg_a segment in
  match coeffs segment with
  | Some c =>
      match seg_type segment with
      | linear => idx c 0 + orElse (nth_error c 1) (ofZ 0) * dx
      | quadratic => idx c 0 + orElse (nth_error c 1) (ofZ 0) * dx
                     + orElse (nth_error c 2) (ofZ 0) * dx * dx
      | cubic => idx c 0 + orElse (nth_error c 1) (ofZ 0) * dx
                 + orElse (nth_error c 2) (ofZ 0) * dx * dx
                 + orElse (nth_error c 3) (ofZ 0) * dx * dx * dx
      | const => ofZ 0
      end
  | None => numOf (M_a segment) + (numOf (M_b segment) - numOf (M_a segment)) * t
  end.

(** The points pushed for one segment: [for (i = 0; i <= numPoints; i++)]. *)
Definition momentSamplePoints (segment : DiagramSegment num) : list MomentPoint :=
  map (fun i =>
    mkMomentPoint (round (momentSampleX segment i * ofZ 1000) / ofZ 1000)
                  (round (sampleMoment segment i * ofZ 1000) / ofZ 1000))
    (seq 0 (momentNumPoints segment + 1)).

(** [dataPoints.filter((point, index, arr) => index === 0 ||
    Math.abs(point.x - arr[index - 1].x) > 0.001)] *)
Fixpoint removeMomentDuplicates (prev : option MomentPoint) (arr : list MomentPoint)
  : list MomentPoint :=
  match arr with
  | [] => []
  | point :: rest =>
      let keep :=
        match prev with
        | None => true
        | Some q => abs (mp_x point - mp_x q) >? dec 1 1000
        end in
      (if keep then [point] else []) ++ removeMomentDuplicates (Some point) rest
  end.

Definition momentDataPoints (analysisResult : AnalysisResult num) : list MomentPoint :=
  flat_map momentSamplePoints (M_segments analysisResult).

Definition generateBendingMomentData (analysisResult : AnalysisResult num)
  : list MomentPoint :=
  removeMomentDuplicates None (momentDataPoints analysisResult).

(** *** The legacy entry point (calculateBeamAnalysisLegacy) *)

Record LegacyBeamData := mkLegacyBeamData { lb_length : num; lb_units : string }.
Record LegacySupport := mkLegacySupport { ls_type : string; ls_positions : list num }.
Record LegacyLoad := mkLegacyLoad {
  ll_id : string; ll_position : num; ll_magnitude : num }.

Record Series := mkSeries { series_x : list num; series_y : list num }.
Record Peak := mkPeak { peak_position : num; peak_value : num }.

Record LegacyAnalysisResult := mkLegacyResult {
  lr_reactions : list (string * num);
  lr_shearForce : Series;
  lr_bendingMoment : Series;
  lr_maxShear : Peak;
  lr_maxMoment : Peak;
  lr_isValid : bool;
  lr_error : option string
}.

(** [acc[key] = v] on an object with string keys, kept in insertion order. *)
Fixpoint objSet (key : string) (v : num) (acc : list (string * num))
  : list (string * num) :=
  match acc with
  | [] => [(key, v)]
  | (k, w) :: rest =>
      if String.eqb k key then (k, v) :: rest else (k, w) :: objSet key v rest
  end.

(** [supports[0]] is read outside any [try]: on an empty array the read of
    [.type] throws. *)
Definition calculateBeamAnalysisLegacy (beamData : LegacyBeamData)
  (supports : list LegacySupport) (loads : list LegacyLoad)
  : Exception + LegacyAnalysisResult :=
  let newBeamData := mkBeamData (lb_length beamData) (mkUnits "m" "kN") in
  match supports with
  | [] => inl (TypeError "Cannot read properties of undefined (reading 'type')")
  | support0 :: _ =>
      let newSupports :=
        {| stype := if String.eqb (ls_type support0) "Pin + Roller"
                    then PinRoller else Fixed;
           pin_x := nth_error (ls_positions support0) 0;
           roller_x := nth_error (ls_positions support0) 1;
           fixed_pos :=
             Some (match nth_error (ls_positions support0) 0 with
                   | Some p => if p === ofZ 0 then left else right
                   | None => right
                   end) |} in
      let newLoads :=
        {| point := map (fun load =>
             {| pt_label := ll_id load;
                pt_x := ll_position load;
                pt_P := ll_magnitude load |}) loads;
           angled := [];
           udl := [];
           uvl := [];
           moment := [] |} in
      let result := calculateBeamAnalysis newBeamData newSupports newLoads in
      inr {| lr_reactions :=
               fold_left (fun acc r =>
                   match r_type r with
                   | vertical => objSet (r_at r) (orElse (r_R r) (ofZ 0)) acc
                   | _ => acc
                   end) (reactions result) [];
             lr_shearForce :=
               mkSeries (events result)
                 (map (fun s => orElse (V_a s) (ofZ 0)) (V_segments result));
             lr_bendingMoment :=
               mkSeries (events result)
                 (map (fun s => orElse (M_a s) (ofZ 0)) (M_segments result));
             lr_maxShear :=
               mkPeak (Vmax_pos (positions (extrema result))) (Vmax (extrema result));
             lr_maxMoment :=
               mkPeak (Mmax_pos (positions (extrema result))) (Mmax (extrema result));
             lr_isValid := isValid result;
             lr_error := error result |}
  end.

(** *** The shear force chart (components/ShearForceDiagram.tsx) *)

Definition chartNumPoints (segment : DiagramSegment num) : nat :=
  match seg_type segment with
  | linear => 15
  | quadratic => 25
  | _ => 2
  end.

Definition chartSampleX (segment : DiagramSegment num) (i : nat) : num :=
  let segmentLength := seg_b segment - seg_a segment in
  let t := ofZ (Z.of_nat i) / ofZ (Z.of_nat (chartNumPoints segment)) in
  seg_a segment + segmentLength * t.

(** The shear computed for sample [i], before the factor 0.001 is applied. *)
Definition chartShear (segment : DiagramSegment num) (i : nat) : num :=
  let t := ofZ (Z.of_nat i) / ofZ (Z.of_nat (chartNumPoints segment)) in
  let x := chartSampleX segment i in
  let dx := x - seg_a segment in
  let fallback :=
    orElse (V_a segment) (ofZ 0)
    + (orElse (V_b segment) (ofZ 0) - orElse (V_a segment) (ofZ 0)) * t in
  match coeffs segment with
  | Some (c0 :: rest) =>
      let c := c0 :: rest in
      match seg_type segment with
      | const => idx c 0
      | linear => idx c 0 + orElse (nth_error c 1) (ofZ 0) * dx
      | quadratic => idx c 0 + orElse (nth_error c 1) (ofZ 0) * dx
                     + orElse (nth_error c 2) (ofZ 0) * dx * dx
      | cubic => ofZ 0
      end
  | _ => fallback
  end.

Definition conversionFactor : num := dec 1 1000.

Definition chartPoints (segment : DiagramSegment num) : list ShearPoint :=
  map (fun i =>
    let shearForce := chartShear segment i * conversionFactor in
    mkShearPoint (round (chartSampleX segment i * ofZ 1000) / ofZ 1000)
                 (round (shearForce * ofZ 1000) / ofZ 1000))
    (seq 0 (chartNumPoints segment + 1)).

(** The second loop: a point is kept when it is the first, or its x differs
    from the one before it in [dataPoints], or its shear does. *)
Fixpoint uniquePoints (prev : option ShearPoint) (dataPoints : list ShearPoint)
  : list ShearPoint :=
  match dataPoints with
  | [] => []
  | point :: rest =>
      let keep :=
        match prev with
        | None => true
        | Some prevPoint =>
            (abs (sp_x point - sp_x prevPoint) >? dec 1 10000)
            || (abs (shearForce point - shearForce prevPoint) >? dec 1 10)
        end in
      (if keep then [point] else []) ++ uniquePoints (Some point) rest
  end.

Definition generateDataPoints (analysisResult : AnalysisResult num) : list ShearPoint :=
  uniquePoints None (flat_map chartPoints (V_segments analysisResult)).

Inductive ChartType := stepAfter | linearChart.

Definition getChartType (analysisResult : AnalysisResult num) : ChartType :=
  let hasOnlyPointLoads :=
    forallb (fun s => SegmentType_eqb (seg_type s) const) (V_segments analysisResult) in
  if hasOnlyPointLoads then stepAfter else linearChart.

(** [Math.max(...values)] and [Math.min(...values)] on at least one argument. *)
Definition mathMax (values : list num) : num :=
  match values with
  | [] => - Infinity
  | v :: rest => fold_left max rest v
  end.

Definition mathMin (values : list num) : num :=
  match values with
  | [] => Infinity
  | v :: rest => fold_left min rest v
  end.

(** The domain [yMin, yMax] of the y axis. *)
Definition yDomain (data : list ShearPoint) : num * num :=
  let shearValues := map shearForce data in
  let maxShear := mathMax (shearValues ++ [ofZ 0]) in
  let minShear := mathMin (shearValues ++ [ofZ 0]) in
  let shearRange := mathMax [maxShear - minShear; ofZ 1] in
  let padding := shearRange * dec 15 100 in
  (minShear - padding, maxShear + padding).

End Diagrams.

(** ** More vocabulary *)

(** The property names an object literal inherits from Object.prototype.
    In the code [table[key]] finds a function there (for [__proto__], an
    object), which is truthy and not a number; [lookup] reads own keys only,
    so statements about unit names leave these names out. *)
Definition OBJECT_PROTOTYPE_KEYS : list string :=
  [ "constructor"; "__defineGetter__"; "__defineSetter__"; "hasOwnProperty";
    "__lookupGetter__"; "__lookupSetter__"; "isPrototypeOf";
    "propertyIsEnumerable"; "toString"; "valueOf"; "__proto__";
    "toLocaleString" ]%string.

Definition inherited (key : string) : bool :=
  existsb (String.eqb key) OBJECT_PROTOTYPE_KEYS.

Section AnyArithmetic.
Context {num : Type} {N : Number num}.

(** The test of the two classification loops: the load reaches into the
    interval from [a] to [b]. *)
Definition activeUDL (a b : num) (load : UDLLoad num) : bool :=
  ltb (udl_a load) b && ltb a (udl_b load).

Definition activeUVL (a b : num) (load : UVLLoad num) : bool :=
  ltb (uvl_a load) b && ltb a (uvl_b load).

Definition typeOver (loads : Loads num) (a b : num) : SegmentType :=
  if existsb (activeUVL a b) (uvl loads) then quadratic
  else if existsb (activeUDL a b) (udl loads) then linear
  else const.

(** The moment is the integral of the shear: one degree up. *)
Definition integralType (t : SegmentType) : SegmentType :=
  match t with
  | const => linear
  | linear => quadratic
  | _ => cubic
  end.

Definition coefficients (t : SegmentType) : nat :=
  match t with const => 1 | linear => 2 | quadratic => 3 | cubic => 4 end.

(** A moment segment [m] that goes with the shear segment [v]. *)
Definition follows (v m : DiagramSegment num) : Prop :=
  seg_a m = seg_a v /\ seg_b m = seg_b v
  /\ seg_type v <> cubic /\ seg_type m = integralType (seg_type v)
  /\ (exists cv cm, coeffs v = Some cv /\ coeffs m = Some cm
                    /\ List.length cv = coefficients (seg_type v)
                    /\ List.length cm = coefficients (seg_type m))
  /\ (V_a v <> None /\ V_b v <> None /\ M_a v = None /\ M_b v = None)
  /\ (M_a m <> None /\ M_b m <> None /\ V_a m = None /\ V_b m = None).

End AnyArithmetic.

Section MoreExactVocabulary.

(** The moment of the point loads about [x0], and the sum of the applied
    moments. *)
Definition momentOfLoadsAbout (x0 : Qc) (loads : Loads Qc) : Qc :=
  total (fun load => (pt_P load * (pt_x load - x0))%Qc) (point loads).

Definition sumOfAppliedMoments (loads : Loads Qc) : Qc :=
  total (@mom_M Qc) (moment loads).

(** A reaction that has no position: the horizontal one. *)
Definition unplaced (r : Reaction Qc) : Prop :=
  r_type r = horizontal /\ r_x r = None.

(** The moment reaction of a support at or left of [x], and an applied moment
    standing at [x]. *)
Definition reactionCouple (x : Qc) (r : Reaction Qc) : Qc :=
  match r_type r, r_x r with
  | moment_reaction, Some p => if Qc_leb p x then orElse (r_M r) 0%Qc else 0%Qc
  | _, _ => 0%Qc
  end.

Definition appliedAt (x : Qc) (load : MomentLoad Qc) : Qc :=
  if Qc_eq_bool (mom_x load) x then mom_M load else 0%Qc.

(** The point forces standing at [x]: vertical reactions up, point loads and
    the vertical parts of angled loads down. *)
Definition reactionAt (x : Qc) (r : Reaction Qc) : Qc :=
  match r_type r, r_x r with
  | vertical, Some p => if Qc_eq_bool p x then orElse (r_R r) 0%Qc else 0%Qc
  | _, _ => 0%Qc
  end.

Definition pointLoadAt (x : Qc) (load : PointLoad Qc) : Qc :=
  if Qc_eq_bool (pt_x load) x then pt_P load else 0%Qc.

Definition angledLoadAt {T : Trig Qc} (x : Qc) (load : AngledLoad Qc) : Qc :=
  if Qc_eq_bool (ang_x load) x then Py_of load else 0%Qc.

Definition pointForcesAt {T : Trig Qc} (x : Qc) (loads : Loads Qc)
  (reactions : list (Reaction Qc)) : Qc :=
  (total (reactionAt x) reactions - total (pointLoadAt x) (point loads)
   - total (angledLoadAt x) (angled loads))%Qc.

(** [v] lies between the recorded minimum and maximum; [e'] records at least
    the range of [e]. *)
Definition boundsV (e : Extrema Qc) (v : Qc) : Prop := (Vmin e <= v)%Qc /\ (v <= Vmax e)%Qc.
Definition boundsM (e : Extrema Qc) (v : Qc) : Prop := (Mmin e <= v)%Qc /\ (v <= Mmax e)%Qc.
Definition widens (e e' : Extrema Qc) : Prop :=
  (Vmax e <= Vmax e')%Qc /\ (Vmin e' <= Vmin e)%Qc
  /\ (Mmax e <= Mmax e')%Qc /\ (Mmin e' <= Mmin e)%Qc.

(** [q] stands right of [p] on the x axis by more than 0.001. *)
Definition rightOf (p q : ShearPoint (num := Qc)) : Prop :=
  (sp_x p + Qc_ofZ 1 / Qc_ofZ 1000 < sp_x q)%Qc.

End MoreExactVocabulary.

(** ** More exact scenarios *)

(** A cantilever fixed at its left end, and loads without distributed parts. *)
Definition exactCantilever : Support Qc := mkSupport Fixed None None (Some left).

Definition exactPointAndMoment : Loads Qc :=
  mkLoads [mkPointLoad "P1" (Qc_ofZ 5) (Qc_ofZ 4); mkPointLoad "P2" (Qc_ofZ 2) (Qc_ofZ 6)]
    [] [] [] [mkMomentLoad "M1" (Qc_ofZ 4) (Qc_ofZ 7)].

(** A point load at 5 and a UDL over [0, 4]. *)
Definition exactSpanLoads : Loads Qc :=
  mkLoads [mkPointLoad "P1" (Qc_ofZ 5) (Qc_ofZ 4)] []
    [mkUDLLoad "U1" (Qc_ofZ 0) (Qc_ofZ 4) (Qc_ofZ 2)] [] [].

(** The same beam in cm and kN. *)
Definition exactBeamInCm : BeamData Qc := mkBeamData (Qc_ofZ 1000) (mkUnits "cm" "kN").
Definition exactSupportsInCm : Support Qc :=
  mkSupport PinRoller (Some (Qc_ofZ 0)) (Some (Qc_ofZ 1000)) None.
Definition exactLoadsInCm : Loads Qc :=
  mkLoads [mkPointLoad "P1" (Qc_ofZ 500) (Qc_ofZ 4)] [] [] [] [].

(** Input of the legacy entry point: a 10 m cantilever under one load. *)
Definition legacyBeam : LegacyBeamData (num := Qc) := mkLegacyBeamData (Qc_ofZ 10) "m".
Definition legacyCantilever : list (LegacySupport (num := Qc)) :=
  [mkLegacySupport "Fixed" [Qc_ofZ 0]].
Definition legacyLoads : list (LegacyLoad (num := Qc)) :=
  [mkLegacyLoad "P1" (Qc_ofZ 5) (Qc_ofZ 4)].

(** * Properties *)

(** ** Order and equality on exact rationals *)

Lemma Qc_ltb_spec (x y : Qc) : reflect (x < y)%Qc (Qc_ltb x y).
Proof.
  unfold Qc_ltb, Qccompare, Qclt. destruct (x ?= y)%Q eqn:E; constructor;
    rewrite Qlt_alt; congruence.
Qed.

Lemma Qc_leb_spec (x y : Qc) : reflect (x <= y)%Qc (Qc_leb x y).
Proof.
  unfold Qc_leb, Qccompare, Qcle. destruct (x ?= y)%Q eqn:E; constructor;
    rewrite Qle_alt; congruence.
Qed.

Lemma Qc_eqb_spec (x y : Qc) : reflect (x = y) (Qc_eq_bool x y).
Proof.
  destruct (Qc_eq_bool x y) eqn:E; constructor.
  - now apply Qc_eq_bool_correct.
  - intro H. subst. unfold Qc_eq_bool in E. destruct (Qc_eq_dec y y); congruence.
Qed.

(** Moving a statement on Qc to Q *)
Lemma Qc_eq_Q (x y : Qc) : x = y <-> (x == y)%Q.
Proof. split; [intros ->; reflexivity | apply Qc_is_canon]. Qed.

Lemma Qc_tri (x y : Qc) : {(x < y)%Qc} + {x = y} + {(y < x)%Qc}.
Proof.
  destruct (Qclt_le_dec x y) as [H|H]; [left; now left|].
  destruct (Qc_eq_dec x y) as [E|E]; [left; now right|].
  right. destruct (Qcle_lt_or_eq _ _ H) as [H'|H']; [exact H' | congruence].
Qed.

Lemma Qc_ltb_true (x y : Qc) : (x < y)%Q -> Qc_ltb x y = true.
Proof. intros H. now destruct (Qc_ltb_spec x y). Qed.

Lemma Qc_ltb_false (x y : Qc) : (y <= x)%Q -> Qc_ltb x y = false.
Proof. intros H. destruct (Qc_ltb_spec x y) as [H'|]; [|reflexivity]. unfold Qclt in H'. lra. Qed.

Lemma Qc_leb_true (x y : Qc) : (x <= y)%Q -> Qc_leb x y = true.
Proof. intros H. now destruct (Qc_leb_spec x y). Qed.

Lemma Qc_leb_false (x y : Qc) : (y < x)%Q -> Qc_leb x y = false.
Proof. intros H. destruct (Qc_leb_spec x y) as [H'|]; [|reflexivity]. unfold Qcle in H'. lra. Qed.

Lemma Qc_le_cases (x y : Qc) : (x <= y)%Q -> (x < y)%Q \/ x = y.
Proof. intros H. apply Qcle_lt_or_eq, H. Qed.

(** ** Tactics *)

Ltac qc_unfold :=
  cbv [add sub mul div neg ofZ QcNumber Qc_ofZ] in *;
  unfold Qcdiv, Qcminus, Qcplus, Qcmult, Qcopp, Qcinv, Qclt, Qcle, Q2Qc in *; cbn [this] in *.

Ltac qc_to_q :=
  repeat match goal with
  | H : @eq Qc _ _ |- _ => apply Qc_eq_Q in H
  | H : ~ (@eq Qc _ _) |- _ => rewrite Qc_eq_Q in H
  | |- @eq Qc _ _ => apply Qc_eq_Q
  | |- ~ (@eq Qc _ _) => rewrite Qc_eq_Q
  end;
  qc_unfold;
  repeat match goal with
  | H : context [Qred _] |- _ => rewrite !Qred_correct in H
  end;
  rewrite ?Qred_correct.

Ltac qc_ops :=
  change (@ofZ Qc QcNumber 0%Z) with 0%Qc in *;
  cbn [leb ltb add sub mul div neg ofZ QcNumber] in *.

Ltac by_cases :=
  repeat match goal with
  | |- context [match r_type ?r with _ => _ end] => destruct (r_type r)
  | |- context [match r_x ?r with _ => _ end] => destruct (r_x r)
  | |- context [if ?c then _ else _] => destruct c
  end; cbv beta iota.

Ltac cmp_cases :=
  repeat match goal with
  | |- context [Qc_ltb ?x ?y] => destruct (Qc_ltb_spec x y)
  | |- context [Qc_leb ?x ?y] => destruct (Qc_leb_spec x y)
  end; cbn [andb].

Ltac tri x y := destruct (Qc_tri x y) as [[?|?]|?].

Ltac absurd_order := exfalso; qc_to_q; lra.

Ltac decide_cmp :=
  repeat match goal with
  | |- context [Qc_ltb ?x ?y] =>
      first [rewrite (Qc_ltb_true x y) by lra | rewrite (Qc_ltb_false x y) by lra]
  | |- context [Qc_leb ?x ?y] =>
      first [rewrite (Qc_leb_true x y) by lra | rewrite (Qc_leb_false x y) by lra]
  end; cbn [andb].

(** ** The loops over the events *)

Section LoopFacts.
Context {num : Type} {N : Number num} {T : Trig num} {S : Special num}.

Lemma calculateShearSegments_cons loads reactions a b rest :
  calculateShearSegments loads reactions (a :: b :: rest)
  = shearSegment loads reactions a b :: calculateShearSegments loads reactions (b :: rest).
Proof. reflexivity. Qed.

Lemma momentLoop_total loads reactions events : forall pre,
  momentLoop (pre ++ calculateShearSegments loads reactions events) loads reactions
    (List.length pre) events
  = inr (momentSegmentsOf loads reactions events).
Proof.
  induction events as [|a rest IH]; intros pre; [reflexivity|].
  destruct rest as [|b rest]; [reflexivity|].
  rewrite calculateShearSegments_cons.
  specialize (IH (pre ++ [shearSegment loads reactions a b])).
  rewrite <- app_assoc, length_app in IH. cbn [app List.length] in IH.
  rewrite Nat.add_1_r in IH.
  change (momentLoop ?V loads reactions ?i (a :: b :: rest))
    with (match nth_error V i with
          | None => inl (TypeError "Cannot read properties of undefined (reading 'type')")
          | Some V_segment =>
              match momentLoop V loads reactions (Datatypes.S i) (b :: rest) with
              | inl e => inl e
              | inr segments =>
                  inr (momentSegment loads reactions a b V_segment :: segments)
              end
          end).
  rewrite nth_error_app2 by lia. rewrite Nat.sub_diag. cbn [nth_error].
  now rewrite IH.
Qed.

Lemma calculateMomentSegments_total loads reactions events :
  calculateMomentSegments (calculateShearSegments loads reactions events)
    loads reactions events
  = inr (momentSegmentsOf loads reactions events).
Proof. apply (momentLoop_total loads reactions events []). Qed.

Lemma momentSegmentsOf_cons loads reactions a b rest :
  momentSegmentsOf loads reactions (a :: b :: rest)
  = momentSegment loads reactions a b (shearSegment loads reactions a b)
    :: momentSegmentsOf loads reactions (b :: rest).
Proof. reflexivity. Qed.

Lemma pairs_cons (a b : num) rest : pairs (a :: b :: rest) = (a, b) :: pairs (b :: rest).
Proof. reflexivity. Qed.

Lemma shear_ends loads reactions events :
  map ends (calculateShearSegments loads reactions events) = pairs events.
Proof.
  induction events as [|a rest IH]; [reflexivity|].
  destruct rest as [|b rest]; [reflexivity|].
  rewrite calculateShearSegments_cons, pairs_cons. cbn [map]. now rewrite IH.
Qed.

Lemma moment_ends loads reactions events :
  map ends (momentSegmentsOf loads reactions events) = pairs events.
Proof.
  induction events as [|a rest IH]; [reflexivity|].
  destruct rest as [|b rest]; [reflexivity|].
  rewrite momentSegmentsOf_cons, pairs_cons. cbn [map]. rewrite IH. f_equal.
  unfold ends, momentSegment. destruct (seg_type _); reflexivity.
Qed.

Lemma pairs_map (f : num -> num) events :
  pairs (map f events) = map (fun p => (f (fst p), f (snd p))) (pairs events).
Proof.
  induction events as [|a rest IH]; [reflexivity|].
  destruct rest as [|b rest]; [reflexivity|].
  rewrite pairs_cons. cbn [map]. rewrite <- IH. reflexivity.
Qed.

Lemma display_ends segments u :
  map ends (convertSegmentsToDisplayUnits segments u)
  = map (fun p => (convertLength (fst p) (u_length BASE_UNITS) (u_length u),
                   convertLength (snd p) (u_length BASE_UNITS) (u_length u)))
      (map ends segments).
Proof.
  unfold convertSegmentsToDisplayUnits. rewrite !map_map. reflexivity.
Qed.

(** A valid result is the pipeline run to its end. *)
Lemma valid_result beamData supports loads :
  isValid (calculateBeamAnalysis beamData supports loads) = true ->
  let u := units beamData in
  let baseLength := convertLength (length beamData) (u_length u) (u_length BASE_UNITS) in
  let baseLoads := convertLoadsToBaseUnits loads u in
  let baseSupports := convertSupportsToBaseUnits supports (u_length u) in
  let reactions := calculateReactions baseLoads baseSupports baseLength in
  let events := generateEvents baseLoads baseSupports baseLength in
  leb (length beamData) (ofZ 0) = false /\
  validateSupports baseSupports baseLength = true /\
  calculateBeamAnalysis beamData supports loads =
  {| reactions := convertReactionsToDisplayUnits reactions u;
     events := map (fun x => convertLength x (u_length BASE_UNITS) (u_length u)) events;
     V_segments :=
       convertSegmentsToDisplayUnits (calculateShearSegments baseLoads reactions events) u;
     M_segments :=
       convertSegmentsToDisplayUnits (momentSegmentsOf baseLoads reactions events) u;
     extrema :=
       convertExtremaToDisplayUnits
         (findExtrema (calculateShearSegments baseLoads reactions events)
            (momentSegmentsOf baseLoads reactions events) baseLoads reactions) u;
     isValid := true;
     error := None |}.
Proof.
  unfold calculateBeamAnalysis.
  destruct (leb (length beamData) (ofZ 0)); [discriminate|].
  destruct (validateSupports _ _); [|discriminate]. cbn [negb].
  rewrite calculateMomentSegments_total. intros _. cbv zeta. auto.
Qed.

End LoopFacts.

(** ** The engine in exact arithmetic *)

Section Exact.
Context {T : Trig Qc} {S : Special Qc}.

Lemma orElse_nonzero (x : option Qc) (d : Qc) : d <> 0%Qc -> orElse x d <> 0%Qc.
Proof.
  intros Hd. unfold orElse. destruct x as [v|]; [|exact Hd].
  cbn [falsy QcNumber]. destruct (Qc_eqb_spec v (Qc_ofZ 0)) as [->|Hv]; [exact Hd|].
  exact Hv.
Qed.

Lemma forceFactor_nonzero u : forceFactor u <> 0%Qc.
Proof. apply orElse_nonzero. discriminate. Qed.

Lemma lengthFactor_nonzero u : lengthFactor u <> 0%Qc.
Proof. apply orElse_nonzero. discriminate. Qed.

Lemma forceFactor_base : forceFactor (u_force BASE_UNITS) = 1%Qc.
Proof. apply Qc_is_canon. reflexivity. Qed.

Lemma lengthFactor_base : lengthFactor (u_length BASE_UNITS) = 1%Qc.
Proof. apply Qc_is_canon. reflexivity. Qed.

Lemma convertForce_to_base v u :
  convertForce v u (u_force BASE_UNITS) = (v * forceFactor u)%Qc.
Proof.
  unfold convertForce. fold (forceFactor u). fold (forceFactor (u_force BASE_UNITS)).
  rewrite forceFactor_base. cbn [mul div QcNumber]. field. discriminate.
Qed.

Lemma convertForce_to_display v u :
  convertForce v (u_force BASE_UNITS) u = (v / forceFactor u)%Qc.
Proof.
  unfold convertForce. fold (forceFactor u). fold (forceFactor (u_force BASE_UNITS)).
  rewrite forceFactor_base. cbn [mul div QcNumber]. field. apply forceFactor_nonzero.
Qed.




(** What the support validator decides: the three conditions on the positions
    it reads, where a roller_x that is missing or 0 is read as the length. *)
Lemma validateSupports_spec (supports : Support Qc) (length : Qc) :
  validateSupports supports length = true <->
  stype supports = Fixed \/
  ((0 <= orElse (pin_x supports) 0%Qc)%Qc
   /\ (orElse (roller_x supports) length <= length)%Qc
   /\ orElse (pin_x supports) 0%Qc <> orElse (roller_x supports) length).
Proof.
  unfold validateSupports. change (@ofZ Qc QcNumber 0%Z) with 0%Qc.
  destruct (stype supports); [|split; auto].
  cbn [leb strictEq QcNumber]. rewrite !andb_true_iff, negb_true_iff.
  destruct (Qc_leb_spec 0%Qc (orElse (pin_x supports) 0%Qc));
    destruct (Qc_leb_spec (orElse (roller_x supports) length) length);
    destruct (Qc_eqb_spec (orElse (pin_x supports) 0%Qc)
                (orElse (roller_x supports) length));
    split; intros H; try (right; tauto); try (destruct H as [H|H]; [discriminate|]);
    try tauto; try (destruct H as [[H1 H2] H3]; discriminate).
Qed.

(** With both positions given and a roller that is not at 0, that is the
    condition on the positions as given. *)
Lemma validateSupports_given (p r length : Qc) (side : option Side) :
  r <> 0%Qc ->
  (validateSupports (mkSupport PinRoller (Some p) (Some r) side) length = true <->
   (0 <= p)%Qc /\ (r <= length)%Qc /\ p <> r).
Proof.
  intros Hr. rewrite validateSupports_spec. cbn [stype pin_x roller_x orElse falsy QcNumber].
  destruct (Qc_eqb_spec r (Qc_ofZ 0)) as [E|_]; [contradiction|].
  destruct (Qc_eqb_spec p (Qc_ofZ 0)) as [->|_];
    (split; [intros [H|H]; [discriminate | exact H] | intros H; right; exact H]).
Qed.

Lemma setAdd_In (x y : Qc) (s : list Qc) : In x (setAdd y s) <-> x = y \/ In x s.
Proof.
  unfold setAdd. destruct (existsb (sameValueZero y) s) eqn:E.
  - split; [tauto|]. intros [->|H]; [|exact H].
    apply existsb_exists in E. destruct E as [z [Hz Hyz]].
    cbn [sameValueZero QcNumber] in Hyz.
    destruct (Qc_eqb_spec y z); [subst; exact Hz | discriminate].
  - rewrite in_app_iff. cbn [In]. intuition.
Qed.

Lemma setAdd_NoDup (y : Qc) (s : list Qc) : NoDup s -> NoDup (setAdd y s).
Proof.
  intros Hs. unfold setAdd. destruct (existsb (sameValueZero y) s) eqn:E; [exact Hs|].
  apply NoDup_app; [exact Hs | constructor; [intros []|constructor] |].
  intros z Hz [<-|[]].
  assert (existsb (sameValueZero y) s = true); [|congruence].
  apply existsb_exists. exists y. split; [exact Hz|].
  cbn [sameValueZero QcNumber]. now destruct (Qc_eqb_spec y y).
Qed.

Lemma addAll_In x xs ev : In x (addAll xs ev) <-> In x ev \/ In x xs.
Proof.
  revert ev. induction xs as [|y xs IH]; intros ev; cbn [addAll fold_left In].
  - tauto.
  - fold (addAll xs (setAdd y ev)). rewrite IH, setAdd_In. intuition.
Qed.

Lemma addAll_NoDup xs ev : NoDup ev -> NoDup (addAll xs ev).
Proof.
  revert ev. induction xs as [|y xs IH]; intros ev H; cbn [addAll fold_left]; [exact H|].
  apply IH, setAdd_NoDup, H.
Qed.

Lemma fold_addAll_In {A} (g : A -> list Qc) (l : list A) ev x :
  In x (fold_left (fun e load => addAll (g load) e) l ev)
  <-> In x ev \/ exists load, In load l /\ In x (g load).
Proof.
  revert ev. induction l as [|a l IH]; intros ev; cbn [fold_left In].
  - split; [tauto|]. intros [H|[load [[] _]]]. exact H.
  - rewrite IH, addAll_In. split.
    + intros [[H|H]|[load [H1 H2]]]; eauto.
    + intros [H|[load [[<-|H1] H2]]]; eauto.
Qed.

Lemma fold_addAll_NoDup {A} (g : A -> list Qc) (l : list A) ev :
  NoDup ev -> NoDup (fold_left (fun e load => addAll (g load) e) l ev).
Proof.
  revert ev. induction l as [|a l IH]; intros ev H; cbn [fold_left]; [exact H|].
  apply IH, addAll_NoDup, H.
Qed.

Lemma eventSet_eq (loads : Loads Qc) (supports : Support Qc) (length : Qc) :
  eventSet loads supports length =
  fold_left (fun e load => addAll [mom_x load] e) (moment loads)
   (fold_left (fun e load => addAll [uvl_a load; uvl_b load] e) (uvl loads)
    (fold_left (fun e load => addAll [udl_a load; udl_b load] e) (udl loads)
     (fold_left (fun e load => addAll [ang_x load] e) (angled loads)
      (fold_left (fun e load => addAll [pt_x load] e) (point loads)
       (addAll (supportPositions supports length) (addAll [ofZ 0; length] [])))))).
Proof. unfold eventSet, supportPositions. destruct (stype supports); reflexivity. Qed.

Lemma in_map_ex {A} (f : A -> Qc) l x :
  (exists a, In a l /\ In x [f a]) <-> In x (map f l).
Proof.
  rewrite in_map_iff. split; intros [a H]; exists a; cbn [In] in *; intuition.
Qed.

Lemma in_flat_map_ex {A} (f : A -> list Qc) l x :
  (exists a, In a l /\ In x (f a)) <-> In x (flat_map f l).
Proof. now rewrite in_flat_map. Qed.

Lemma eventSet_In (loads : Loads Qc) (supports : Support Qc) (length x : Qc) :
  In x (eventSet loads supports length) <-> In x (eventPositions loads supports length).
Proof.
  rewrite (eventSet_eq loads supports length). unfold eventPositions, loadPositions.
  rewrite !fold_addAll_In, !addAll_In, !in_app_iff.
  rewrite !in_map_ex, in_flat_map_ex, in_flat_map_ex. cbn [In]. tauto.
Qed.

Lemma eventSet_NoDup (loads : Loads Qc) (supports : Support Qc) (length : Qc) : NoDup (eventSet loads supports length).
Proof.
  rewrite (eventSet_eq loads supports length). repeat apply fold_addAll_NoDup. repeat apply addAll_NoDup.
  constructor.
Qed.

Lemma byDifference_le (a b : Qc) : (byDifference a b <=? ofZ 0)%js = true <-> (a <= b)%Qc.
Proof.
  unfold byDifference. cbn [leb QcNumber].
  destruct (Qc_leb_spec (a - b)%js (ofZ 0)) as [H|H]; split; intros H'; try easy.
  - qc_to_q. unfold inject_Z in *. lra.
  - exfalso. apply H. qc_to_q. unfold inject_Z in *. lra.
Qed.

Lemma sortCompare_exact (compareFn : Qc -> Qc -> Qc) (x y : Qc) :
  sortCompare compareFn x y = compareFn x y.
Proof.
  unfold sortCompare. cbn [strictEq QcNumber].
  now destruct (Qc_eqb_spec (compareFn x y) (compareFn x y)).
Qed.

Lemma sortInsert_perm (x : Qc) l : Permutation (sortInsert byDifference x l) (x :: l).
Proof.
  induction l as [|y l IH]; cbn [sortInsert]; [reflexivity|].
  rewrite sortCompare_exact.
  destruct (leb (byDifference x y) (ofZ 0)); [reflexivity|].
  rewrite IH. apply perm_swap.
Qed.

Lemma arraySort_perm (l : list Qc) : Permutation (arraySort byDifference l) l.
Proof.
  induction l as [|x l IH]; cbn [arraySort]; [reflexivity|].
  rewrite sortInsert_perm. now constructor.
Qed.

Lemma sortInsert_sorted (x : Qc) l :
  StronglySorted Qcle l -> StronglySorted Qcle (sortInsert byDifference x l).
Proof.
  induction 1 as [|y l Hl IH Hy]; cbn [sortInsert]; [repeat constructor|].
  rewrite sortCompare_exact.
  destruct (leb (byDifference x y) (ofZ 0)) eqn:E.
  - apply byDifference_le in E. constructor; [constructor; assumption|].
    constructor; [exact E|]. eapply Forall_impl; [|exact Hy].
    intros z Hz. eapply Qcle_trans; eassumption.
  - assert (Hyx : (y <= x)%Qc).
    { destruct (Qclt_le_dec y x) as [H|H]; [now apply Qclt_le_weak|].
      apply byDifference_le in H. congruence. }
    constructor; [exact IH|].
    eapply Permutation_Forall; [symmetry; apply sortInsert_perm|].
    constructor; assumption.
Qed.

Lemma arraySort_sorted (l : list Qc) : StronglySorted Qcle (arraySort byDifference l).
Proof.
  induction l as [|x l IH]; cbn [arraySort]; [constructor|].
  now apply sortInsert_sorted.
Qed.

Lemma sorted_NoDup_strict l :
  StronglySorted Qcle l -> NoDup l -> StronglySorted Qclt l.
Proof.
  induction 1 as [|x l Hl IH Hx]; intros Hnd; [constructor|].
  inversion Hnd as [|? ? Hnin Hnd']; subst. constructor; [now apply IH|].
  rewrite Forall_forall in *. intros y Hy.
  destruct (Qcle_lt_or_eq _ _ (Hx y Hy)) as [H|H]; [exact H|]. subst. contradiction.
Qed.

Lemma strict_sorted_NoDup l : StronglySorted Qclt l -> NoDup l.
Proof.
  induction 1 as [|x l Hl IH Hx]; constructor; [|exact IH].
  intros Hin. rewrite Forall_forall in Hx. specialize (Hx x Hin).
  apply Qclt_not_eq in Hx. congruence.
Qed.

Lemma strict_sorted_unique l1 : forall l2,
  StronglySorted Qclt l1 -> StronglySorted Qclt l2 ->
  (forall x, In x l1 <-> In x l2) -> l1 = l2.
Proof.
  induction l1 as [|x l1 IH]; intros l2 H1 H2 Hin.
  - destruct l2 as [|y l2]; [reflexivity|]. destruct (proj2 (Hin y)). now left.
  - destruct l2 as [|y l2]; [destruct (proj1 (Hin x)); now left|].
    inversion H1 as [|? ? S1' F1]; inversion H2 as [|? ? S2' F2]; subst.
    rewrite Forall_forall in F1, F2.
    assert (x = y).
    { destruct (proj1 (Hin x) (or_introl eq_refl)) as [->|Hx]; [reflexivity|].
      destruct (proj2 (Hin y) (or_introl eq_refl)) as [->|Hy]; [reflexivity|].
      specialize (F1 y Hy). specialize (F2 x Hx).
      exfalso. qc_to_q. lra. }
    subst y. f_equal. apply IH; try assumption.
    intros z. split; intros Hz.
    + destruct (proj1 (Hin z) (or_intror Hz)) as [<-|H]; [|exact H].
      specialize (F1 x Hz). exfalso. qc_to_q. lra.
    + destruct (proj2 (Hin z) (or_intror Hz)) as [<-|H]; [|exact H].
      specialize (F2 x Hz). exfalso. qc_to_q. lra.
Qed.

Lemma arraySort_strict (l : list Qc) : NoDup l -> StronglySorted Qclt (arraySort byDifference l).
Proof.
  intros H. apply sorted_NoDup_strict; [apply arraySort_sorted|].
  eapply Permutation_NoDup; [symmetry; apply arraySort_perm | exact H].
Qed.

Lemma arraySort_In (l : list Qc) x : In x (arraySort byDifference l) <-> In x l.
Proof.
  split; apply Permutation_in; [|symmetry]; apply arraySort_perm.
Qed.

Lemma arraySort_fixed (l : list Qc) : StronglySorted Qclt l -> arraySort byDifference l = l.
Proof.
  intros H. apply strict_sorted_unique; [|exact H|apply arraySort_In].
  apply arraySort_strict, strict_sorted_NoDup, H.
Qed.

Lemma generateEvents_eq (loads : Loads Qc) (supports : Support Qc) (length : Qc) :
  generateEvents loads supports length
  = arraySort byDifference (eventSet loads supports length).
Proof. reflexivity. Qed.

Lemma generateEvents_sorted (loads : Loads Qc) (supports : Support Qc) (length : Qc) :
  StronglySorted Qclt (generateEvents loads supports length).
Proof. rewrite generateEvents_eq. apply arraySort_strict, eventSet_NoDup. Qed.

Lemma generateEvents_In (loads : Loads Qc) (supports : Support Qc) (length x : Qc) :
  In x (generateEvents loads supports length)
  <-> In x (eventPositions loads supports length).
Proof. rewrite generateEvents_eq, arraySort_In. apply eventSet_In. Qed.

Lemma addAll_fresh (xs ev : list Qc) : NoDup (ev ++ xs) -> addAll xs ev = ev ++ xs.
Proof.
  revert ev. induction xs as [|y xs IH]; intros ev H; cbn [addAll fold_left].
  - now rewrite app_nil_r.
  - fold (addAll xs (setAdd y ev)).
    assert (Hy : setAdd y ev = ev ++ [y]).
    { unfold setAdd. destruct (existsb (sameValueZero y) ev) eqn:E; [|reflexivity].
      apply existsb_exists in E. destruct E as [z [Hz Hyz]].
      cbn [sameValueZero QcNumber] in Hyz.
      destruct (Qc_eqb_spec y z); [subst z | discriminate].
      apply NoDup_remove_2 in H. destruct H. apply in_or_app. now left. }
    rewrite Hy, IH; rewrite <- app_assoc; [reflexivity | exact H].
Qed.

Lemma Permutation_flat_map_In {A} (f : A -> list Qc) l l' x :
  Permutation l l' -> In x (flat_map f l) -> In x (flat_map f l').
Proof.
  intros P. rewrite !in_flat_map. intros [a [Ha Hx]]. exists a.
  split; [eapply Permutation_in; eassumption | exact Hx].
Qed.

Lemma eventPositions_perm (loads loads' : Loads Qc) (supports : Support Qc)
  (length x : Qc) :
  Permutation (point loads) (point loads') ->
  Permutation (angled loads) (angled loads') ->
  Permutation (udl loads) (udl loads') ->
  Permutation (uvl loads) (uvl loads') ->
  Permutation (moment loads) (moment loads') ->
  In x (eventPositions loads supports length) ->
  In x (eventPositions loads' supports length).
Proof.
  intros P1 P2 P3 P4 P5. unfold eventPositions, loadPositions. rewrite !in_app_iff.
  intros H. repeat (destruct H as [H|H]; [tauto|]); revert H.
  intros [H|[H|[H|[H|H]]]].
  - right; right; left. eapply Permutation_in; [apply Permutation_map, P1|exact H].
  - right; right; right; left.
    eapply Permutation_in; [apply Permutation_map, P2|exact H].
  - do 4 right; left. eapply Permutation_flat_map_In; eassumption.
  - do 5 right; left. eapply Permutation_flat_map_In; eassumption.
  - do 6 right. eapply Permutation_in; [apply Permutation_map, P5|exact H].
Qed.

(** C6, as the engine has it, in exact arithmetic, where no number is NaN:
    [generateEvents] returns a strictly increasing, duplicate-free list
    whose elements are exactly 0, the length, the support positions and the
    load positions (point, angled and moment x; UDL and UVL a and b); a pin_x
    or roller_x that is given is among them; the list is the same for any
    permutation of the load arrays, and taking it through the Set and the sort
    again returns it unchanged. *)
Theorem generateEvents_contract
  (loads : Loads Qc) (supports : Support Qc) (length : Qc) :
  let ev := generateEvents loads supports length in
  StronglySorted Qclt ev /\ NoDup ev /\
  (forall x, In x ev <-> In x (eventPositions loads supports length)) /\
  (forall p, stype supports = PinRoller ->
             pin_x supports = Some p \/ roller_x supports = Some p -> In p ev) /\
  (forall loads',
     Permutation (point loads) (point loads') ->
     Permutation (angled loads) (angled loads') ->
     Permutation (udl loads) (udl loads') ->
     Permutation (uvl loads) (uvl loads') ->
     Permutation (moment loads) (moment loads') ->
     generateEvents loads' supports length = ev) /\
  arraySort (fun a b => (a - b)%js) (addAll ev []) = ev.
Proof.
  intros ev. subst ev.
  pose proof (generateEvents_sorted loads supports length) as Hs.
  pose proof (generateEvents_In loads supports length) as Hin.
  repeat split.
  - exact Hs.
  - apply strict_sorted_NoDup, Hs.
  - apply Hin.
  - apply Hin.
  - intros p Hpin Hp. apply Hin. unfold eventPositions, supportPositions.
    rewrite Hpin. cbn [app In orElse].
    destruct Hp as [-> | ->]; cbn [orElse falsy QcNumber];
      destruct (Qc_eqb_spec p (Qc_ofZ 0)) as [->|]; tauto.
  - intros loads' P1 P2 P3 P4 P5.
    apply strict_sorted_unique; [apply generateEvents_sorted | exact Hs |].
    intros x. rewrite Hin, (generateEvents_In loads' supports length).
    split; apply eventPositions_perm; (assumption || now symmetry).
  - rewrite addAll_fresh by (apply strict_sorted_NoDup, Hs).
    cbn [app]. apply arraySort_fixed, Hs.
Qed.

Lemma last_indep (l : list Qc) d d' : l <> [] -> last l d = last l d'.
Proof.
  induction l as [|a l IH]; [congruence|]. intros _.
  destruct l as [|b l]; [reflexivity|].
  change (last (a :: b :: l) ?e) with (last (b :: l) e). apply IH. discriminate.
Qed.

Lemma last_map (f : Qc -> Qc) (l : list Qc) d : last (map f l) (f d) = f (last l d).
Proof.
  induction l as [|a l IH]; [reflexivity|]. destruct l as [|b l]; [reflexivity|].
  exact IH.
Qed.

Lemma chain_of_pairs (ev : list Qc) : forall segments x rest,
  ev = x :: rest -> StronglySorted Qclt ev -> map ends segments = pairs ev ->
  chain x segments (last ev x).
Proof.
  induction ev as [|a ev IH]; intros segments x rest E Hs Hp; [discriminate|].
  injection E as -> ->. destruct rest as [|b rest].
  - destruct segments; [reflexivity | discriminate].
  - rewrite pairs_cons in Hp. destruct segments as [|s segments]; [discriminate|].
    cbn [map] in Hp. injection Hp as Ha Hb Hp.
    inversion Hs as [|? ? Hs' Hf]; subst.
    cbn [chain]. split; [reflexivity|]. split.
    + inversion Hf; assumption.
    + change (last (seg_a s :: seg_b s :: rest) (seg_a s))
        with (last (seg_b s :: rest) (seg_a s)).
      rewrite (last_indep (seg_b s :: rest) (seg_a s) (seg_b s)) by discriminate.
      eapply IH; [reflexivity | exact Hs' | exact Hp].
Qed.

Lemma partitions_of_pairs (ev : list Qc) segments a b rest :
  ev = a :: b :: rest -> StronglySorted Qclt ev -> map ends segments = pairs ev ->
  partitions segments (hd 0%Qc ev) (last ev 0%Qc).
Proof.
  intros E Hs Hp. split.
  - subst ev. destruct segments; [discriminate | congruence].
  - rewrite (last_indep ev 0%Qc a) by (subst; discriminate).
    subst ev. eapply chain_of_pairs; eauto.
Qed.

Lemma lookup_length_pos u v : lookup LENGTH_CONVERSIONS u = Some v -> (0 < v)%Qc.
Proof.
  unfold LENGTH_CONVERSIONS. cbn [lookup].
  repeat (destruct (String.eqb _ u); [intros [= <-]; reflexivity|]). discriminate.
Qed.

Lemma lengthFactor_pos u : (0 < lengthFactor u)%Qc.
Proof.
  unfold lengthFactor, orElse.
  destruct (lookup LENGTH_CONVERSIONS u) as [v|] eqn:E; [|reflexivity].
  destruct (falsy v); [reflexivity|]. eapply lookup_length_pos, E.
Qed.

Lemma toBase_eq u x : toBase u x = (x * lengthFactor (u_length u))%Qc.
Proof.
  unfold toBase, convertLength. fold (lengthFactor (u_length u)).
  fold (lengthFactor (u_length BASE_UNITS)).
  rewrite lengthFactor_base. cbn [mul div QcNumber]. field. discriminate.
Qed.

Lemma toDisplay_eq u x : toDisplay u x = (x / lengthFactor (u_length u))%Qc.
Proof.
  unfold toDisplay, convertLength. fold (lengthFactor (u_length u)).
  fold (lengthFactor (u_length BASE_UNITS)).
  rewrite lengthFactor_base. cbn [mul div QcNumber]. field. apply lengthFactor_nonzero.
Qed.

Lemma toDisplay_toBase u x : toDisplay u (toBase u x) = x.
Proof. rewrite toDisplay_eq, toBase_eq. field. apply lengthFactor_nonzero. Qed.

Lemma toDisplay_0 u : toDisplay u 0%Qc = 0%Qc.
Proof. rewrite toDisplay_eq. field. apply lengthFactor_nonzero. Qed.

Lemma toBase_le u x y : (x <= y)%Qc -> (toBase u x <= toBase u y)%Qc.
Proof.
  intros H. rewrite !toBase_eq. apply Qcmult_le_compat_r; [exact H|].
  apply Qclt_le_weak, lengthFactor_pos.
Qed.

Lemma toBase_0 u : toBase u 0%Qc = 0%Qc.
Proof. rewrite toBase_eq. ring. Qed.

Lemma toDisplay_lt u x y : (x < y)%Qc -> (toDisplay u x < toDisplay u y)%Qc.
Proof.
  intros H. rewrite !toDisplay_eq. unfold Qcdiv.
  apply Qcmult_lt_compat_r; [|exact H].
  pose proof (lengthFactor_pos (u_length u)) as Hp.
  pose proof (lengthFactor_nonzero (u_length u)) as Hn.
  destruct (Qclt_le_dec 0 (/ lengthFactor (u_length u))) as [Hi|Hi]; [exact Hi|].
  exfalso.
  assert (H1 : (lengthFactor (u_length u) * / lengthFactor (u_length u) = 1)%Qc)
    by (apply Qcmult_inv_r, Hn).
  assert (H2 : (lengthFactor (u_length u) * / lengthFactor (u_length u) <= 0)%Qc).
  { rewrite <- (Qcmult_0_r (lengthFactor (u_length u))).
    rewrite !(Qcmult_comm (lengthFactor (u_length u))).
    apply Qcmult_le_compat_r; [exact Hi|]. now apply Qclt_le_weak. }
  rewrite H1 in H2. revert H2. apply Qclt_not_le. reflexivity.
Qed.

Lemma map_sorted (f : Qc -> Qc) l :
  (forall x y, (x < y)%Qc -> (f x < f y)%Qc) ->
  StronglySorted Qclt l -> StronglySorted Qclt (map f l).
Proof.
  intros Hf. induction 1 as [|x l Hl IH Hx]; cbn [map]; constructor; [exact IH|].
  rewrite Forall_forall in *. intros y Hy. apply in_map_iff in Hy.
  destruct Hy as [z [<- Hz]]. apply Hf, Hx, Hz.
Qed.

(** The least and the greatest element of a strictly increasing list. *)
Lemma sorted_hd (l : list Qc) m d :
  StronglySorted Qclt l -> In m l -> (forall x, In x l -> (m <= x)%Qc) -> hd d l = m.
Proof.
  intros Hs Hm Hle. destruct l as [|a l]; [destruct Hm|]. cbn [hd].
  destruct Hm as [->|Hm]; [reflexivity|].
  inversion Hs as [|? ? _ Hf]; subst. rewrite Forall_forall in Hf.
  specialize (Hf m Hm). specialize (Hle a (or_introl eq_refl)).
  exfalso. qc_to_q. lra.
Qed.

Lemma sorted_last (l : list Qc) m d :
  StronglySorted Qclt l -> In m l -> (forall x, In x l -> (x <= m)%Qc) -> last l d = m.
Proof.
  induction l as [|a l IH]; intros Hs Hm Hle; [destruct Hm|].
  inversion Hs as [|? ? Hs' Hf]; subst. rewrite Forall_forall in Hf.
  destruct l as [|b l].
  - destruct Hm as [->|[]]. reflexivity.
  - change (last (a :: b :: l) d) with (last (b :: l) d). apply IH; [exact Hs'| |].
    + destruct Hm as [<-|Hm]; [|exact Hm].
      specialize (Hf b (or_introl eq_refl)). specialize (Hle b (or_intror (or_introl eq_refl))).
      exfalso. qc_to_q. lra.
    + intros x Hx. apply Hle. now right.
Qed.

Lemma flat_map_map {A B} (g : A -> A) (f : A -> list B) (h : B -> B) (l : list A) :
  (forall a, f (g a) = map h (f a)) -> flat_map f (map g l) = map h (flat_map f l).
Proof.
  intros H. induction l as [|a l IH]; [reflexivity|].
  cbn [map flat_map]. now rewrite IH, H, map_app.
Qed.

Lemma loadPositions_base loads u :
  loadPositions (convertLoadsToBaseUnits loads u) = map (toBase u) (loadPositions loads).
Proof.
  unfold loadPositions, convertLoadsToBaseUnits. cbn [point angled udl uvl moment].
  rewrite !map_app, !map_map.
  rewrite (flat_map_map _ (fun load => [udl_a load; udl_b load]) (toBase u))
    by reflexivity.
  rewrite (flat_map_map _ (fun load => [uvl_a load; uvl_b load]) (toBase u))
    by reflexivity.
  reflexivity.
Qed.

Lemma eventPositions_eq (loads : Loads Qc) (supports : Support Qc) (length : Qc) :
  eventPositions loads supports length
  = [ofZ 0; length] ++ supportPositions supports length ++ loadPositions loads.
Proof. reflexivity. Qed.

Lemma length_positive (x : Qc) : leb x (ofZ 0) = false -> (0 < x)%Qc.
Proof.
  change (leb x (ofZ 0)) with (Qc_leb x (Qc_ofZ 0)). intros E.
  destruct (Qc_leb_spec x (Qc_ofZ 0)) as [|H]; [discriminate|].
  now apply Qcnot_le_lt.
Qed.

Lemma events_within (beamData : BeamData Qc) (supports : Support Qc) (loads : Loads Qc) :
  (0 < length beamData)%Qc ->
  withinBeam beamData supports loads ->
  let u := units beamData in
  forall x,
    In x (eventPositions (convertLoadsToBaseUnits loads u)
            (convertSupportsToBaseUnits supports (u_length u))
            (toBase u (length beamData))) ->
    (0 <= x)%Qc /\ (x <= toBase u (length beamData))%Qc.
Proof.
  intros Hlen Hin u x. change (@ofZ Qc QcNumber 0%Z) with 0%Qc in *.
  unfold withinBeam in Hin. rewrite Forall_app in Hin.
  destruct Hin as [Hsup Hloads]. rewrite Forall_forall in Hsup, Hloads.
  assert (Hb : forall p, (0 <= p)%Qc /\ (p <= length beamData)%Qc ->
                         (0 <= toBase u p)%Qc /\ (toBase u p <= toBase u (length beamData))%Qc).
  { intros p [H0 H1]. split; [|now apply toBase_le].
    rewrite <- (toBase_0 u). now apply toBase_le. }
  assert (H0 : (0 <= 0)%Qc /\ (0 <= length beamData)%Qc)
    by (split; [apply Qcle_refl | now apply Qclt_le_weak]).
  assert (HL : (0 <= length beamData)%Qc /\ (length beamData <= length beamData)%Qc)
    by (split; [now apply Qclt_le_weak | apply Qcle_refl]).
  assert (Hzero : (0 <= 0%Qc)%Qc /\ (0%Qc <= toBase u (length beamData))%Qc).
  { rewrite <- (toBase_0 u). apply (Hb _ H0). }
  assert (Hend : (0 <= toBase u (length beamData))%Qc
                 /\ (toBase u (length beamData) <= toBase u (length beamData))%Qc)
    by apply (Hb _ HL).
  rewrite eventPositions_eq, !in_app_iff. intros [Hx|[Hx|Hx]].
  - destruct Hx as [<-|[<-|[]]]; assumption.
  - unfold supportPositions, convertSupportsToBaseUnits in Hx.
    fold u in Hx. destruct (stype supports) eqn:Et; cbn [stype pin_x roller_x] in Hx.
    + fold (toBase u (orElse (pin_x supports) (0%Qc))) in Hx.
      fold (toBase u (orElse (roller_x supports) (0%Qc))) in Hx.
      assert (Hpin : forall p, pin_x supports = Some p ->
                (0 <= p)%Qc /\ (p <= length beamData)%Qc).
      { intros p Hp. apply Hsup. unfold givenSupportPositions. rewrite Et, Hp.
        now left. }
      assert (Hrol : forall p, roller_x supports = Some p ->
                (0 <= p)%Qc /\ (p <= length beamData)%Qc).
      { intros p Hp. apply Hsup. unfold givenSupportPositions. rewrite Et, Hp.
        apply in_or_app. right. now left. }
      assert (Hq : forall o,
                (forall p, o = Some p -> (0 <= p)%Qc /\ (p <= length beamData)%Qc) ->
                (0 <= orElse o (0%Qc))%Qc /\ (orElse o (0%Qc) <= length beamData)%Qc).
      { intros [p|] Ho; cbn [orElse]; [|exact H0].
        destruct (falsy p); [exact H0 | now apply Ho]. }
      destruct Hx as [<-|[<-|[]]]; cbn [orElse];
        match goal with |- context [falsy ?v] => destruct (falsy v) end;
        try assumption; apply Hb, Hq; assumption.
    + rewrite Et in Hx. destruct Hx as [<-|[]].
      unfold fixed_x_of. destruct (fixed_pos supports) as [[]|]; assumption.
  - rewrite (loadPositions_base loads u) in Hx. apply in_map_iff in Hx.
    destruct Hx as [p [<- Hp]]. apply Hb, Hloads, Hp.
Qed.

(** C8, as the engine has it, in exact arithmetic: in a valid result the
    shear segments, and equally the moment segments, partition the span from
    the smallest to the largest event with no gap and no overlap; that span
    is [0, length] when every load position and every given support position
    lies within [0, length].  (In binary64 the positions are taken to base
    units and back, and the span need not end at the length exactly.) *)
Theorem segments_partition_event_span
  (beamData : BeamData Qc) (supports : Support Qc) (loads : Loads Qc) :
  let result := calculateBeamAnalysis beamData supports loads in
  isValid result = true ->
  let lo := hd (0%Qc) (events result) in
  let hi := last (events result) (0%Qc) in
  partitions (V_segments result) lo hi /\
  partitions (M_segments result) lo hi /\
  (withinBeam beamData supports loads -> lo = 0%Qc /\ hi = length beamData).
Proof.
  intros result Hvalid. subst result. change (@ofZ Qc QcNumber 0%Z) with 0%Qc in *.
  destruct (valid_result _ _ _ Hvalid) as (Hlen & _ & ->). clear Hvalid.
  apply length_positive in Hlen. change (@ofZ Qc QcNumber 0%Z) with 0%Qc in *.
  set (u := units beamData) in *.
  fold (toBase u (length beamData)).
  set (baseLength := toBase u (length beamData)).
  set (baseLoads := convertLoadsToBaseUnits loads u).
  set (baseSupports := convertSupportsToBaseUnits supports (u_length u)).
  set (reactions := calculateReactions baseLoads baseSupports baseLength).
  pose proof (generateEvents_sorted baseLoads baseSupports baseLength) as Hs.
  pose proof (generateEvents_In baseLoads baseSupports baseLength) as Hin.
  set (ev := generateEvents baseLoads baseSupports baseLength) in *.
  cbn [events V_segments M_segments]. cbv zeta.
  change (fun x => convertLength x (u_length BASE_UNITS) (u_length u)) with (toDisplay u).
  assert (Hsd : StronglySorted Qclt (map (toDisplay u) ev))
    by (apply map_sorted; [apply toDisplay_lt | exact Hs]).
  assert (H0 : In (0%Qc) ev) by (apply Hin; rewrite eventPositions_eq; cbn; auto).
  assert (HL : In baseLength ev) by (apply Hin; rewrite eventPositions_eq; cbn; auto).
  assert (Hne : 0%Qc <> baseLength).
  { unfold baseLength. rewrite toBase_eq. intros E.
    pose proof (lengthFactor_pos (u_length u)) as Hf.
    assert (Hp : (0 < length beamData * lengthFactor (u_length u))%Qc).
    { rewrite <- (Qcmult_0_l (lengthFactor (u_length u))).
      now apply Qcmult_lt_compat_r. }
    rewrite <- E in Hp. revert Hp. apply Qcle_not_lt, Qcle_refl. }
  assert (Htwo : exists a b rest, ev = a :: b :: rest).
  { destruct ev as [|a [|b rest]]; [destruct H0 | | eauto].
    destruct H0 as [->|[]], HL as [HL|[]]. congruence. }
  destruct Htwo as (a & b & rest & Hev).
  assert (Hev' : map (toDisplay u) ev = toDisplay u a :: toDisplay u b :: map (toDisplay u) rest)
    by (rewrite Hev; reflexivity).
  split; [|split].
  - eapply partitions_of_pairs; [exact Hev' | exact Hsd |].
    rewrite display_ends, shear_ends, pairs_map. reflexivity.
  - eapply partitions_of_pairs; [exact Hev' | exact Hsd |].
    rewrite display_ends, moment_ends, pairs_map. reflexivity.
  - intros Hw.
    pose proof (events_within beamData supports loads Hlen Hw) as Hb.
    cbv zeta in Hb. fold u baseLength baseLoads baseSupports in Hb.
    assert (Hhd : hd (0%Qc) ev = 0%Qc).
    { apply sorted_hd; [exact Hs | exact H0 |]. intros x Hx. apply Hb, Hin, Hx. }
    assert (Hlast : last ev (0%Qc) = baseLength).
    { apply sorted_last; [exact Hs | exact HL |]. intros x Hx. apply Hb, Hin, Hx. }
    split.
    + rewrite Hev in *. cbn [map hd] in *. rewrite Hhd. apply toDisplay_0.
    + rewrite <- (toDisplay_0 u) at 1. rewrite last_map, Hlast.
      apply toDisplay_toBase.
Qed.

Lemma fold_left_total {A} (step : Qc -> A -> Qc) (g : A -> Qc) (l : list A) :
  (forall M x, step M x = (M + g x)%Qc) ->
  forall M0, fold_left step l M0 = (M0 + total g l)%Qc.
Proof.
  intros Hstep. induction l as [|x l IH]; intros M0; cbn [fold_left total fold_right].
  - ring.
  - rewrite IH, Hstep. fold (total g l). ring.
Qed.

Lemma shearStart_total (loads : Loads Qc) (reactions : list (Reaction Qc)) (a : Qc) :
  shearStart loads reactions a
  = (total (reactionShear a) reactions + total (pointShear a) (point loads)
     + total (angledShear a) (angled loads) + total (udlShear a) (udl loads)
     + total (uvlShear a) (uvl loads))%Qc.
Proof.
  unfold shearStart.
  rewrite (fold_left_total _ (uvlShear a)), (fold_left_total _ (udlShear a)),
    (fold_left_total _ (angledShear a)), (fold_left_total _ (pointShear a)),
    (fold_left_total _ (reactionShear a)).
  - qc_ops. ring.
  - intros M r. unfold reactionShear. qc_ops. by_cases; ring.
  - intros M l. unfold pointShear. qc_ops. by_cases; ring.
  - intros M l. unfold angledShear. qc_ops. by_cases; ring.
  - intros M l. unfold udlShear. qc_ops. by_cases; ring.
  - intros M l. unfold uvlShear, intensityAt.
    cbn [leb ltb add sub mul div ofZ QcNumber]. by_cases; ring.
Qed.

Lemma momentStart_total (loads : Loads Qc) (reactions : list (Reaction Qc)) (a : Qc) :
  momentStart loads reactions a
  = (total (reactionMoment a) reactions + total (pointMoment a) (point loads)
     + total (angledMoment a) (angled loads) + total (udlMoment a) (udl loads)
     + total (uvlMoment a) (uvl loads) + total (appliedMoment a) (moment loads))%Qc.
Proof.
  unfold momentStart.
  rewrite (fold_left_total _ (appliedMoment a)), (fold_left_total _ (uvlMoment a)),
    (fold_left_total _ (udlMoment a)),
    (fold_left_total _ (angledMoment a)), (fold_left_total _ (pointMoment a)),
    (fold_left_total _ (reactionMoment a)).
  - qc_ops. ring.
  - intros M r. unfold reactionMoment. qc_ops. by_cases; ring.
  - intros M l. unfold pointMoment. qc_ops. by_cases; ring.
  - intros M l. unfold angledMoment. qc_ops. by_cases; ring.
  - intros M l. unfold udlMoment. cbn [leb ltb add sub mul div ofZ QcNumber].
    by_cases; cbn [andb]; try ring.
  - intros M l. unfold uvlMoment, intensityAt.
    cbn [leb ltb add sub mul div ofZ QcNumber]. by_cases; cbn [andb]; try ring.
  - intros M l. unfold appliedMoment. qc_ops. by_cases; ring.
Qed.

Lemma point_step (a b : Qc) (l : PointLoad Qc) :
  (a < b)%Qc -> outside a b (pt_x l) ->
  pointMoment b l = (pointMoment a l + pointShear a l * (b - a))%Qc.
Proof.
  destruct l as [lbl x P]. unfold outside, pointMoment, pointShear. cbn [pt_x pt_P].
  intros Hab H. tri x a; tri x b; subst; cmp_cases; try ring; absurd_order.
Qed.

Lemma angled_step (a b : Qc) (l : AngledLoad Qc) :
  (a < b)%Qc -> outside a b (ang_x l) ->
  angledMoment b l = (angledMoment a l + angledShear a l * (b - a))%Qc.
Proof.
  unfold outside, angledMoment, angledShear. generalize (Py_of l).
  destruct l as [lbl x P th]. cbn [ang_x].
  intros Py Hab H. tri x a; tri x b; subst; cmp_cases; try ring; absurd_order.
Qed.

Lemma applied_step (a b : Qc) (l : MomentLoad Qc) :
  (a < b)%Qc -> outside a b (mom_x l) -> mom_x l <> b ->
  appliedMoment b l = appliedMoment a l.
Proof.
  destruct l as [lbl x M]. unfold outside, appliedMoment. cbn [mom_x mom_M].
  intros Hab H Hb. tri x a; tri x b; subst; cmp_cases; try ring; try congruence; absurd_order.
Qed.

Lemma reaction_step (a b : Qc) (r : Reaction Qc) :
  (a < b)%Qc ->
  (forall x, r_x r = Some x -> outside a b x) ->
  (r_type r = moment_reaction -> r_x r <> Some b) ->
  reactionMoment b r = (reactionMoment a r + reactionShear a r * (b - a))%Qc.
Proof.
  unfold outside, reactionMoment, reactionShear. generalize (orElse (r_R r) 0%Qc).
  generalize (orElse (r_M r) 0%Qc).
  destruct r as [ty at_ [x|] R M H]; cbn [r_type r_x]; intros vM vR Hab Hx Hb;
    destruct ty; try ring; specialize (Hx x eq_refl);
    tri x a; tri x b; subst; cmp_cases; try ring; try absurd_order.
  now destruct Hb.
Qed.

Lemma udl_step (a b : Qc) (l : UDLLoad Qc) :
  (a < b)%Qc ->
  (udl_a l < udl_b l)%Qc -> outside a b (udl_a l) -> outside a b (udl_b l) ->
  udlMoment b l
  = (udlMoment a l + udlShear a l * (b - a)
     + udlTerm a b l / Qc_ofZ 2 * (b - a) * (b - a))%Qc.
Proof.
  destruct l as [lbl la lb w].
  unfold outside, udlMoment, udlShear, udlTerm, udlActive. cbn [udl_a udl_b udl_w].
  intros Hab Hl Ha Hb. unfold Qclt, Qcle in *.
  assert (Hcases : ((lb <= a)%Q \/ (b <= la)%Q)
                   \/ (((la < a)%Q \/ la = a) /\ ((b < lb)%Q \/ b = lb))).
  { destruct Hb as [Hb|Hb]; [now left; left|].
    destruct Ha as [Ha|Ha]; [|now left; right].
    right. split; now apply Qc_le_cases. }
  clear Ha Hb.
  destruct Hcases as [[H|H]|[[H1|H1] [H2|H2]]]; subst; decide_cmp;
    qc_to_q; unfold inject_Z; field.
Qed.

Section UVL.

Variable l : UVLLoad Qc.

Hypothesis Hl : (uvl_a l < uvl_b l)%Q.

Lemma uvlShear_left (x : Qc) : (uvl_b l <= x)%Q ->
  uvlShear x l = (- ((uvl_w1 l + uvl_w2 l) * (uvl_b l - uvl_a l) / Qc_ofZ 2))%Qc.
Proof. intros H. unfold uvlShear. now decide_cmp. Qed.

Lemma uvlShear_mid (x : Qc) : (uvl_a l < x)%Q -> (x < uvl_b l)%Q ->
  uvlShear x l = (- forceLeftOf l x)%Qc.
Proof. intros H1 H2. unfold uvlShear. now decide_cmp. Qed.

Lemma uvlShear_right (x : Qc) : (x <= uvl_a l)%Q -> uvlShear x l = 0%Qc.
Proof. intros H. unfold uvlShear. now decide_cmp. Qed.

Lemma uvlMoment_left (x : Qc) : (uvl_b l <= x)%Q ->
  uvlMoment x l
  = (- ((uvl_w1 l + uvl_w2 l) * (uvl_b l - uvl_a l) / Qc_ofZ 2
        * (x - (uvl_a l + (uvl_b l - uvl_a l) * (uvl_w1 l + Qc_ofZ 2 * uvl_w2 l)
                          / (Qc_ofZ 3 * (uvl_w1 l + uvl_w2 l))))))%Qc.
Proof. intros H. unfold uvlMoment. now decide_cmp. Qed.

Lemma uvlMoment_mid (x : Qc) : (uvl_a l < x)%Q -> (x < uvl_b l)%Q ->
  uvlMoment x l = (- (forceLeftOf l x * (x - centroidLeftOf l x)))%Qc.
Proof. intros H1 H2. unfold uvlMoment. now decide_cmp. Qed.

Lemma uvlMoment_right (x : Qc) : (x <= uvl_a l)%Q -> uvlMoment x l = 0%Qc.
Proof. intros H. unfold uvlMoment. now decide_cmp. Qed.

Lemma uvlTerms_inactive (a b : Qc) : (uvl_b l <= a)%Q \/ (b <= uvl_a l)%Q ->
  uvlTerm1 a b l = 0%Qc /\ uvlTerm2 a b l = 0%Qc.
Proof.
  intros H. unfold uvlTerm1, uvlTerm2, uvlActive.
  destruct H; decide_cmp; try rewrite andb_false_r; now split.
Qed.

Lemma uvlTerms_active (a b : Qc) :
  (uvl_a l <= a)%Q -> (a < b)%Q -> (b <= uvl_b l)%Q ->
  uvlTerm1 a b l = (- intensityAt l a)%Qc
  /\ uvlTerm2 a b l
     = (- ((intensityAt l b - intensityAt l a) / (b - a)) / Qc_ofZ 2)%Qc.
Proof.
  intros H1 H2 H3. unfold uvlTerm1, uvlTerm2, uvlActive, uvlW1of, uvlW2of.
  cbn [max min add sub mul div QcNumber].
  decide_cmp.
  assert (Ha : (if Qc_ltb (uvl_a l) a then a else uvl_a l) = a).
  { destruct (Qc_ltb_spec (uvl_a l) a) as [|Hn]; [reflexivity|].
    apply Qc_is_canon. unfold Qclt in Hn. lra. }
  assert (Hb : (if Qc_ltb b (uvl_b l) then b else uvl_b l) = b).
  { destruct (Qc_ltb_spec b (uvl_b l)) as [|Hn]; [reflexivity|].
    apply Qc_is_canon. unfold Qclt in Hn. lra. }
  rewrite Ha, Hb. unfold intensityAt.
  split; f_equal; [|f_equal; f_equal; f_equal]; field;
    intros E; apply Qc_eq_Q in E; revert E; qc_unfold; rewrite ?Qred_correct; lra.
Qed.

End UVL.

(** The centroid formula in closed form: the moment about [y] of a trapezoid
    over [la, y] that goes from [w1] to [wy]. *)
Lemma trapezoid_moment (la y w1 wy : Qc) :
  (w1 + wy)%Qc <> 0%Qc ->
  ((w1 + wy) * (y - la) / Qc_ofZ 2
   * (y - (la + (y - la) * (w1 + Qc_ofZ 2 * wy) / (Qc_ofZ 3 * (w1 + wy))))
   = (y - la) * (y - la) * (Qc_ofZ 2 * w1 + wy) / Qc_ofZ 6)%Qc.
Proof.
  intros H. qc_to_q. unfold inject_Z in *. field. exact H.
Qed.

Lemma trapezoid_moment_about (la y w1 wy x : Qc) :
  (w1 + wy)%Qc <> 0%Qc ->
  ((w1 + wy) * (y - la) / Qc_ofZ 2
   * (x - (la + (y - la) * (w1 + Qc_ofZ 2 * wy) / (Qc_ofZ 3 * (w1 + wy))))
   = (w1 + wy) * (y - la) / Qc_ofZ 2 * (x - y)
     + (y - la) * (y - la) * (Qc_ofZ 2 * w1 + wy) / Qc_ofZ 6)%Qc.
Proof.
  intros H. rewrite <- (trapezoid_moment la y w1 wy H).
  generalize (la + (y - la) * (w1 + Qc_ofZ 2 * wy) / (Qc_ofZ 3 * (w1 + wy)))%Qc.
  intros c. ring.
Qed.

Lemma intensityAt_end (l : UVLLoad Qc) :
  (uvl_a l < uvl_b l)%Q -> intensityAt l (uvl_b l) = uvl_w2 l.
Proof.
  intros H. unfold intensityAt. field. intros E. apply Qc_eq_Q in E. revert E.
  qc_unfold. rewrite ?Qred_correct. lra.
Qed.

(** The intensity is linear in the position. *)
Lemma intensityAt_linear (l : UVLLoad Qc) (x y : Qc) :
  (uvl_a l < uvl_b l)%Q ->
  intensityAt l y
  = (intensityAt l x
     + (uvl_w2 l - uvl_w1 l) / (uvl_b l - uvl_a l) * (y - x))%Qc.
Proof.
  intros H. unfold intensityAt. field. intros E. apply Qc_eq_Q in E. revert E.
  qc_unfold. rewrite ?Qred_correct. lra.
Qed.

Lemma intensityAt_start (l : UVLLoad Qc) : intensityAt l (uvl_a l) = uvl_w1 l.
Proof.
  unfold intensityAt. unfold Qcdiv.
  replace (uvl_a l - uvl_a l)%Qc with 0%Qc by ring. ring.
Qed.

(** Inside its span, what a UVL adds to the shear and to the moment at [x]. *)
Lemma uvlShear_inside (l : UVLLoad Qc) (x : Qc) :
  (uvl_a l < uvl_b l)%Q -> (uvl_a l <= x)%Q -> (x <= uvl_b l)%Q ->
  uvlShear x l = (- ((uvl_w1 l + intensityAt l x) * (x - uvl_a l) / Qc_ofZ 2))%Qc.
Proof.
  intros Hl H1 H2.
  destruct (Qc_le_cases _ _ H1) as [H1'|E1].
  - destruct (Qc_le_cases _ _ H2) as [H2'|E2].
    + now rewrite uvlShear_mid.
    + subst x. rewrite uvlShear_left by lra. now rewrite intensityAt_end.
  - subst x. rewrite uvlShear_right by lra. unfold Qcdiv.
    replace (uvl_a l - uvl_a l)%Qc with 0%Qc by ring. ring.
Qed.

Lemma uvlMoment_inside (l : UVLLoad Qc) (x : Qc) :
  (uvl_a l < uvl_b l)%Q -> (uvl_a l <= x)%Q -> (x <= uvl_b l)%Q ->
  regularAt x l ->
  uvlMoment x l
  = (- ((x - uvl_a l) * (x - uvl_a l) * (Qc_ofZ 2 * uvl_w1 l + intensityAt l x)
        / Qc_ofZ 6))%Qc.
Proof.
  intros Hl H1 H2 R. unfold regularAt in R.
  destruct (Qc_le_cases _ _ H1) as [H1'|E1].
  - specialize (R H1'). destruct (Qc_le_cases _ _ H2) as [H2'|E2].
    + rewrite (Qc_ltb_true _ _ H2') in R.
      rewrite uvlMoment_mid by assumption. unfold forceLeftOf, centroidLeftOf.
      now rewrite trapezoid_moment.
    + subst x. rewrite Qc_ltb_false in R by lra. rewrite intensityAt_end in * by lra.
      rewrite uvlMoment_left by lra. now rewrite trapezoid_moment.
  - subst x. rewrite uvlMoment_right by lra. unfold Qcdiv.
    replace (uvl_a l - uvl_a l)%Qc with 0%Qc by ring. ring.
Qed.

(** Integrating a linear intensity [w1 + s (x - la)] twice, from [a] to [b]. *)
Lemma cubic_step (la a b w1 s : Qc) :
  (a < b)%Q ->
  let wa := (w1 + s * (a - la))%Qc in
  let wb := (w1 + s * (b - la))%Qc in
  (- ((b - la) * (b - la) * (Qc_ofZ 2 * w1 + wb) / Qc_ofZ 6)
   = - ((a - la) * (a - la) * (Qc_ofZ 2 * w1 + wa) / Qc_ofZ 6)
     + - ((w1 + wa) * (a - la) / Qc_ofZ 2) * (b - a)
     + - wa / Qc_ofZ 2 * (b - a) * (b - a)
     + - ((wb - wa) / (b - a)) / Qc_ofZ 2 / Qc_ofZ 3 * (b - a) * (b - a) * (b - a))%Qc.
Proof.
  intros Hab wa wb. subst wa wb. qc_to_q. unfold inject_Z in *. field. lra.
Qed.

Lemma intensityAt_slope (l : UVLLoad Qc) (x : Qc) :
  intensityAt l x
  = (uvl_w1 l + (uvl_w2 l - uvl_w1 l) / (uvl_b l - uvl_a l) * (x - uvl_a l))%Qc.
Proof. unfold intensityAt, Qcdiv. ring. Qed.

Lemma uvl_step (a b : Qc) (l : UVLLoad Qc) :
  (a < b)%Qc ->
  (uvl_a l < uvl_b l)%Qc -> outside a b (uvl_a l) -> outside a b (uvl_b l) ->
  regularAt a l -> regularAt b l ->
  uvlMoment b l
  = (uvlMoment a l + uvlShear a l * (b - a)
     + uvlTerm1 a b l / Qc_ofZ 2 * (b - a) * (b - a)
     + uvlTerm2 a b l / Qc_ofZ 3 * (b - a) * (b - a) * (b - a))%Qc.
Proof.
  unfold outside. intros Hab Hl Ha Hb Ra Rb. unfold Qclt, Qcle in *.
  assert (Hcases : ((uvl_b l <= a)%Q \/ (b <= uvl_a l)%Q)
                   \/ ((uvl_a l <= a)%Q /\ (b <= uvl_b l)%Q)).
  { destruct Hb as [Hb|Hb]; [now left; left|].
    destruct Ha as [Ha|Ha]; [now right | now left; right]. }
  clear Ha Hb. destruct Hcases as [H|[H1 H2]].
  - destruct (uvlTerms_inactive l a b H) as [-> ->].
    destruct H as [H|H].
    + rewrite !uvlMoment_left, uvlShear_left by lra.
      generalize (uvl_a l + (uvl_b l - uvl_a l) * (uvl_w1 l + Qc_ofZ 2 * uvl_w2 l)
                            / (Qc_ofZ 3 * (uvl_w1 l + uvl_w2 l)))%Qc.
      intros c. unfold Qcdiv. ring.
    + rewrite !uvlMoment_right, uvlShear_right by lra. unfold Qcdiv. ring.
  - destruct (uvlTerms_active l Hl a b H1 Hab H2) as [-> ->].
    rewrite !uvlMoment_inside, uvlShear_inside by (assumption || lra).
    rewrite (intensityAt_slope l a), (intensityAt_slope l b).
    apply cubic_step, Hab.
Qed.

Lemma orElse_Some_0 (v : Qc) : orElse (Some v) 0%Qc = v.
Proof.
  unfold orElse. cbn [falsy QcNumber].
  destruct (Qc_eqb_spec v (Qc_ofZ 0)) as [->|]; reflexivity.
Qed.

(** Summing the steps of the loads of one array. *)
Lemma total_step {A} (mb ma v t1 t2 : A -> Qc) (d : Qc) (l : list A) :
  (forall x, In x l ->
     mb x = (ma x + v x * d + t1 x / Qc_ofZ 2 * d * d + t2 x / Qc_ofZ 3 * d * d * d)%Qc) ->
  total mb l
  = (total ma l + total v l * d + total t1 l / Qc_ofZ 2 * d * d
     + total t2 l / Qc_ofZ 3 * d * d * d)%Qc.
Proof.
  induction l as [|x l IH]; intros H; cbn [total fold_right].
  - unfold Qcdiv. ring.
  - fold (total mb l) (total ma l) (total v l) (total t1 l) (total t2 l).
    rewrite IH by (intros y Hy; apply H; now right).
    rewrite (H x) by now left. unfold Qcdiv. ring.
Qed.

Lemma total_zero {A} (l : list A) : total (@zeroTerm A) l = 0%Qc.
Proof.
  induction l as [|x l IH]; [reflexivity|]. cbn [total fold_right].
  fold (total (@zeroTerm A) l). rewrite IH. unfold zeroTerm. ring.
Qed.

Lemma total_cons {A} (g : A -> Qc) (x : A) (l : list A) :
  total g (x :: l) = (g x + total g l)%Qc.
Proof. reflexivity. Qed.

Lemma total_filter {A} (act : A -> bool) (g : A -> Qc) (l : list A) :
  total (fun x => if act x then g x else 0%Qc) l = total g (filter act l).
Proof.
  induction l as [|x l IH]; [reflexivity|]. cbn [filter]. rewrite total_cons, IH.
  destruct (act x); [now rewrite total_cons | ring].
Qed.

(** The classification loops only look at the active loads. *)
Lemma checkUDL_filter (a b : Qc) (l : list (UDLLoad Qc)) : forall st,
  fold_left (checkUDL a b) l st
  = fold_left (checkUDL a b) (filter (udlActive a b) l) st.
Proof.
  induction l as [|x l IH]; intros st; [reflexivity|]. cbn [fold_left filter].
  unfold checkUDL at 2. fold (udlActive a b x).
  change (ltb (udl_a x) b && ltb a (udl_b x)) with (udlActive a b x).
  destruct (udlActive a b x) eqn:E; cbn [fold_left]; rewrite IH; [|reflexivity].
  f_equal. unfold checkUDL.
  change (ltb (udl_a x) b && ltb a (udl_b x)) with (udlActive a b x). now rewrite E.
Qed.

Lemma checkUVL_filter (a b : Qc) (l : list (UVLLoad Qc)) : forall st,
  fold_left (checkUVL a b) l st
  = fold_left (checkUVL a b) (filter (uvlActive a b) l) st.
Proof.
  induction l as [|x l IH]; intros st; [reflexivity|]. cbn [fold_left filter].
  unfold checkUVL at 2.
  change (ltb (uvl_a x) b && ltb a (uvl_b x)) with (uvlActive a b x).
  destruct (uvlActive a b x) eqn:E; cbn [fold_left]; rewrite IH; [|reflexivity].
  f_equal. unfold checkUVL.
  change (ltb (uvl_a x) b && ltb a (uvl_b x)) with (uvlActive a b x). now rewrite E.
Qed.

(** The end value of the moment segment over [a, b], when at most one
    distributed load is active there. *)
Lemma momentSegment_end (loads : Loads Qc) (reactions : list (Reaction Qc)) (a b : Qc) :
  (List.length (filter (udlActive a b) (udl loads))
   + List.length (filter (uvlActive a b) (uvl loads)) <= 1)%nat ->
  M_b (momentSegment loads reactions a b (shearSegment loads reactions a b))
  = Some (momentStart loads reactions a + shearStart loads reactions a * (b - a)
          + (total (udlTerm a b) (udl loads) + total (uvlTerm1 a b) (uvl loads))
            / Qc_ofZ 2 * (b - a) * (b - a)
          + total (uvlTerm2 a b) (uvl loads) / Qc_ofZ 3 * (b - a) * (b - a) * (b - a))%Qc.
Proof.
  intros Hcount.
  unfold udlTerm, uvlTerm1, uvlTerm2. rewrite !total_filter.
  unfold momentSegment, shearSegment, classify, coeffOr0.
  change (@ofZ Qc QcNumber 0%Z) with 0%Qc.
  rewrite checkUDL_filter, checkUVL_filter.
  destruct (filter (udlActive a b) (udl loads)) as [|u [|u' us]] eqn:Eu;
    destruct (filter (uvlActive a b) (uvl loads)) as [|v [|v' vs]] eqn:Ev;
    cbn [List.length] in Hcount; try lia; clear Hcount.
  - cbn [fold_left noActive shearCoeffs hasUVL hasUDL segmentType seg_type V_a coeffs
         M_b idx nth total fold_right].
    rewrite orElse_Some_0. qc_ops. f_equal. unfold Qcdiv. ring.
  - assert (Hv : uvlActive a b v = true).
    { assert (In v (filter (uvlActive a b) (uvl loads))) by (rewrite Ev; now left).
      now apply filter_In in H. }
    unfold uvlActive in Hv. cbn [fold_left noActive]. unfold checkUVL.
    change (ltb (uvl_a v) b && ltb a (uvl_b v)) with (Qc_ltb (uvl_a v) b && Qc_ltb a (uvl_b v)).
    rewrite Hv.
    cbn [shearCoeffs hasUVL hasUDL segmentType seg_type V_a coeffs M_b idx nth
         total fold_right uvlW1 uvlW2 coeffOr0 nth_error].
    rewrite !orElse_Some_0. fold (uvlW1of a v) (uvlW2of b v).
    qc_ops. f_equal. unfold Qcdiv. ring.
  - assert (Hu : udlActive a b u = true).
    { assert (In u (filter (udlActive a b) (udl loads))) by (rewrite Eu; now left).
      now apply filter_In in H. }
    unfold udlActive in Hu. cbn [fold_left noActive]. unfold checkUDL.
    change (ltb (udl_a u) b && ltb a (udl_b u)) with (Qc_ltb (udl_a u) b && Qc_ltb a (udl_b u)).
    rewrite Hu.
    cbn [shearCoeffs hasUVL hasUDL segmentType seg_type V_a coeffs M_b idx nth
         total fold_right udlRate coeffOr0 nth_error noActive].
    rewrite !orElse_Some_0.
    qc_ops. f_equal. unfold Qcdiv. ring.
Qed.

Lemma active_covers (a b : Qc) (s : Qc * Qc) :
  outside a b (fst s) -> outside a b (snd s) -> spanActive a b s = true ->
  (fst s <= a)%Q /\ (b <= snd s)%Q.
Proof.
  unfold outside, spanActive. intros H1 H2 H. apply andb_prop in H.
  destruct H as [Ha Hb].
  destruct (Qc_ltb_spec (fst s) b); [|discriminate].
  destruct (Qc_ltb_spec a (snd s)); [|discriminate].
  unfold Qclt, Qcle in *. split; [destruct H1 | destruct H2]; lra.
Qed.

Lemma one_active_span (a b : Qc) (l : list (Qc * Qc)) :
  (a < b)%Qc -> ForallOrdPairs apart l ->
  Forall (fun s => outside a b (fst s) /\ outside a b (snd s)) l ->
  (List.length (filter (spanActive a b) l) <= 1)%nat.
Proof.
  intros Hab Hp. induction Hp as [|x l Hx Hp IH]; intros Ho; [cbn; lia|].
  inversion Ho as [|? ? [Hx1 Hx2] Ho']; subst. specialize (IH Ho').
  cbn [filter]. destruct (spanActive a b x) eqn:Ex; [|exact IH].
  assert (Hnone : filter (spanActive a b) l = []).
  { clear IH Ho. induction l as [|y l IHl]; [reflexivity|].
    inversion Hx as [|? ? Hxy Hx']; inversion Ho' as [|? ? [Hy1 Hy2] Ho'']; subst.
    inversion Hp as [|? ? _ Hp']; subst.
    cbn [filter]. destruct (spanActive a b y) eqn:Ey.
    - exfalso. destruct (active_covers a b x Hx1 Hx2 Ex) as [X1 X2].
      destruct (active_covers a b y Hy1 Hy2 Ey) as [Y1 Y2].
      unfold apart, Qclt, Qcle in *. destruct Hxy; lra.
    - apply IHl; assumption. }
  rewrite Hnone. cbn. lia.
Qed.

Lemma filter_map_length {A B} (f : A -> B) (p : B -> bool) (l : list A) :
  List.length (filter p (map f l)) = List.length (filter (fun x => p (f x)) l).
Proof.
  induction l as [|x l IH]; [reflexivity|]. cbn [map filter].
  destruct (p (f x)); cbn [List.length]; now rewrite IH.
Qed.

Lemma one_active_load (loads : Loads Qc) (a b : Qc) :
  (a < b)%Qc -> ForallOrdPairs apart (spans loads) ->
  Forall (fun s => outside a b (fst s) /\ outside a b (snd s)) (spans loads) ->
  (List.length (filter (udlActive a b) (udl loads))
   + List.length (filter (uvlActive a b) (uvl loads)) <= 1)%nat.
Proof.
  intros Hab Hp Ho. pose proof (one_active_span a b _ Hab Hp Ho) as H.
  unfold spans in H. rewrite filter_app, length_app, !filter_map_length in H.
  exact H.
Qed.

(** Consecutive events. *)
Lemma consecutive_events (ev : list Qc) : forall i a b,
  StronglySorted Qclt ev ->
  nth_error ev i = Some a -> nth_error ev (Datatypes.S i) = Some b ->
  (a < b)%Qc /\ forall p, In p ev -> outside a b p.
Proof.
  induction ev as [|x ev IH]; intros i a b Hs Ha Hb; [destruct i; discriminate|].
  inversion Hs as [|? ? Hs' Hx]; subst. rewrite Forall_forall in Hx.
  destruct i as [|i].
  - cbn in Ha, Hb. injection Ha as ->. destruct ev as [|y ev]; [discriminate|].
    cbn in Hb. injection Hb as ->. split; [apply Hx; now left|].
    intros p [<-|[<-|Hp]]; [left; apply Qcle_refl | right; apply Qcle_refl|].
    right. inversion Hs' as [|? ? _ Hy]; subst. rewrite Forall_forall in Hy.
    apply Qclt_le_weak, Hy, Hp.
  - cbn in Ha, Hb. destruct (IH i a b Hs' Ha Hb) as [Hab Ho]. split; [exact Hab|].
    intros p [<-|Hp]; [|now apply Ho].
    left. apply Qclt_le_weak, Hx. eapply nth_error_In, Ha.
Qed.

Lemma nth_momentSegmentsOf (loads : Loads Qc) (reactions : list (Reaction Qc))
  (ev : list Qc) : forall i s,
  nth_error (momentSegmentsOf loads reactions ev) i = Some s ->
  exists a b, nth_error ev i = Some a /\ nth_error ev (Datatypes.S i) = Some b /\
    s = momentSegment loads reactions a b (shearSegment loads reactions a b).
Proof.
  induction ev as [|x ev IH]; intros i s H; [destruct i; discriminate|].
  destruct ev as [|y ev]; [destruct i; discriminate|].
  rewrite momentSegmentsOf_cons in H. destruct i as [|i].
  - cbn in H. injection H as <-. exists x, y. auto.
  - cbn [nth_error] in H. destruct (IH i s H) as (a & b & Ha & Hb & ->).
    exists a, b. auto.
Qed.

Lemma momentSegment_start (loads : Loads Qc) (reactions : list (Reaction Qc))
  (a b : Qc) (V : DiagramSegment Qc) :
  M_a (momentSegment loads reactions a b V) = Some (momentStart loads reactions a)
  /\ seg_a (momentSegment loads reactions a b V) = a
  /\ seg_b (momentSegment loads reactions a b V) = b.
Proof. unfold momentSegment. destruct (seg_type V); auto. Qed.

Lemma spans_In_udl (loads : Loads Qc) (l : UDLLoad Qc) :
  In l (udl loads) -> In (udl_a l, udl_b l) (spans loads).
Proof.
  intros H. unfold spans. apply in_or_app. left.
  apply in_map_iff. exists l. auto.
Qed.

Lemma spans_In_uvl (loads : Loads Qc) (l : UVLLoad Qc) :
  In l (uvl loads) -> In (uvl_a l, uvl_b l) (spans loads).
Proof.
  intros H. unfold spans. apply in_or_app. right.
  apply in_map_iff. exists l. auto.
Qed.

Lemma spans_positions (loads : Loads Qc) (sp : Qc * Qc) :
  In sp (spans loads) ->
  In (fst sp) (loadPositions loads) /\ In (snd sp) (loadPositions loads).
Proof.
  unfold spans, loadPositions. rewrite !in_app_iff, !in_map_iff, !in_flat_map.
  intros [[l [<- Hl]]|[l [<- Hl]]]; cbn [fst snd].
  - split; right; right; left; exists l; cbn; auto.
  - split; right; right; right; left; exists l; cbn; auto.
Qed.

Lemma moment_continuous_between_events
  (loads : Loads Qc) (reactions : list (Reaction Qc)) (ev : list Qc)
  (i : nat) (s s' : DiagramSegment Qc) :
  StronglySorted Qclt ev ->
  (forall p, In p (loadPositions loads) -> In p ev) ->
  (forall r x, In r reactions -> r_x r = Some x -> In x ev) ->
  Forall (fun sp => (fst sp < snd sp)%Qc) (spans loads) ->
  ForallOrdPairs apart (spans loads) ->
  nth_error (momentSegmentsOf loads reactions ev) i = Some s ->
  nth_error (momentSegmentsOf loads reactions ev) (Datatypes.S i) = Some s' ->
  (forall m, In m (moment loads) -> mom_x m <> seg_b s) ->
  (forall r, In r reactions -> r_type r = moment_reaction -> r_x r <> Some (seg_b s)) ->
  (forall l, In l (uvl loads) -> regularAt (seg_a s) l /\ regularAt (seg_b s) l) ->
  M_b s = M_a s'.
Proof.
  intros Hs Hloads Hreact Hwf Hap Hi Hi' Hmom Hmr Hreg.
  destruct (nth_momentSegmentsOf _ _ _ _ _ Hi) as (a & b & Ha & Hb & ->).
  destruct (nth_momentSegmentsOf _ _ _ _ _ Hi') as (b' & c & Hb' & Hc & ->).
  rewrite Hb in Hb'. injection Hb' as <-.
  destruct (consecutive_events ev i a b Hs Ha Hb) as [Hab Hout].
  destruct (momentSegment_start loads reactions a b (shearSegment loads reactions a b))
    as (_ & Esa & Esb).
  rewrite Esa, Esb in *. clear Esa Esb.
  destruct (momentSegment_start loads reactions b c (shearSegment loads reactions b c))
    as (-> & _ & _).
  assert (Hpos : forall p, In p (loadPositions loads) -> outside a b p)
    by (intros p Hp; apply Hout, Hloads, Hp).
  rewrite Forall_forall in Hwf.
  rewrite momentSegment_end.
  2:{ apply one_active_load; [exact Hab | exact Hap |].
      apply Forall_forall. intros sp Hsp.
      destruct (spans_positions loads sp Hsp). split; now apply Hpos. }
  f_equal. rewrite (momentStart_total loads reactions b), (momentStart_total loads reactions a),
    shearStart_total.
  rewrite (total_step (reactionMoment b) (reactionMoment a) (reactionShear a)
             (@zeroTerm _) (@zeroTerm _) (b - a)%Qc reactions).
  2:{ intros r Hr. rewrite (reaction_step a b r Hab).
      - unfold zeroTerm, Qcdiv. ring.
      - intros x Hx. eapply Hout, Hreact; eassumption.
      - now apply Hmr. }
  rewrite (total_step (pointMoment b) (pointMoment a) (pointShear a)
             (@zeroTerm _) (@zeroTerm _) (b - a)%Qc (point loads)).
  2:{ intros l Hl. rewrite (point_step a b l Hab).
      - unfold zeroTerm, Qcdiv. ring.
      - apply Hpos. unfold loadPositions. apply in_or_app. left. now apply in_map. }
  rewrite (total_step (angledMoment b) (angledMoment a) (angledShear a)
             (@zeroTerm _) (@zeroTerm _) (b - a)%Qc (angled loads)).
  2:{ intros l Hl. rewrite (angled_step a b l Hab).
      - unfold zeroTerm, Qcdiv. ring.
      - apply Hpos. unfold loadPositions. apply in_or_app. right.
        apply in_or_app. left. now apply in_map. }
  rewrite (total_step (udlMoment b) (udlMoment a) (udlShear a)
             (udlTerm a b) (@zeroTerm _) (b - a)%Qc (udl loads)).
  2:{ intros l Hl. pose proof (spans_In_udl loads l Hl) as Hsp.
      destruct (spans_positions loads _ Hsp) as [P1 P2].
      rewrite (udl_step a b l Hab (Hwf _ Hsp) (Hpos _ P1) (Hpos _ P2)).
      unfold zeroTerm, Qcdiv. ring. }
  rewrite (total_step (uvlMoment b) (uvlMoment a) (uvlShear a)
             (uvlTerm1 a b) (uvlTerm2 a b) (b - a)%Qc (uvl loads)).
  2:{ intros l Hl. pose proof (spans_In_uvl loads l Hl) as Hsp.
      destruct (spans_positions loads _ Hsp) as [P1 P2].
      destruct (Hreg l Hl) as [Ra Rb].
      apply (uvl_step a b l Hab (Hwf _ Hsp) (Hpos _ P1) (Hpos _ P2) Ra Rb). }
  rewrite (total_step (appliedMoment b) (appliedMoment a) (@zeroTerm _)
             (@zeroTerm _) (@zeroTerm _) (b - a)%Qc (moment loads)).
  2:{ intros l Hl. rewrite (applied_step a b l Hab).
      - unfold zeroTerm, Qcdiv. ring.
      - apply Hpos. unfold loadPositions. do 4 (apply in_or_app; right). now apply in_map.
      - now apply Hmom. }
  rewrite !total_zero. unfold Qcdiv. ring.
Qed.

Lemma toBase_toDisplay u x : toBase u (toDisplay u x) = x.
Proof. rewrite toDisplay_eq, toBase_eq. field. apply lengthFactor_nonzero. Qed.

Lemma toBase_lt u x y : (x < y)%Qc -> (toBase u x < toBase u y)%Qc.
Proof.
  intros H. rewrite !toBase_eq. apply Qcmult_lt_compat_r; [|exact H].
  apply lengthFactor_pos.
Qed.

Lemma toBase_lt_iff u x y : (toBase u x < toBase u y)%Qc <-> (x < y)%Qc.
Proof.
  split; [|apply toBase_lt]. intros H. apply (toDisplay_lt u) in H.
  now rewrite !toDisplay_toBase in H.
Qed.

(** Reactions sit at the support positions. *)
Lemma reactions_at_supports (loads : Loads Qc) (supports : Support Qc) (length : Qc) r x :
  In r (calculateReactions loads supports length) -> r_x r = Some x ->
  In x (supportPositions supports length).
Proof.
  unfold calculateReactions, supportPositions, horizontalReaction.
  destruct (stype supports); cbn [app In];
    match goal with |- context [if ?c then _ else _] => destruct c end;
    cbn [app In]; intros H Hx;
    repeat (destruct H as [<-|H]; [cbn [r_x] in Hx; try discriminate;
                                   injection Hx as <-; cbn; auto|]);
    destruct H.
Qed.

(** The spans in base units. *)
Lemma spans_base (loads : Loads Qc) u :
  spans (convertLoadsToBaseUnits loads u)
  = map (fun sp => (toBase u (fst sp), toBase u (snd sp))) (spans loads).
Proof.
  unfold spans, convertLoadsToBaseUnits. cbn [udl uvl].
  rewrite map_app, !map_map. reflexivity.
Qed.

Lemma ForallOrdPairs_map {A B} (f : A -> B) (R : A -> A -> Prop) (R' : B -> B -> Prop)
  (l : list A) :
  (forall x y, R x y -> R' (f x) (f y)) ->
  ForallOrdPairs R l -> ForallOrdPairs R' (map f l).
Proof.
  intros H. induction 1 as [|x l Hx Hl IH]; cbn [map]; constructor; [|exact IH].
  rewrite Forall_forall in *. intros y Hy. apply in_map_iff in Hy.
  destruct Hy as [z [<- Hz]]. apply H, Hx, Hz.
Qed.

Lemma uvl_base (loads : Loads Qc) u :
  uvl (convertLoadsToBaseUnits loads u) = map (uvlToBase u) (uvl loads).
Proof. reflexivity. Qed.

Lemma intensity_to_base u (w : Qc) :
  (convertForce w (u_force u) (u_force BASE_UNITS)
   / convertLength (ofZ 1) (u_length u) (u_length BASE_UNITS))%js
  = (w * intensityFactor u)%Qc.
Proof.
  rewrite convertForce_to_base. fold (toBase u (ofZ 1)). rewrite toBase_eq.
  unfold intensityFactor. cbn [div QcNumber]. change (ofZ 1) with 1%Qc.
  field. apply lengthFactor_nonzero.
Qed.

Lemma intensityFactor_nonzero u : intensityFactor u <> 0%Qc.
Proof.
  unfold intensityFactor. intros H.
  apply (forceFactor_nonzero (u_force u)).
  replace (forceFactor (u_force u))
    with (forceFactor (u_force u) / lengthFactor (u_length u)
          * lengthFactor (u_length u))%Qc
    by (field; apply lengthFactor_nonzero).
  rewrite H. ring.
Qed.

Lemma intensityAt_base u (l : UVLLoad Qc) (y : Qc) :
  (uvl_a l < uvl_b l)%Qc ->
  intensityAt (uvlToBase u l) (toBase u y) = (intensityAt l y * intensityFactor u)%Qc.
Proof.
  intros Hl. unfold intensityAt, uvlToBase. cbn [uvl_a uvl_b uvl_w1 uvl_w2].
  rewrite !intensity_to_base, !toBase_eq.
  assert (Hd : (uvl_b l - uvl_a l)%Qc <> 0%Qc).
  { intros E. unfold Qclt in Hl. qc_to_q. lra. }
  assert (Hd' : (uvl_b l * lengthFactor (u_length u)
                 - uvl_a l * lengthFactor (u_length u))%Qc <> 0%Qc).
  { intros E.
    assert (E' : ((uvl_b l - uvl_a l) * lengthFactor (u_length u) = 0)%Qc)
      by (rewrite <- E; ring).
    apply Qcmult_integral in E'. destruct E' as [E'|E']; [contradiction|].
    now apply lengthFactor_nonzero in E'. }
  field. split; assumption.
Qed.

Lemma regularAt_base u (l : UVLLoad Qc) (x : Qc) :
  (uvl_a l < uvl_b l)%Qc -> regularAt x l -> regularAt (toBase u x) (uvlToBase u l).
Proof.
  intros Hl R. unfold regularAt in *.
  change (uvl_a (uvlToBase u l)) with (toBase u (uvl_a l)).
  change (uvl_b (uvlToBase u l)) with (toBase u (uvl_b l)).
  change (uvl_w1 (uvlToBase u l))
    with (convertForce (uvl_w1 l) (u_force u) (u_force BASE_UNITS)
          / convertLength (ofZ 1) (u_length u) (u_length BASE_UNITS))%js.
  intros Hx. apply toBase_lt_iff in Hx. specialize (R Hx).
  assert (Hif : (if Qc_ltb (toBase u x) (toBase u (uvl_b l))
                 then toBase u x else toBase u (uvl_b l))
                = toBase u (if Qc_ltb x (uvl_b l) then x else uvl_b l)).
  { destruct (Qc_ltb_spec x (uvl_b l)) as [H|H].
    - rewrite Qc_ltb_true; [reflexivity | now apply toBase_lt].
    - destruct (Qc_ltb_spec (toBase u x) (toBase u (uvl_b l))) as [H'|]; [|reflexivity].
      apply toBase_lt_iff in H'. contradiction. }
  rewrite Hif, intensityAt_base, intensity_to_base by exact Hl.
  intros E. apply R.
  assert (E' : ((uvl_w1 l + intensityAt l (if Qc_ltb x (uvl_b l) then x else uvl_b l))
                * intensityFactor u = 0)%Qc) by (rewrite <- E; ring).
  apply Qcmult_integral in E'. destruct E' as [E'|E']; [exact E'|].
  now apply intensityFactor_nonzero in E'.
Qed.

Lemma display_segment_nth (segments : list (DiagramSegment Qc)) u i s :
  nth_error (convertSegmentsToDisplayUnits segments u) i = Some s ->
  exists s0, nth_error segments i = Some s0 /\
    seg_a s = toDisplay u (seg_a s0) /\ seg_b s = toDisplay u (seg_b s0) /\
    M_a s = option_map (fun v => (convertForce v (u_force BASE_UNITS) (u_force u)
                                  * convertLength (ofZ 1) (u_length BASE_UNITS) (u_length u))%js)
              (M_a s0) /\
    M_b s = option_map (fun v => (convertForce v (u_force BASE_UNITS) (u_force u)
                                  * convertLength (ofZ 1) (u_length BASE_UNITS) (u_length u))%js)
              (M_b s0).
Proof.
  unfold convertSegmentsToDisplayUnits. rewrite nth_error_map.
  destruct (nth_error segments i) as [s0|]; [|discriminate].
  cbn [option_map]. intros [= <-]. exists s0. cbn. auto.
Qed.

(** C3, as the engine has it, in exact arithmetic: in a valid result, for
    consecutive moment segments [s], [s'], M_b of [s] equals M_a of [s'] when
    no applied moment and no moment reaction lies at their shared boundary,
    the distributed loads have a < b and no two of them overlap, and for every
    UVL the divisor of the centroid formula is not zero at the starts of [s]
    and [s'].  (In binary64 the two values are rounded sums of different
    terms and need not be equal.) *)
Theorem moment_continuous_without_overlap
  (beamData : BeamData Qc) (supports : Support Qc) (loads : Loads Qc)
  (i : nat) (s s' : DiagramSegment Qc) :
  let result := calculateBeamAnalysis beamData supports loads in
  isValid result = true ->
  nth_error (M_segments result) i = Some s ->
  nth_error (M_segments result) (Datatypes.S i) = Some s' ->
  (forall m, In m (moment loads) -> mom_x m <> seg_b s) ->
  (forall r, In r (reactions result) -> r_type r = moment_reaction ->
             r_x r <> Some (seg_b s)) ->
  Forall (fun sp => (fst sp < snd sp)%Qc) (spans loads) ->
  ForallOrdPairs apart (spans loads) ->
  (forall l, In l (uvl loads) -> regularAt (seg_a s) l /\ regularAt (seg_b s) l) ->
  M_b s = M_a s'.
Proof.
  intros result Hvalid. subst result.
  destruct (valid_result _ _ _ Hvalid) as (_ & _ & ->). clear Hvalid.
  set (u := units beamData).
  fold (toBase u (length beamData)).
  set (baseLength := toBase u (length beamData)).
  set (baseLoads := convertLoadsToBaseUnits loads u).
  set (baseSupports := convertSupportsToBaseUnits supports (u_length u)).
  set (reacts := calculateReactions baseLoads baseSupports baseLength).
  set (ev := generateEvents baseLoads baseSupports baseLength).
  cbn [M_segments reactions].
  intros Hi Hi' Hmom Hmr Hwf Hap Hreg.
  destruct (display_segment_nth _ _ _ _ Hi) as (s0 & Hs0 & Ea & Eb & _ & ->).
  destruct (display_segment_nth _ _ _ _ Hi') as (s0' & Hs0' & _ & _ & -> & _).
  f_equal.
  assert (Hin : forall x, In x ev <-> In x (eventPositions baseLoads baseSupports baseLength))
    by apply generateEvents_In.
  apply (moment_continuous_between_events baseLoads reacts ev i s0 s0').
  - apply generateEvents_sorted.
  - intros p Hp. apply Hin. rewrite eventPositions_eq.
    apply in_or_app. right. apply in_or_app. now right.
  - intros r x Hr Hx. apply Hin. rewrite eventPositions_eq.
    apply in_or_app. right. apply in_or_app. left.
    eapply reactions_at_supports; eassumption.
  - unfold baseLoads. rewrite spans_base. apply Forall_map.
    eapply Forall_impl; [|exact Hwf]. intros sp H. cbn [fst snd].
    now apply toBase_lt.
  - unfold baseLoads. rewrite spans_base.
    eapply ForallOrdPairs_map; [|exact Hap].
    intros x y [H|H]; [left | right]; cbn [fst snd]; now apply toBase_le.
  - exact Hs0.
  - exact Hs0'.
  - intros m Hm E. unfold baseLoads, convertLoadsToBaseUnits in Hm. cbn [moment] in Hm.
    apply in_map_iff in Hm. destruct Hm as [m0 [<- Hm0]]. cbn [mom_x] in E.
    apply (Hmom m0 Hm0). rewrite Eb, <- E. fold (toBase u (mom_x m0)).
    now rewrite toDisplay_toBase.
  - intros r Hr Ht E.
    apply (Hmr (nth 0 (convertReactionsToDisplayUnits [r] u) r)).
    + cbn [convertReactionsToDisplayUnits map nth].
      unfold convertReactionsToDisplayUnits. apply in_map_iff. exists r. auto.
    + exact Ht.
    + cbn [convertReactionsToDisplayUnits map nth r_x]. rewrite E, Eb. reflexivity.
  - intros l Hl. unfold baseLoads in Hl. rewrite uvl_base in Hl.
    apply in_map_iff in Hl. destruct Hl as [l0 [<- Hl0]].
    destruct (Hreg l0 Hl0) as [Ra Rb]. rewrite Forall_forall in Hwf.
    pose proof (Hwf _ (spans_In_uvl loads l0 Hl0)) as Hl. cbn [fst snd] in Hl.
    rewrite <- (toBase_toDisplay u (seg_a s0)), <- (toBase_toDisplay u (seg_b s0)).
    rewrite <- Ea, <- Eb. split; now apply regularAt_base.
Qed.

Lemma nth_error_map_seq {A} (f : nat -> A) (n i : nat) :
  (i < n)%nat -> nth_error (map f (seq 0 n)) i = Some (f i).
Proof.
  intros H. rewrite nth_error_map.
  assert (E : nth_error (seq 0 n) i = Some i).
  { rewrite nth_error_nth' with (d := 0%nat) by (rewrite length_seq; exact H).
    now rewrite seq_nth. }
  now rewrite E.
Qed.

Lemma classify_typed (loads : Loads Qc) (a b : Qc) : typed (classify loads a b).
Proof.
  unfold classify.
  assert (Hudl : forall l st, hasUVL st = false -> typed st ->
            hasUVL (fold_left (checkUDL a b) l st) = false
            /\ typed (fold_left (checkUDL a b) l st)).
  { induction l as [|x l IH]; intros st H1 H2; [auto|]. cbn [fold_left].
    apply IH; unfold checkUDL; destruct (_ && _); auto;
      unfold typed; cbn; now rewrite H1. }
  assert (Huvl : forall l st, typed st -> typed (fold_left (checkUVL a b) l st)).
  { induction l as [|x l IH]; intros st H; [auto|]. cbn [fold_left].
    apply IH; unfold checkUVL; destruct (_ && _); auto. reflexivity. }
  apply Huvl, Hudl; reflexivity.
Qed.

End Exact.

(** ** The shear sampler, in any arithmetic *)

Section SamplerFacts.
Context {num : Type} {N : Number num} {S : Special num} {Rd : Rounding num}.
Local Open Scope js_scope.

(** C9, as the engine has it: for every segment the sampler pushes
    numPoints + 1 points, 3 for a const segment, 11 for a linear and 21 for a
    quadratic one (both ends included).  Point i stands at
    x = a + (b - a) * (i / numPoints) and carries the value computed from the
    coeffs of the segment at dx = x - a: c0 when the segment is const,
    c0 + (c1 || 0) * dx when it is linear and
    c0 + (c1 || 0) * dx + (c2 || 0) * dx * dx when it is quadratic; both
    coordinates are rounded by Math.round(v * 1000) / 1000.  This holds in
    every arithmetic, binary64 included. *)
Theorem sampler_contract (segment : DiagramSegment num) :
  List.length (samplePoints segment)
  = match seg_type segment with linear => 11%nat | quadratic => 21%nat | _ => 3%nat end
  /\ forall i, (i <= numPoints segment)%nat ->
       let x := seg_a segment + (seg_b segment - seg_a segment)
                                * (ofZ (Z.of_nat i) / ofZ (Z.of_nat (numPoints segment))) in
       let dx := x - seg_a segment in
       let point := fun v => mkShearPoint (round (x * ofZ 1000) / ofZ 1000)
                                          (round (v * ofZ 1000) / ofZ 1000) in
       (forall c0, seg_type segment = const -> coeffs segment = Some [c0] ->
                   nth_error (samplePoints segment) i = Some (point c0))
       /\ (forall c0 c1, seg_type segment = linear -> coeffs segment = Some [c0; c1] ->
                         nth_error (samplePoints segment) i
                         = Some (point (c0 + orElse (Some c1) (ofZ 0) * dx)))
       /\ (forall c0 c1 c2,
              seg_type segment = quadratic -> coeffs segment = Some [c0; c1; c2] ->
              nth_error (samplePoints segment) i
              = Some (point (c0 + orElse (Some c1) (ofZ 0) * dx
                             + orElse (Some c2) (ofZ 0) * dx * dx))).
Proof.
  split.
  - unfold samplePoints, numPoints. rewrite length_map, length_seq.
    now destruct (seg_type segment).
  - intros i Hi x dx point.
    assert (E : nth_error (samplePoints segment) i
                = Some (mkShearPoint (round (x * ofZ 1000) / ofZ 1000)
                          (round (sampleShear segment i * ofZ 1000) / ofZ 1000))).
    { unfold samplePoints. rewrite nth_error_map_seq by lia. reflexivity. }
    rewrite E. subst point. cbv beta.
    repeat split; intros; unfold sampleShear;
      match goal with Ht : seg_type segment = _, Hc : coeffs segment = _ |- _ =>
        rewrite Ht, Hc end; reflexivity.
Qed.

End SamplerFacts.

(** ** Reactions and applied moments *)

Lemma sumForces_ignores_moments {num} {N : Number num} {T : Trig num}
  (x0 : num) (loads : Loads num) (ms : list (MomentLoad num)) :
  sumForces x0 (mkLoads (point loads) (angled loads) (udl loads) (uvl loads) ms)
  = sumForces x0 loads.
Proof. reflexivity. Qed.

(** C10: with pin+roller supports, [calculateReactions] returns the same
    reaction list when the moment-load array is replaced by the empty array:
    applied moments enter neither the force sum nor the moment sum. *)
Theorem pin_roller_reactions_ignore_moment_loads
  {num} {N : Number num} {T : Trig num}
  (loads : Loads num) (supports : Support num) (length : num) :
  stype supports = PinRoller ->
  calculateReactions
    (mkLoads (point loads) (angled loads) (udl loads) (uvl loads) []) supports length
  = calculateReactions loads supports length.
Proof.
  intros Hpin. unfold calculateReactions. rewrite Hpin.
  now rewrite sumForces_ignores_moments.
Qed.

Lemma pin_roller_reactions_ignore_moment_loads_witness :
  stype supports10 = PinRoller /\
  calculateReactions (T := noTrig)
    (mkLoads (point loadsWithMoment) (angled loadsWithMoment) (udl loadsWithMoment)
       (uvl loadsWithMoment) []) supports10 (F64_ofZ 10)
  = calculateReactions (T := noTrig) loadsWithMoment supports10 (F64_ofZ 10).
Proof.
  split; [reflexivity|].
  apply (pin_roller_reactions_ignore_moment_loads (T := noTrig)
           loadsWithMoment supports10 (F64_ofZ 10)).
  reflexivity.
Defined.

(** ** The scenarios, in binary64 *)

Section ScenarioFacts.
Context (T : Trig float).

(** C1: scenario 1 gives a valid result with pin and roller reactions 30
    and 30 and extrema Mmax = 450 at x = 15, Vmax = 30 and Vmin = -30.  The
    shear diagram of the result takes the value Vmax at a position left of
    the load (x = 0, which is also the position recorded for Vmax) and the
    value Vmin at a position right of it (x = 30, the end of the segment
    [15, 30], on which the shear is -30 from end to end; the position
    recorded for Vmin is the start of that segment, x = 15). *)
Theorem scenario1_result :
  isValid result1 = true /\
  map (fun r => (r_type r, r_at r, r_x r, r_R r)) (reactions result1)
  = [ (vertical, "pin"%string, Some 0%float, Some 30%float);
      (vertical, "roller"%string, Some 30%float, Some 30%float) ] /\
  Mmax (extrema result1) = 450%float /\
  Mmax_pos (positions (extrema result1)) = 15%float /\
  Vmax (extrema result1) = 30%float /\
  Vmin (extrema result1) = (-30)%float /\
  Exists (fun s => PrimFloat.ltb (seg_a s) 15%float = true
                   /\ V_a s = Some (Vmax (extrema result1))) (V_segments result1) /\
  Exists (fun s => PrimFloat.ltb 15%float (seg_b s) = true
                   /\ V_b s = Some (Vmin (extrema result1))) (V_segments result1) /\
  Vmax_pos (positions (extrema result1)) = 0%float /\
  Vmin_pos (positions (extrema result1)) = 15%float /\
  map (fun s => (seg_a s, seg_b s, V_a s, V_b s)) (V_segments result1)
  = [ (0%float, 15%float, Some 30%float, Some 30%float);
      (15%float, 30%float, Some (-30)%float, Some (-30)%float) ].
Proof.
  do 6 (split; [vm_compute; reflexivity|]).
  split; [vm_compute; apply Exists_cons_hd; split; reflexivity|].
  split; [vm_compute; apply Exists_cons_tl, Exists_cons_hd; split; reflexivity|].
  vm_compute. repeat split.
Qed.

(** C2, at the failing input: on the cantilever of scenario 4 the engine
    returns a fixed vertical reaction of -20 and a moment that runs from -200
    at x = 0 to -400 at x = 10. *)
Theorem scenario4_result :
  isValid result4 = true /\
  map (fun r => (r_type r, r_x r, r_R r, r_M r)) (reactions result4)
  = [ (vertical, Some 0%float, Some (-20)%float, None);
      (moment_reaction, Some 0%float, None, Some (-200)%float) ] /\
  map (fun s => (seg_a s, seg_b s, seg_type s, V_a s, V_b s)) (V_segments result4)
  = [ (0%float, 10%float, const, Some (-20)%float, Some (-20)%float) ] /\
  map (fun s => (seg_a s, seg_b s, seg_type s, M_a s, M_b s)) (M_segments result4)
  = [ (0%float, 10%float, linear, Some (-200)%float, Some (-400)%float) ].
Proof. vm_compute. repeat split. Qed.

(** C4, at the failing input: a UVL with w1 + w2 = 0 is skipped by the
    reaction solver (both reactions are 0), and makes the start value of the
    moment segment that follows it NaN. *)
Theorem zero_sum_uvl_gives_NaN_moment :
  isValid resultZeroSum = true /\
  map (@r_R float) (reactions resultZeroSum) = [Some 0%float; Some 0%float] /\
  map (fun s => (seg_a s, seg_b s, option_map PrimFloat.is_nan (M_a s),
                 option_map PrimFloat.is_nan (M_b s)))
    (M_segments resultZeroSum)
  = [ (0%float, 4%float, Some false, Some false);
      (4%float, 10%float, Some true, Some true) ].
Proof. vm_compute. repeat split. Qed.

(** C7, at the failing input: with pin_x = roller_x = 0 the analysis is
    valid, the roller having been moved to x = length. *)
Theorem coincident_supports_at_zero_accepted :
  isValid resultCoincident = true /\
  error resultCoincident = None /\
  map (fun r => (r_at r, r_x r)) (reactions resultCoincident)
  = [ ("pin"%string, Some 0%float); ("roller"%string, Some 10%float) ].
Proof. vm_compute. repeat split. Qed.

End ScenarioFacts.

(** C3, as stated, fails: two UDLs over the same span, and no applied moment
    anywhere; the first moment segment ends at 85 and the second starts
    at 60. *)
Lemma overlapping_udls_break_moment_continuity :
  exists s s',
    nth_error (M_segments (@resultOverlap noTrig)) 0 = Some s /\
    nth_error (M_segments (@resultOverlap noTrig)) 1 = Some s' /\
    seg_b s = seg_a s' /\ moment loadsOverlap = [] /\
    M_b s = Some 85%float /\ M_a s' = Some 60%float /\ M_b s <> M_a s'.
Proof.
  eexists. eexists. split; [vm_compute; reflexivity|].
  split; [vm_compute; reflexivity|]. cbn [seg_a seg_b M_a M_b].
  repeat split. intros H.
  apply (f_equal (fun o => match o with
                           | Some x => PrimFloat.ltb x 70%float
                           | None => false
                           end)) in H.
  vm_compute in H. discriminate H.
Qed.

(** C8, as stated, fails: with a point load at x = -5 the result is valid and
    its first shear and moment segments start at -5. *)
Lemma load_left_of_beam_moves_first_segment :
  isValid (@resultOutside noTrig) = true /\
  map (fun s => (seg_a s, seg_b s)) (V_segments (@resultOutside noTrig))
  = [((-5)%float, 0%float); (0%float, 10%float)] /\
  map (fun s => (seg_a s, seg_b s)) (M_segments (@resultOutside noTrig))
  = [((-5)%float, 0%float); (0%float, 10%float)].
Proof. vm_compute. repeat split. Qed.

(** C9, as stated, fails: a const segment is sampled at 3 points, not 2, and
    the value emitted for the constant 0.333... (the double next to 1/3) is
    0.333, not the constant. *)
Lemma sampler_emits_three_rounded_points :
  map (fun p => (sp_x p, shearForce p)) (samplePoints thirdSegment)
  = [ (0, 333 / 1000); (0.5, 333 / 1000); (1, 333 / 1000) ]%float /\
  coeffs thirdSegment = Some [oneThird] /\
  PrimFloat.eqb (333 / 1000)%float oneThird = false.
Proof. vm_compute. repeat split. Qed.


(** C6, as stated, fails: a load position that is NaN is kept as an event,
    here after 0 and 10, and the events are then not in increasing order;
    the analysis is valid all the same. *)
Lemma nan_position_breaks_event_order :
  generateEvents loadsNaN supports10 (F64_ofZ 10) = [0; 10; nan]%float /\
  PrimFloat.ltb 10 nan = false /\
  ~ StronglySorted (fun x y => PrimFloat.ltb x y = true)
      (generateEvents loadsNaN supports10 (F64_ofZ 10)) /\
  isValid (@resultNaN noTrig) = true /\
  events (@resultNaN noTrig) = [0; 10; nan]%float.
Proof.
  assert (E : generateEvents loadsNaN supports10 (F64_ofZ 10) = [0; 10; nan]%float)
    by (vm_compute; reflexivity).
  rewrite E. split; [reflexivity|]. split; [reflexivity|]. split.
  - intros H. inversion H as [|? ? H1 _]; subst.
    inversion H1 as [|? ? _ H2]; subst. inversion H2 as [|? ? H3 _]; subst.
    vm_compute in H3. discriminate H3.
  - vm_compute. split; reflexivity.
Qed.

(** In binary64 the equality of C3 need not hold: on the input the
    application starts with, whose loads are two point loads, the second
    moment segment ends at 353.33333333333331 and the third starts at
    353.33333333333326; the last one ends at -1.16e-13. *)
Lemma default_input_moment_ends_differ_in_binary64 :
  isValid (@resultDefault noTrig) = true /\
  map (fun s => (seg_a s, seg_b s, M_a s, M_b s)) (M_segments (@resultDefault noTrig))
  = [ (0, 6, Some 0, Some 148);
      (6, 20, Some 148, Some 0x1.6155555555555p+8);
      (20, 30, Some 0x1.6155555555554p+8, Some (-0x1.0624dd2f1a9fcp-43)) ]%float /\
  PrimFloat.eqb 0x1.6155555555555p+8 0x1.6155555555554p+8 = false.
Proof. vm_compute. repeat split. Qed.

(** In binary64 the last segment of C8 need not end at the length: a 7 ft
    beam without loads is taken to metres and back, and its one segment and
    its roller end at 6.9999999999999991. *)
Lemma seven_feet_beam_ends_short_of_length_in_binary64 :
  isValid (@resultSevenFeet noTrig) = true /\
  map (fun s => (seg_a s, seg_b s)) (V_segments (@resultSevenFeet noTrig))
  = [ (0, 0x1.bffffffffffffp+2) ]%float /\
  map (fun s => (seg_a s, seg_b s)) (M_segments (@resultSevenFeet noTrig))
  = [ (0, 0x1.bffffffffffffp+2) ]%float /\
  map (fun r => (r_at r, r_x r)) (reactions (@resultSevenFeet noTrig))
  = [ ("pin"%string, Some 0%float); ("roller"%string, Some 0x1.bffffffffffffp+2%float) ] /\
  PrimFloat.ltb 0x1.bffffffffffffp+2 (length beamSevenFeet) = true.
Proof. vm_compute. repeat split. Qed.

(** Math.round on doubles: ties go towards +Infinity, a zero result keeps
    the sign, the double below 0.5 goes to 0, and 1.0005 * 1000, which is
    1000.5 in binary64, goes to 1001. *)
Lemma F64_round_examples :
  map F64_round [2.5; -2.5; -0.5; 0x1.fffffffffffffp-2; 10005 / 10000 * 1000;
                 1000000 / 3; 0x1p+60; infinity]%float
  = [3; -2; -0; 0; 1001; 333333; 0x1p+60; infinity]%float
  /\ PrimFloat.is_nan (F64_round nan) = true.
Proof. vm_compute. split; reflexivity. Qed.

(** On a result the sampler reads coefficients that are still in base units:
    scenario 1 is in kN, its shear is 30 and -30, and the points returned
    carry 30000 and -30000. *)
Lemma scenario1_samples_are_in_newtons :
  map (fun s => (V_a s, coeffs s)) (V_segments (@result1 noTrig))
  = [ (Some 30, Some [30000]); (Some (-30), Some [-30000]) ]%float /\
  map (fun p => (sp_x p, shearForce p)) (generateShearForceData (@result1 noTrig))
  = [ (0, 30000); (7.5, 30000); (15, 30000); (22.5, -30000); (30, -30000) ]%float.
Proof. vm_compute. repeat split. Qed.

(** ** Instances of the theorems *)

Ltac qc_order := vm_compute; first [reflexivity | discriminate].
Ltac qc_neq :=
  let H := fresh in
  intro H; apply (f_equal this) in H; vm_compute in H; discriminate H.


Lemma segments_partition_event_span_witness :
  isValid exactResult = true /\
  partitions (V_segments exactResult) 0%Qc (length exactBeam) /\
  partitions (M_segments exactResult) 0%Qc (length exactBeam).
Proof.
  assert (Hvalid : isValid exactResult = true) by (vm_compute; reflexivity).
  split; [exact Hvalid|].
  destruct (segments_partition_event_span (T := anyTrig) (S := anySpecial)
              exactBeam exactSupports exactLoads Hvalid) as (HV & HM & Hends).
  destruct Hends as [E0 EL].
  - unfold withinBeam. cbn. repeat constructor; qc_order.
  - fold exactResult in *. rewrite E0, EL in HV, HM. exact (conj HV HM).
Defined.

Lemma moment_continuous_without_overlap_witness :
  M_b (nth 1 (M_segments exactResult) noSegment)
  = M_a (nth 2 (M_segments exactResult) noSegment).
Proof.
  apply (moment_continuous_without_overlap (T := anyTrig) (S := anySpecial)
           exactBeam exactSupports exactLoads 1).
  - vm_compute; reflexivity.
  - vm_compute; reflexivity.
  - vm_compute; reflexivity.
  - intros m [<-|[]]. qc_neq.
  - intros r Hr Ht. vm_compute in Hr.
    destruct Hr as [<-|[<-|[]]]; discriminate Ht.
  - repeat constructor; qc_order.
  - repeat constructor; qc_order.
  - intros l [<-|[]]; split; intros H;
      first [vm_compute in H; discriminate H | clear H; qc_neq].
Defined.

(** * Further properties of the engine and its callers *)

(** ** The pipeline in any arithmetic *)

Section PipelineFacts.
Context {num : Type} {N : Number num} {T : Trig num} {S : Special num}.

(** X1: the three ways an analysis ends.  The [catch] branch is never taken:
    the moment loop finds a shear segment for every interval. *)
Theorem analysis_outcomes (beamData : BeamData num) (supports : Support num)
  (loads : Loads num) :
  let r := calculateBeamAnalysis beamData supports loads in
  let baseSupports := convertSupportsToBaseUnits supports (u_length (units beamData)) in
  let baseLength :=
    convertLength (length beamData) (u_length (units beamData)) (u_length BASE_UNITS) in
  (leb (length beamData) (ofZ 0) = true
   /\ r = createErrorResult "Beam length must be greater than 0")
  \/ (leb (length beamData) (ofZ 0) = false
      /\ validateSupports baseSupports baseLength = false
      /\ r = createErrorResult "Invalid support configuration")
  \/ (leb (length beamData) (ofZ 0) = false
      /\ validateSupports baseSupports baseLength = true
      /\ isValid r = true /\ error r = None).
Proof.
  cbv zeta. unfold calculateBeamAnalysis.
  destruct (leb (length beamData) (ofZ 0)); [left; auto|].
  destruct (validateSupports _ _); cbn [negb]; [|right; left; auto].
  rewrite calculateMomentSegments_total. right; right. auto.
Qed.

Lemma sortInsert_length (f : num -> num -> num) (x : num) (l : list num) :
  List.length (sortInsert f x l) = Datatypes.S (List.length l).
Proof.
  induction l as [|y l IH]; [reflexivity|]. cbn [sortInsert].
  destruct (leb _ _); cbn [List.length]; [reflexivity | now rewrite IH].
Qed.

Lemma arraySort_length (f : num -> num -> num) (l : list num) :
  List.length (arraySort f l) = List.length l.
Proof.
  induction l as [|x l IH]; [reflexivity|]. cbn [arraySort].
  now rewrite sortInsert_length, IH.
Qed.

Lemma setAdd_length (x : num) (s : list num) :
  (List.length s <= List.length (setAdd x s))%nat.
Proof.
  unfold setAdd. destruct (existsb _ _); [lia|]. rewrite length_app. cbn. lia.
Qed.

Lemma fold_left_keeps {A B} (P : B -> Prop) (f : B -> A -> B) (l : list A) :
  (forall s x, P s -> P (f s x)) -> forall s, P s -> P (fold_left f l s).
Proof.
  intros Hf. induction l as [|x l IH]; intros s Hs; cbn [fold_left]; auto.
Qed.

Lemma eventSet_length (loads : Loads num) (supports : Support num) (length : num) :
  (1 <= List.length (eventSet loads supports length))%nat.
Proof.
  assert (Hadd : forall x s, (1 <= List.length s)%nat ->
                             (1 <= List.length (setAdd x s))%nat).
  { intros x s Hs. pose proof (setAdd_length x s). lia. }
  unfold eventSet.
  repeat (apply (fold_left_keeps (fun s => (1 <= List.length s)%nat));
          [intros s x Hs; auto|]).
  destruct (stype supports);
    repeat match goal with
           | |- (1 <= List.length (setAdd _ (setAdd _ _)))%nat => apply Hadd
           end; cbn; lia.
Qed.

Lemma calculateShearSegments_length (loads : Loads num) (reactions : list (Reaction num))
  (events : list num) :
  List.length (calculateShearSegments loads reactions events)
  = Nat.pred (List.length events).
Proof.
  induction events as [|a rest IH]; [reflexivity|].
  destruct rest as [|b rest]; [reflexivity|].
  rewrite calculateShearSegments_cons. cbn [List.length] in *. now rewrite IH.
Qed.

Lemma momentSegmentsOf_length (loads : Loads num) (reactions : list (Reaction num))
  (events : list num) :
  List.length (momentSegmentsOf loads reactions events) = Nat.pred (List.length events).
Proof.
  induction events as [|a rest IH]; [reflexivity|].
  destruct rest as [|b rest]; [reflexivity|].
  rewrite momentSegmentsOf_cons. cbn [List.length] in *. now rewrite IH.
Qed.

(** X2: a valid result has one shear segment and one moment segment for each pair
    of consecutive events, and at least one event. *)
Theorem segments_between_events (beamData : BeamData num) (supports : Support num)
  (loads : Loads num) :
  let r := calculateBeamAnalysis beamData supports loads in
  isValid r = true ->
  List.length (events r) = Datatypes.S (List.length (V_segments r))
  /\ List.length (M_segments r) = List.length (V_segments r).
Proof.
  intros r Hv. subst r. destruct (valid_result _ _ _ Hv) as (_ & _ & ->).
  cbn [events V_segments M_segments]. unfold convertSegmentsToDisplayUnits.
  rewrite !length_map, calculateShearSegments_length, momentSegmentsOf_length.
  unfold generateEvents. rewrite arraySort_length.
  match goal with |- context [eventSet ?l ?s ?len] =>
    pose proof (eventSet_length l s len) end.
  split; lia.
Qed.

End PipelineFacts.

(** ** The types of the segments *)

Section SegmentTypes.
Context {num : Type} {N : Number num} {T : Trig num} {S : Special num}
        {Rd : Rounding num}.

Lemma checkUDL_fold (a b : num) (l : list (UDLLoad num)) : forall st,
  let st' := fold_left (checkUDL a b) l st in
  hasUDL st' = hasUDL st || existsb (activeUDL a b) l
  /\ hasUVL st' = hasUVL st
  /\ segmentType st' = if existsb (activeUDL a b) l then linear else segmentType st.
Proof.
  induction l as [|x l IH]; intros st; cbn [fold_left existsb].
  - rewrite orb_false_r. auto.
  - destruct (IH (checkUDL a b st x)) as (H1 & H2 & H3). cbv zeta.
    rewrite H1, H2, H3. unfold checkUDL. fold (activeUDL a b x).
    destruct (activeUDL a b x); cbn [hasUDL hasUVL segmentType orb].
    + destruct (existsb _ l); rewrite ?orb_true_r; auto.
    + auto.
Qed.

Lemma checkUVL_fold (a b : num) (l : list (UVLLoad num)) : forall st,
  let st' := fold_left (checkUVL a b) l st in
  hasUVL st' = hasUVL st || existsb (activeUVL a b) l
  /\ hasUDL st' = hasUDL st
  /\ segmentType st' = if existsb (activeUVL a b) l then quadratic else segmentType st.
Proof.
  induction l as [|x l IH]; intros st; cbn [fold_left existsb].
  - rewrite orb_false_r. auto.
  - destruct (IH (checkUVL a b st x)) as (H1 & H2 & H3). cbv zeta.
    rewrite H1, H2, H3. unfold checkUVL. fold (activeUVL a b x).
    destruct (activeUVL a b x); cbn [hasUDL hasUVL segmentType orb].
    + destruct (existsb _ l); rewrite ?orb_true_r; auto.
    + auto.
Qed.

Lemma classify_flags (loads : Loads num) (a b : num) :
  hasUVL (classify loads a b) = existsb (activeUVL a b) (uvl loads)
  /\ hasUDL (classify loads a b) = existsb (activeUDL a b) (udl loads)
  /\ segmentType (classify loads a b) = typeOver loads a b.
Proof.
  unfold classify, typeOver.
  destruct (checkUVL_fold a b (uvl loads) (fold_left (checkUDL a b) (udl loads) noActive))
    as (H1 & H2 & H3).
  destruct (checkUDL_fold a b (udl loads) noActive) as (G1 & G2 & G3).
  cbv zeta in *. rewrite H1, H2, H3, G1, G2, G3. cbn [noActive hasUDL hasUVL segmentType orb].
  auto.
Qed.

(** X3: the type of a shear segment says which loads reach into it: quadratic
    when a UVL does, else linear when a UDL does, else const; and it has one
    coefficient more than its degree. *)
Theorem shear_segment_types (loads : Loads num) (reactions : list (Reaction num))
  (events : list num) :
  Forall (fun s =>
            seg_type s = typeOver loads (seg_a s) (seg_b s)
            /\ exists c, coeffs s = Some c
                         /\ List.length c = coefficients (seg_type s))
    (calculateShearSegments loads reactions events).
Proof.
  induction events as [|a rest IH]; [constructor|].
  destruct rest as [|b rest]; [constructor|].
  rewrite calculateShearSegments_cons. constructor; [|exact IH].
  unfold shearSegment. cbn [seg_type seg_a seg_b coeffs].
  destruct (classify_flags loads a b) as (H1 & H2 & H3).
  split; [exact H3|]. eexists. split; [reflexivity|].
  rewrite H3. unfold shearCoeffs, typeOver. rewrite H1, H2.
  destruct (existsb _ (uvl loads)); [reflexivity|].
  destruct (existsb _ (udl loads)); reflexivity.
Qed.

Lemma typeOver_not_cubic (loads : Loads num) (a b : num) : typeOver loads a b <> cubic.
Proof.
  unfold typeOver. destruct (existsb _ (uvl loads)); [discriminate|].
  destruct (existsb _ (udl loads)); discriminate.
Qed.

Lemma shearSegment_shape (loads : Loads num) (reactions : list (Reaction num)) (a b : num) :
  let s := shearSegment loads reactions a b in
  seg_type s = typeOver loads a b
  /\ (exists c, coeffs s = Some c /\ List.length c = coefficients (seg_type s))
  /\ M_a s = None /\ M_b s = None /\ V_a s <> None /\ V_b s <> None.
Proof.
  cbv zeta. unfold shearSegment. cbn [seg_type coeffs M_a M_b V_a V_b].
  destruct (classify_flags loads a b) as (H1 & H2 & H3).
  split; [exact H3|]. split; [|repeat split; discriminate].
  eexists. split; [reflexivity|].
  rewrite H3. unfold shearCoeffs, typeOver. rewrite H1, H2.
  destruct (existsb _ (uvl loads)); [reflexivity|].
  destruct (existsb _ (udl loads)); reflexivity.
Qed.

Lemma momentSegment_follows (loads : Loads num) (reactions : list (Reaction num))
  (a b : num) :
  follows (shearSegment loads reactions a b)
    (momentSegment loads reactions a b (shearSegment loads reactions a b)).
Proof.
  destruct (shearSegment_shape loads reactions a b) as (Ht & (c & Hc & Hl) & H1 & H2 & H3 & H4).
  pose proof (typeOver_not_cubic loads a b) as Hn. rewrite <- Ht in Hn.
  unfold follows, momentSegment.
  destruct (seg_type (shearSegment loads reactions a b)) eqn:E; [| | |congruence];
    cbn [seg_a seg_b seg_type coeffs V_a V_b M_a M_b integralType];
    (repeat split; try discriminate; try assumption; try reflexivity);
    exists c; eexists; repeat split; try eassumption; reflexivity.
Qed.

Lemma segments_follow (loads : Loads num) (reactions : list (Reaction num))
  (events : list num) :
  Forall2 follows (calculateShearSegments loads reactions events)
    (momentSegmentsOf loads reactions events).
Proof.
  induction events as [|a rest IH]; [constructor|].
  destruct rest as [|b rest]; [constructor|].
  rewrite calculateShearSegments_cons, momentSegmentsOf_cons.
  constructor; [apply momentSegment_follows | exact IH].
Qed.

Lemma follows_display (u : Units) (vs ms : list (DiagramSegment num)) :
  Forall2 follows vs ms ->
  Forall2 follows (convertSegmentsToDisplayUnits vs u) (convertSegmentsToDisplayUnits ms u).
Proof.
  unfold convertSegmentsToDisplayUnits.
  induction 1 as [|v m vs ms H _ IH]; cbn [map]; constructor; [|exact IH].
  destruct H as (Ha & Hb & Hn & Ht & (cv & cm & Hcv & Hcm & Hlv & Hlm)
                 & (V1 & V2 & V3 & V4) & (M1 & M2 & M3 & M4)).
  unfold follows. cbn [seg_a seg_b seg_type coeffs V_a V_b M_a M_b].
  rewrite Ha, Hb, V3, V4, M3, M4.
  repeat split; auto;
    try (destruct (V_a v); [discriminate | congruence]);
    try (destruct (V_b v); [discriminate | congruence]);
    try (destruct (M_a m); [discriminate | congruence]);
    try (destruct (M_b m); [discriminate | congruence]).
  exists cv, cm. auto.
Qed.

(** X4: in a valid result the i-th moment segment lies over the same interval as
    the i-th shear segment and is its integral in shape: linear over const,
    quadratic over linear, cubic over quadratic, with one coefficient more.
    No shear segment is cubic and no moment segment is const; shear segments
    carry V_a and V_b only, moment segments M_a and M_b only. *)
Theorem moment_segments_follow_shear (beamData : BeamData num) (supports : Support num)
  (loads : Loads num) :
  let r := calculateBeamAnalysis beamData supports loads in
  isValid r = true ->
  Forall2 (fun v m =>
             seg_a m = seg_a v /\ seg_b m = seg_b v
             /\ seg_type v <> cubic /\ seg_type m = integralType (seg_type v)
             /\ (exists cv cm, coeffs v = Some cv /\ coeffs m = Some cm
                               /\ List.length cv = coefficients (seg_type v)
                               /\ List.length cm = coefficients (seg_type m))
             /\ (V_a v <> None /\ V_b v <> None /\ M_a v = None /\ M_b v = None)
             /\ (M_a m <> None /\ M_b m <> None /\ V_a m = None /\ V_b m = None))
    (V_segments r) (M_segments r).
Proof.
  intros r Hv. subst r. destruct (valid_result _ _ _ Hv) as (_ & _ & ->).
  cbn [V_segments M_segments]. apply follows_display, segments_follow.
Qed.

(** X5: without distributed loads every shear segment of a valid result is a
    step (const, with V_b = V_a), every moment segment is linear, and the
    chart of the shear force is drawn as a step function. *)
Theorem point_loads_give_steps (beamData : BeamData num) (supports : Support num)
  (loads : Loads num) :
  let r := calculateBeamAnalysis beamData supports loads in
  udl loads = [] -> uvl loads = [] -> isValid r = true ->
  Forall (fun s => seg_type s = const /\ V_b s = V_a s) (V_segments r)
  /\ Forall (fun s => seg_type s = linear) (M_segments r)
  /\ getChartType r = stepAfter.
Proof.
  intros r Hudl Huvl Hv. subst r. destruct (valid_result _ _ _ Hv) as (_ & _ & ->).
  cbn [V_segments M_segments]. clear Hv.
  set (bl := convertLoadsToBaseUnits loads (units beamData)).
  assert (Hbu : udl bl = []) by (unfold bl, convertLoadsToBaseUnits; cbn; now rewrite Hudl).
  assert (Hbv : uvl bl = []) by (unfold bl, convertLoadsToBaseUnits; cbn; now rewrite Huvl).
  match goal with |- context [calculateShearSegments bl ?re ?ev] =>
    generalize re; generalize ev end.
  intros ev re.
  assert (Hs : forall a b, seg_type (shearSegment bl re a b) = const
                           /\ V_b (shearSegment bl re a b) = V_a (shearSegment bl re a b)).
  { intros a b. unfold shearSegment, classify. rewrite Hbu, Hbv. cbn. auto. }
  assert (HV : Forall (fun s => seg_type s = const /\ V_b s = V_a s)
                 (convertSegmentsToDisplayUnits (calculateShearSegments bl re ev)
                    (units beamData))).
  { unfold convertSegmentsToDisplayUnits.
    induction ev as [|a rest IH]; [constructor|].
    destruct rest as [|b rest]; [constructor|].
    rewrite calculateShearSegments_cons. cbn [map]. constructor; [|exact IH].
    destruct (Hs a b) as [H1 H2]. cbn [seg_type V_a V_b]. now rewrite H1, H2. }
  split; [exact HV|]. split.
  - unfold convertSegmentsToDisplayUnits.
    induction ev as [|a rest IH]; [constructor|].
    destruct rest as [|b rest]; [constructor|].
    rewrite momentSegmentsOf_cons. cbn [map]. constructor.
    + cbn [seg_type]. unfold momentSegment. destruct (Hs a b) as [-> _]. reflexivity.
    + apply IH. inversion HV; assumption.
  - unfold getChartType. cbn [V_segments].
    replace (forallb _ _) with true; [reflexivity|]. symmetry.
    apply forallb_forall. intros s Hs'. rewrite Forall_forall in HV.
    destruct (HV s Hs') as [-> _]. reflexivity.
Qed.

End SegmentTypes.

(** ** Units *)

Section UnitsAnyArithmetic.
Context {num : Type} {N : Number num}.

(** X6: a unit that is not in the table is converted as the base unit, a
    length as metres and a force as newtons, provided no unit name involved
    is a property name inherited from Object.prototype (such as toString),
    for which the code reads a function instead of a factor. *)
Theorem unknown_unit_is_base_unit (value : num) (lengthUnit forceUnit v w : string) :
  inherited lengthUnit = false -> inherited forceUnit = false ->
  inherited v = false -> inherited w = false ->
  lookup (num := num) LENGTH_CONVERSIONS lengthUnit = None ->
  lookup (num := num) FORCE_CONVERSIONS forceUnit = None ->
  convertLength value lengthUnit v = convertLength value "m" v
  /\ convertLength value v lengthUnit = convertLength value v "m"
  /\ convertForce value forceUnit w = convertForce value "N" w
  /\ convertForce value w forceUnit = convertForce value w "N".
Proof.
  assert (Hm : lookup (num := num) LENGTH_CONVERSIONS "m" = Some (ofZ 1)) by reflexivity.
  assert (Hn : lookup (num := num) FORCE_CONVERSIONS "N" = Some (ofZ 1)) by reflexivity.
  intros _ _ _ _ Hl Hf. unfold convertLength, convertForce. rewrite Hl, Hf, Hm, Hn.
  cbn [orElse]. destruct (falsy (ofZ 1)); auto.
Qed.

End UnitsAnyArithmetic.

Section UnitsExact.

Lemma convertLength_eq (x : Qc) (u v : string) :
  convertLength x u v = (x * lengthFactor u / lengthFactor v)%Qc.
Proof. reflexivity. Qed.

Lemma convertForce_eq (x : Qc) (u v : string) :
  convertForce x u v = (x * forceFactor u / forceFactor v)%Qc.
Proof. reflexivity. Qed.

(** X7: in exact arithmetic conversions compose, converting to the same unit
    changes nothing, and converting there and back gives the value back: for
    lengths and for forces, between unit names in the table or not, provided
    none of them is a property name inherited from Object.prototype. *)
Theorem conversions_compose (x : Qc) (u v w : string) :
  inherited u = false -> inherited v = false -> inherited w = false ->
  convertLength (convertLength x u v) v w = convertLength x u w
  /\ convertLength x u u = x
  /\ convertLength (convertLength x u v) v u = x
  /\ convertForce (convertForce x u v) v w = convertForce x u w
  /\ convertForce x u u = x
  /\ convertForce (convertForce x u v) v u = x.
Proof.
  intros _ _ _. rewrite !convertLength_eq, !convertForce_eq.
  pose proof (lengthFactor_nonzero u). pose proof (lengthFactor_nonzero v).
  pose proof (lengthFactor_nonzero w). pose proof (forceFactor_nonzero u).
  pose proof (forceFactor_nonzero v). pose proof (forceFactor_nonzero w).
  repeat split; field; auto.
Qed.

End UnitsExact.

(** ** Reactions in exact arithmetic *)

Section ReactionFacts.
Context {T : Trig Qc} {S : Special Qc}.

Lemma toBase_zero_iff u (x : Qc) : toBase u x = 0%Qc <-> x = 0%Qc.
Proof.
  rewrite toBase_eq. split; [|intros ->; ring].
  intros H. apply Qcmult_integral in H. destruct H as [H|H]; [exact H|].
  now apply lengthFactor_nonzero in H.
Qed.

Lemma orElse_Some (v d : Qc) : orElse (Some v) d = if Qc_eq_bool v 0%Qc then d else v.
Proof. reflexivity. Qed.

Lemma orElse_cases (x : option Qc) (d : Qc) :
  (orElse x d = d /\ (x = None \/ x = Some 0%Qc))
  \/ (exists v, x = Some v /\ v <> 0%Qc /\ orElse x d = v).
Proof.
  destruct x as [v|]; [|left; auto]. rewrite orElse_Some.
  destruct (Qc_eqb_spec v 0%Qc) as [->|Hv]; [left; auto|].
  right. exists v. auto.
Qed.

(** The positions of the supports in base units, as the reaction solver
    reads them. *)
Lemma base_pin_x u (supports : Support Qc) :
  stype supports = PinRoller ->
  orElse (pin_x (convertSupportsToBaseUnits supports (u_length u))) 0%Qc
  = toBase u (orElse (pin_x supports) 0%Qc).
Proof.
  intros Hp. unfold convertSupportsToBaseUnits. rewrite Hp. cbn [pin_x].
  apply orElse_Some_0.
Qed.

Lemma base_roller_x u (supports : Support Qc) (len : Qc) :
  stype supports = PinRoller ->
  orElse (roller_x (convertSupportsToBaseUnits supports (u_length u))) (toBase u len)
  = toBase u (orElse (roller_x supports) len).
Proof.
  intros Hp. unfold convertSupportsToBaseUnits. rewrite Hp. cbn [roller_x].
  change (@ofZ Qc QcNumber 0%Z) with 0%Qc.
  fold (toBase u (orElse (roller_x supports) 0%Qc)). rewrite orElse_Some.
  destruct (orElse_cases (roller_x supports) 0%Qc) as [[E H]|(v & Hx & Hv & E)].
  - rewrite E, toBase_0. cbn. destruct H as [->| ->]; reflexivity.
  - rewrite E, Hx. rewrite orElse_Some.
    destruct (Qc_eqb_spec v 0%Qc) as [?|_]; [contradiction|].
    destruct (Qc_eqb_spec (toBase u v) 0%Qc) as [H0|_]; [|reflexivity].
    apply toBase_zero_iff in H0. contradiction.
Qed.

Lemma base_fixed_x u (supports : Support Qc) (len : Qc) :
  stype supports = Fixed ->
  fixed_x_of (convertSupportsToBaseUnits supports (u_length u)) (toBase u len)
  = toBase u (fixed_x_of supports len).
Proof.
  intros Hf. unfold convertSupportsToBaseUnits. rewrite Hf. unfold fixed_x_of.
  destruct (fixed_pos supports) as [[|]|]; try reflexivity;
    change (@ofZ Qc QcNumber 0%Z) with 0%Qc; now rewrite toBase_0.
Qed.

Lemma horizontalReaction_unplaced (at_ : string) (t : Totals (num := Qc)) :
  Forall unplaced (horizontalReaction at_ t).
Proof.
  unfold horizontalReaction. destruct (ltb _ _); repeat constructor.
Qed.

Lemma display_unplaced u (hs : list (Reaction Qc)) :
  Forall unplaced hs -> Forall unplaced (convertReactionsToDisplayUnits hs u).
Proof.
  unfold convertReactionsToDisplayUnits. induction 1 as [|h hs [H1 H2] _ IH]; cbn [map].
  - constructor.
  - constructor; [|exact IH]. split; cbn [r_type r_x]; [exact H1 | now rewrite H2].
Qed.

(** X8: the reactions of a valid result stand at the supports as they were given,
    in display units: the pin at pin_x (0 when it is missing), the roller at
    roller_x (the beam length when it is missing or 0), a fixed support at 0
    or at the beam length; only a horizontal reaction, which has no
    position, may follow them. *)
Theorem reactions_stand_at_supports
  (beamData : BeamData Qc) (supports : Support Qc) (loads : Loads Qc) :
  let r := calculateBeamAnalysis beamData supports loads in
  isValid r = true ->
  match stype supports with
  | PinRoller =>
      exists pinReaction rollerReaction rest,
        reactions r
        = mkReaction vertical "pin" (Some (orElse (pin_x supports) 0%Qc))
            (Some pinReaction) None None
          :: mkReaction vertical "roller"
               (Some (orElse (roller_x supports) (length beamData)))
               (Some rollerReaction) None None
          :: rest
        /\ Forall unplaced rest
  | Fixed =>
      exists fixedReaction fixedMoment rest,
        reactions r
        = mkReaction vertical "fixed" (Some (fixed_x_of supports (length beamData)))
            (Some fixedReaction) None None
          :: mkReaction moment_reaction "fixed"
               (Some (fixed_x_of supports (length beamData)))
               None (Some fixedMoment) None
          :: rest
        /\ Forall unplaced rest
  end.
Proof.
  intros r Hv. subst r. destruct (valid_result _ _ _ Hv) as (_ & _ & ->).
  cbn [reactions]. set (u := units beamData).
  fold (toBase u (length beamData)).
  unfold calculateReactions.
  destruct (stype supports) eqn:Hs.
  - replace (stype (convertSupportsToBaseUnits supports (u_length u))) with PinRoller
      by (unfold convertSupportsToBaseUnits; now rewrite Hs).
    change (@ofZ Qc QcNumber 0%Z) with 0%Qc.
    rewrite (base_pin_x u supports Hs), (base_roller_x u supports _ Hs).
    unfold convertReactionsToDisplayUnits at 1. cbn [app map r_type r_at r_x r_R r_M r_H option_map].
    fold (toDisplay u (toBase u (orElse (pin_x supports) 0%Qc))).
    fold (toDisplay u (toBase u (orElse (roller_x supports) (length beamData)))).
    rewrite !toDisplay_toBase.
    do 3 eexists. split; [reflexivity|].
    apply display_unplaced, horizontalReaction_unplaced.
  - replace (stype (convertSupportsToBaseUnits supports (u_length u))) with Fixed
      by (unfold convertSupportsToBaseUnits; now rewrite Hs).
    rewrite (base_fixed_x u supports _ Hs).
    unfold convertReactionsToDisplayUnits at 1. cbn [app map r_type r_at r_x r_R r_M r_H option_map].
    fold (toDisplay u (toBase u (fixed_x_of supports (length beamData)))).
    rewrite !toDisplay_toBase.
    do 3 eexists. split; [reflexivity|].
    apply display_unplaced, horizontalReaction_unplaced.
Qed.

Lemma total_map {A B} (g : B -> Qc) (h : A -> B) (l : list A) :
  total g (map h l) = total (fun x => g (h x)) l.
Proof.
  induction l as [|x l IH]; [reflexivity|]. cbn [map]. now rewrite !total_cons, IH.
Qed.

Lemma total_scale {A} (c : Qc) (g : A -> Qc) (l : list A) :
  total (fun x => (c * g x)%Qc) l = (c * total g l)%Qc.
Proof.
  induction l as [|x l IH]; [cbn; ring|]. rewrite !total_cons, IH. ring.
Qed.

Lemma total_ext {A} (g h : A -> Qc) (l : list A) :
  (forall x, g x = h x) -> total g l = total h l.
Proof.
  intros E. induction l as [|x l IH]; [reflexivity|]. now rewrite !total_cons, IH, E.
Qed.

Lemma fold_addPointLoad_totals (x0 : Qc) (l : list (PointLoad Qc)) : forall t,
  fold_left (addPointLoad x0) l t
  = mkTotals (totalVerticalForce t + total (@pt_P Qc) l)%Qc
      (totalMomentAbout t + total (fun load => (pt_P load * (pt_x load - x0))%Qc) l)%Qc
      (totalHorizontalForce t).
Proof.
  induction l as [|load l IH]; intros [v m h]; cbn [fold_left].
  - cbn. f_equal; ring.
  - rewrite IH. rewrite !total_cons.
    cbn [addPointLoad totalVerticalForce totalMomentAbout totalHorizontalForce
         add sub mul QcNumber]. f_equal; ring.
Qed.

Lemma fold_addMomentLoad_totals (l : list (MomentLoad Qc)) : forall t,
  fold_left addMomentLoad l t
  = mkTotals (totalVerticalForce t) (totalMomentAbout t + total (@mom_M Qc) l)%Qc
      (totalHorizontalForce t).
Proof.
  induction l as [|load l IH]; intros [v m h]; cbn [fold_left].
  - cbn. f_equal; ring.
  - rewrite IH. rewrite !total_cons.
    cbn [addMomentLoad totalVerticalForce totalMomentAbout totalHorizontalForce
         add QcNumber]. f_equal; ring.
Qed.

(** The sums of the reaction solver for point loads and applied moments, on
    the loads in base units. *)
Lemma sumForces_points u (loads : Loads Qc) (x0 : Qc) :
  angled loads = [] -> udl loads = [] -> uvl loads = [] ->
  sumForces (toBase u x0) (convertLoadsToBaseUnits loads u)
  = mkTotals (forceFactor (u_force u) * sumOfLoads loads)%Qc
      (forceFactor (u_force u) * lengthFactor (u_length u)
       * momentOfLoadsAbout x0 loads)%Qc
      0%Qc.
Proof.
  intros Ha Hu Hv. unfold sumForces, convertLoadsToBaseUnits. cbn [point angled udl uvl].
  rewrite Ha, Hu, Hv. cbn [map fold_left]. rewrite fold_addPointLoad_totals.
  cbn [totalVerticalForce totalMomentAbout totalHorizontalForce].
  change (@ofZ Qc QcNumber 0%Z) with 0%Qc.
  rewrite !total_map. cbn [pt_P pt_x]. unfold sumOfLoads, momentOfLoadsAbout.
  fold (total (@pt_P Qc) (point loads)).
  f_equal.
  - rewrite <- total_scale. rewrite Qcplus_0_l. apply total_ext. intros x.
    rewrite convertForce_to_base. ring.
  - rewrite <- total_scale. rewrite Qcplus_0_l. apply total_ext. intros x.
    rewrite convertForce_to_base. fold (toBase u (pt_x x)). rewrite !toBase_eq. ring.
Qed.

Lemma no_horizontalReaction (at_ : string) (v m : Qc) :
  horizontalReaction at_ (mkTotals v m 0%Qc) = [].
Proof. reflexivity. Qed.

Lemma moment_to_display u (m : Qc) :
  (convertForce m (u_force BASE_UNITS) (u_force u)
   * convertLength (ofZ 1) (u_length BASE_UNITS) (u_length u))%js
  = (m / (forceFactor (u_force u) * lengthFactor (u_length u)))%Qc.
Proof.
  rewrite convertForce_to_display. fold (toDisplay u (ofZ 1)). rewrite toDisplay_eq.
  cbn [mul QcNumber]. change (@ofZ Qc QcNumber 1%Z) with 1%Qc. field.
  split; [apply lengthFactor_nonzero | apply forceFactor_nonzero].
Qed.

Lemma moment_to_base u (m : Qc) :
  (convertForce m (u_force u) (u_force BASE_UNITS)
   * convertLength (ofZ 1) (u_length u) (u_length BASE_UNITS))%js
  = (forceFactor (u_force u) * lengthFactor (u_length u) * m)%Qc.
Proof.
  rewrite convertForce_to_base. fold (toBase u (ofZ 1)). rewrite toBase_eq.
  cbn [mul QcNumber]. change (@ofZ Qc QcNumber 1%Z) with 1%Qc. ring.
Qed.

(** An analysis that passes both checks is valid. *)
Lemma valid_when (beamData : BeamData Qc) (supports : Support Qc) (loads : Loads Qc) :
  (0 < length beamData)%Qc ->
  validateSupports (convertSupportsToBaseUnits supports (u_length (units beamData)))
    (convertLength (length beamData) (u_length (units beamData)) (u_length BASE_UNITS))
  = true ->
  isValid (calculateBeamAnalysis beamData supports loads) = true.
Proof.
  intros Hlen Hsup. unfold calculateBeamAnalysis.
  change (leb (length beamData) (ofZ 0)) with (Qc_leb (length beamData) (Qc_ofZ 0)).
  rewrite Qc_leb_false by exact Hlen. rewrite Hsup. cbn [negb].
  now rewrite calculateMomentSegments_total.
Qed.

Lemma fixed_is_valid (beamData : BeamData Qc) (supports : Support Qc) (loads : Loads Qc) :
  stype supports = Fixed -> (0 < length beamData)%Qc ->
  isValid (calculateBeamAnalysis beamData supports loads) = true.
Proof.
  intros Hs Hlen. apply valid_when; [exact Hlen|].
  unfold validateSupports, convertSupportsToBaseUnits. rewrite Hs. now rewrite Hs.
Qed.

(** The reactions of a valid analysis on a fixed support, for point loads and
    applied moments. *)
Lemma fixed_result_reactions
  (beamData : BeamData Qc) (supports : Support Qc) (loads : Loads Qc) :
  let r := calculateBeamAnalysis beamData supports loads in
  let fixed_x := fixed_x_of supports (length beamData) in
  stype supports = Fixed -> isValid r = true ->
  angled loads = [] -> udl loads = [] -> uvl loads = [] ->
  reactions r
  = [ mkReaction vertical "fixed" (Some fixed_x) (Some (- sumOfLoads loads)%Qc)
        None None;
      mkReaction moment_reaction "fixed" (Some fixed_x) None
        (Some (- (momentOfLoadsAbout fixed_x loads + sumOfAppliedMoments loads))%Qc)
        None ].
Proof.
  intros r fixed_x Hs Hvalid Ha Hu Hv. subst r.
  destruct (valid_result _ _ _ Hvalid) as (_ & _ & ->).
  cbn [reactions]. set (u := units beamData). fold (toBase u (length beamData)).
  unfold calculateReactions.
  replace (stype (convertSupportsToBaseUnits supports (u_length u))) with Fixed
    by (unfold convertSupportsToBaseUnits; now rewrite Hs).
  rewrite (base_fixed_x u supports _ Hs). fold fixed_x.
  rewrite (sumForces_points u loads fixed_x Ha Hu Hv), fold_addMomentLoad_totals.
  cbn [totalVerticalForce totalMomentAbout totalHorizontalForce].
  rewrite no_horizontalReaction.
  unfold convertReactionsToDisplayUnits.
  cbn [app map r_type r_at r_x r_R r_M r_H option_map].
  fold (toDisplay u (toBase u fixed_x)). rewrite toDisplay_toBase.
  rewrite moment_to_display, convertForce_to_display.
  unfold convertLoadsToBaseUnits. cbn [moment]. rewrite total_map. cbn [mom_M].
  rewrite (total_ext _ (fun x => (forceFactor (u_force u) * lengthFactor (u_length u)
                                  * mom_M x)%Qc))
    by (intros x; apply moment_to_base).
  rewrite total_scale. fold (sumOfAppliedMoments loads).
  cbn [neg QcNumber].
  pose proof (forceFactor_nonzero (u_force u)).
  pose proof (lengthFactor_nonzero (u_length u)).
  repeat f_equal; field; auto.
Qed.

(** X9: with point loads and applied moments only, a fixed support is given the
    vertical reaction minus the sum of the loads, and the moment reaction
    minus the moment of the loads about the support minus the applied
    moments, for every positive length and in every unit pair.  A downward
    (positive) load so gets a negative vertical reaction. *)
Theorem fixed_reactions_negate_the_loads
  (beamData : BeamData Qc) (supports : Support Qc) (loads : Loads Qc) :
  let r := calculateBeamAnalysis beamData supports loads in
  let fixed_x := fixed_x_of supports (length beamData) in
  stype supports = Fixed -> (0 < length beamData)%Qc ->
  angled loads = [] -> udl loads = [] -> uvl loads = [] ->
  isValid r = true
  /\ reactions r
     = [ mkReaction vertical "fixed" (Some fixed_x) (Some (- sumOfLoads loads)%Qc)
           None None;
         mkReaction moment_reaction "fixed" (Some fixed_x) None
           (Some (- (momentOfLoadsAbout fixed_x loads + sumOfAppliedMoments loads))%Qc)
           None ].
Proof.
  intros r fixed_x Hs Hlen Ha Hu Hv.
  pose proof (fixed_is_valid beamData supports loads Hs Hlen) as Hvalid.
  split; [exact Hvalid|].
  now apply fixed_result_reactions.
Qed.

(** X10: with point loads only, the two reactions of a valid pin+roller analysis
    balance the moments of the loads: about the pin, the roller reaction
    times its lever arm is the moment of the loads, and about the roller the
    same holds for the pin reaction.  Applied moments are not counted. *)
Theorem pin_roller_reactions_balance_moments
  (beamData : BeamData Qc) (supports : Support Qc) (loads : Loads Qc) :
  let r := calculateBeamAnalysis beamData supports loads in
  let pin := orElse (pin_x supports) 0%Qc in
  let roller := orElse (roller_x supports) (length beamData) in
  stype supports = PinRoller ->
  angled loads = [] -> udl loads = [] -> uvl loads = [] ->
  isValid r = true ->
  exists pinReaction rollerReaction,
    reactions r
    = [ mkReaction vertical "pin" (Some pin) (Some pinReaction) None None;
        mkReaction vertical "roller" (Some roller) (Some rollerReaction) None None ]
    /\ pin <> roller
    /\ (rollerReaction * (roller - pin))%Qc = momentOfLoadsAbout pin loads
    /\ (pinReaction * (pin - roller))%Qc = momentOfLoadsAbout roller loads
    /\ (pinReaction + rollerReaction)%Qc = sumOfLoads loads.
Proof.
  intros r pin roller Hs Ha Hu Hv Hvalid. subst r.
  destruct (valid_result _ _ _ Hvalid) as (_ & Hsup & ->).
  cbn [reactions]. set (u := units beamData) in *.
  fold (toBase u (length beamData)) in *.
  unfold validateSupports in Hsup. unfold calculateReactions.
  replace (stype (convertSupportsToBaseUnits supports (u_length u))) with PinRoller in *
    by (unfold convertSupportsToBaseUnits; now rewrite Hs).
  change (@ofZ Qc QcNumber 0%Z) with 0%Qc in *.
  rewrite (base_pin_x u supports Hs), (base_roller_x u supports _ Hs) in *.
  fold pin roller in Hsup |- *.
  assert (Hne : pin <> roller).
  { intros E. rewrite E in Hsup. cbn [strictEq QcNumber] in Hsup.
    destruct (Qc_eqb_spec (toBase u roller) (toBase u roller)) as [_|X]; [|now apply X].
    rewrite !andb_false_r in Hsup. discriminate. }
  rewrite (sumForces_points u loads pin Ha Hu Hv).
  cbn [totalVerticalForce totalMomentAbout totalHorizontalForce].
  rewrite no_horizontalReaction.
  unfold convertReactionsToDisplayUnits.
  cbn [app map r_type r_at r_x r_R r_M r_H option_map].
  fold (toDisplay u (toBase u pin)) (toDisplay u (toBase u roller)).
  rewrite !toDisplay_toBase, !convertForce_to_display.
  do 2 eexists. split; [reflexivity|]. split; [exact Hne|].
  rewrite !toBase_eq. cbn [sub div QcNumber].
  pose proof (forceFactor_nonzero (u_force u)) as Hf.
  pose proof (lengthFactor_nonzero (u_length u)) as Hl.
  assert (Hd : (roller - pin)%Qc <> 0%Qc).
  { intros E. apply Hne. replace roller with ((roller - pin) + pin)%Qc by ring.
    rewrite E. ring. }
  assert (Hsum : momentOfLoadsAbout roller loads
                 = (momentOfLoadsAbout pin loads - sumOfLoads loads * (roller - pin))%Qc).
  { unfold momentOfLoadsAbout, sumOfLoads. fold (total (@pt_P Qc) (point loads)).
    induction (point loads) as [|x l IH]; [cbn; ring|]. rewrite !total_cons, IH. ring. }
  rewrite Hsum.
  generalize (momentOfLoadsAbout pin loads) (sumOfLoads loads). intros m p.
  repeat split; field; repeat split; auto;
    intros E; apply Hd;
    replace (roller - pin)%Qc
      with ((roller * lengthFactor (u_length u) - pin * lengthFactor (u_length u))
            / lengthFactor (u_length u))%Qc by (field; auto);
    rewrite E; field; auto.
Qed.

End ReactionFacts.

(** ** The moment at a point *)

Section MomentAtPoint.
Context {T : Trig Qc} {S : Special Qc}.

Lemma total_plus {A} (g h : A -> Qc) (l : list A) :
  total (fun x => (g x + h x)%Qc) l = (total g l + total h l)%Qc.
Proof.
  induction l as [|x l IH]; [cbn; ring|]. rewrite !total_cons, IH. ring.
Qed.

Lemma total_minus {A} (g h : A -> Qc) (l : list A) :
  total (fun x => (g x - h x)%Qc) l = (total g l - total h l)%Qc.
Proof.
  induction l as [|x l IH]; [cbn; ring|]. rewrite !total_cons, IH. ring.
Qed.

Lemma total_opp {A} (g : A -> Qc) (l : list A) :
  total (fun x => (- g x)%Qc) l = (- total g l)%Qc.
Proof.
  induction l as [|x l IH]; [cbn; ring|]. rewrite !total_cons, IH. ring.
Qed.

Lemma total_ext_in {A} (g h : A -> Qc) (l : list A) :
  (forall x, In x l -> g x = h x) -> total g l = total h l.
Proof.
  induction l as [|x l IH]; intros E; [reflexivity|].
  rewrite !total_cons, IH, E; [reflexivity | now left | intros y Hy; apply E; now right].
Qed.

Lemma Qc_eqb_true (x y : Qc) : (x == y)%Q -> Qc_eq_bool x y = true.
Proof.
  intros H. destruct (Qc_eqb_spec x y) as [|Hn]; [reflexivity|].
  exfalso. apply Hn. now apply Qc_is_canon.
Qed.

Lemma Qc_eqb_false (x y : Qc) : ~ (x == y)%Q -> Qc_eq_bool x y = false.
Proof.
  intros H. destruct (Qc_eqb_spec x y) as [E|]; [|reflexivity].
  exfalso. apply H. now rewrite E.
Qed.

Lemma udl_at_point (x : Qc) (l : UDLLoad Qc) :
  (udl_a l <= udl_b l)%Qc ->
  (if Qc_ltb (udl_b l) x then
     - (udl_w l * (udl_b l - udl_a l) * (x - (udl_a l + udl_b l) / Qc_ofZ 2))
   else if Qc_ltb (udl_a l) x then
     - (udl_w l * (x - udl_a l) * (x - (udl_a l + (x - udl_a l) / Qc_ofZ 2)))
   else 0)%Qc
  = udlMoment x l.
Proof.
  destruct l as [lbl la lb w]. unfold udlMoment. cbn [udl_a udl_b udl_w].
  intros Hl. unfold Qcle in Hl.
  tri lb x; tri la x; unfold Qclt in *; subst; decide_cmp;
    try (qc_to_q; unfold inject_Z; field); try lra.
Qed.

Lemma uvl_at_point (x : Qc) (l : UVLLoad Qc) :
  (uvl_a l <= uvl_b l)%Qc ->
  (if Qc_ltb (uvl_b l) x then
     - ((uvl_w1 l + uvl_w2 l) * (uvl_b l - uvl_a l) / Qc_ofZ 2
        * (x - (uvl_a l + (uvl_w1 l + Qc_ofZ 2 * uvl_w2 l)
                          / (Qc_ofZ 3 * (uvl_w1 l + uvl_w2 l)) * (uvl_b l - uvl_a l))))
   else if Qc_ltb (uvl_a l) x then
     - ((uvl_w1 l + intensityAt l x) * (x - uvl_a l) / Qc_ofZ 2
        * (x - (uvl_a l + (uvl_w1 l + Qc_ofZ 2 * intensityAt l x)
                          / (Qc_ofZ 3 * (uvl_w1 l + intensityAt l x)) * (x - uvl_a l))))
   else 0)%Qc
  = uvlMoment x l.
Proof.
  intros Hl. unfold Qcle in Hl. unfold uvlMoment.
  tri (uvl_b l) x; tri (uvl_a l) x; unfold Qclt in *.
  all: try (exfalso; lra).
  all: try (decide_cmp; unfold Qcdiv; ring).
  - (* a < x = b *)
    assert (Hab : (uvl_a l < uvl_b l)%Q) by (rewrite e; assumption).
    rewrite <- e. decide_cmp. rewrite intensityAt_end by exact Hab. unfold Qcdiv. ring.
  - (* a = x = b *)
    rewrite <- e. rewrite <- e in e0. decide_cmp. rewrite e0. decide_cmp.
    unfold Qcdiv. ring.
  - (* a = x < b *)
    rewrite <- e in *. decide_cmp. reflexivity.
Qed.

Lemma calculateMomentAtPoint_total (x : Qc) (loads : Loads Qc)
  (reactions : list (Reaction Qc)) :
  Forall (fun sp => (fst sp <= snd sp)%Qc) (spans loads) ->
  calculateMomentAtPoint x loads reactions
  = (total (fun r => (reactionMoment x r - reactionCouple x r)%Qc) reactions
     + total (pointMoment x) (point loads) + total (angledMoment x) (angled loads)
     + total (udlMoment x) (udl loads) + total (uvlMoment x) (uvl loads)
     + total (fun m => (appliedMoment x m - appliedAt x m)%Qc) (moment loads))%Qc.
Proof.
  intros Hwf. rewrite Forall_forall in Hwf. unfold calculateMomentAtPoint.
  rewrite (fold_left_total _ (fun m => (appliedMoment x m - appliedAt x m)%Qc)).
  rewrite (fold_left_total _ (fun l =>
    (if Qc_ltb (uvl_b l) x then
       - ((uvl_w1 l + uvl_w2 l) * (uvl_b l - uvl_a l) / Qc_ofZ 2
          * (x - (uvl_a l + (uvl_w1 l + Qc_ofZ 2 * uvl_w2 l)
                            / (Qc_ofZ 3 * (uvl_w1 l + uvl_w2 l)) * (uvl_b l - uvl_a l))))
     else if Qc_ltb (uvl_a l) x then
       - ((uvl_w1 l + intensityAt l x) * (x - uvl_a l) / Qc_ofZ 2
          * (x - (uvl_a l + (uvl_w1 l + Qc_ofZ 2 * intensityAt l x)
                            / (Qc_ofZ 3 * (uvl_w1 l + intensityAt l x)) * (x - uvl_a l))))
     else 0)%Qc)).
  rewrite (fold_left_total _ (fun l =>
    (if Qc_ltb (udl_b l) x then
       - (udl_w l * (udl_b l - udl_a l) * (x - (udl_a l + udl_b l) / Qc_ofZ 2))
     else if Qc_ltb (udl_a l) x then
       - (udl_w l * (x - udl_a l) * (x - (udl_a l + (x - udl_a l) / Qc_ofZ 2)))
     else 0)%Qc)).
  rewrite (fold_left_total _ (angledMoment x)), (fold_left_total _ (pointMoment x)).
  rewrite (fold_left_total _ (fun r => (reactionMoment x r - reactionCouple x r)%Qc)).
  - rewrite (total_ext_in _ (udlMoment x) (udl loads))
      by (intros l Hl; apply udl_at_point, (Hwf _ (spans_In_udl loads l Hl))).
    rewrite (total_ext_in _ (uvlMoment x) (uvl loads))
      by (intros l Hl; apply uvl_at_point, (Hwf _ (spans_In_uvl loads l Hl))).
    qc_ops. ring.
  - intros M r. unfold reactionMoment, reactionCouple. qc_ops. by_cases; ring.
  - intros M l. unfold pointMoment. qc_ops. by_cases; ring.
  - intros M l. unfold angledMoment. qc_ops. by_cases; ring.
  - intros M l. cbn [leb ltb add sub mul div ofZ QcNumber]. by_cases; ring.
  - intros M l. unfold intensityAt. cbn [leb ltb add sub mul div ofZ QcNumber].
    by_cases; ring.
  - intros M l. unfold appliedMoment, appliedAt. qc_ops.
    destruct (Qc_ltb_spec (mom_x l) x) as [H|H]; unfold Qclt in H.
    + rewrite Qc_leb_true, Qc_eqb_false by lra. ring.
    + destruct (Qc_eqb_spec (mom_x l) x) as [->|Hn].
      * rewrite Qc_leb_true by lra. ring.
      * rewrite Qc_leb_false; [ring|].
        destruct (Qc_tri (mom_x l) x) as [[H'|H']|H']; unfold Qclt in *;
          [lra | contradiction | exact H'].
Qed.

(** X11: the point evaluation used by the extrema search is the start-value
    formula of the moment segments at the same position, without the moment
    reactions at or left of it and without the applied moments standing
    exactly at it (for distributed loads with a <= b). *)
Theorem moment_at_point_agrees_with_segments (x : Qc) (loads : Loads Qc)
  (reactions : list (Reaction Qc)) :
  Forall (fun sp => (fst sp <= snd sp)%Qc) (spans loads) ->
  calculateMomentAtPoint x loads reactions
  = (momentStart loads reactions x - total (reactionCouple x) reactions
     - total (appliedAt x) (moment loads))%Qc.
Proof.
  intros Hwf. rewrite (calculateMomentAtPoint_total x loads reactions Hwf), momentStart_total.
  rewrite !total_minus. ring.
Qed.

End MomentAtPoint.

(** ** The shear across an event *)

Section ShearJumps.
Context {T : Trig Qc} {S : Special Qc}.

Lemma total_step2 {A} (vb va j t1 t2 : A -> Qc) (d : Qc) (l : list A) :
  (forall x, In x l -> vb x = (va x + j x + t1 x * d + t2 x * d * d)%Qc) ->
  total vb l = (total va l + total j l + total t1 l * d + total t2 l * d * d)%Qc.
Proof.
  induction l as [|x l IH]; intros H; [cbn; ring|].
  rewrite !total_cons, IH by (intros y Hy; apply H; now right).
  rewrite (H x) by now left. ring.
Qed.

Lemma reaction_shear_step (a b : Qc) (r : Reaction Qc) :
  (a < b)%Qc -> (forall x, r_x r = Some x -> outside a b x) ->
  reactionShear b r = (reactionShear a r + reactionAt b r)%Qc.
Proof.
  unfold outside, reactionShear, reactionAt. generalize (orElse (r_R r) 0%Qc).
  destruct r as [ty at_ [x|] R M H]; cbn [r_type r_x]; intros vR Hab Hx;
    destruct ty; try ring; specialize (Hx x eq_refl); unfold Qclt, Qcle in *;
    tri x a; tri x b; unfold Qclt in *; subst;
    try (exfalso; destruct Hx; lra);
    first [rewrite (Qc_eqb_true _ _) by lra | rewrite (Qc_eqb_false _ _) by lra];
    decide_cmp; ring.
Qed.

Lemma point_shear_step (a b : Qc) (l : PointLoad Qc) :
  (a < b)%Qc -> outside a b (pt_x l) ->
  pointShear b l = (pointShear a l + - pointLoadAt b l)%Qc.
Proof.
  destruct l as [lbl x P]. unfold outside, pointShear, pointLoadAt. cbn [pt_x pt_P].
  intros Hab Hx. unfold Qclt, Qcle in *.
  tri x a; tri x b; unfold Qclt in *; subst;
    try (exfalso; destruct Hx; lra);
    first [rewrite (Qc_eqb_true _ _) by lra | rewrite (Qc_eqb_false _ _) by lra];
    decide_cmp; ring.
Qed.

Lemma angled_shear_step (a b : Qc) (l : AngledLoad Qc) :
  (a < b)%Qc -> outside a b (ang_x l) ->
  angledShear b l = (angledShear a l + - angledLoadAt b l)%Qc.
Proof.
  unfold outside, angledShear, angledLoadAt. generalize (Py_of l).
  destruct l as [lbl x P th]. cbn [ang_x].
  intros Py Hab Hx. unfold Qclt, Qcle in *.
  tri x a; tri x b; unfold Qclt in *; subst;
    try (exfalso; destruct Hx; lra);
    first [rewrite (Qc_eqb_true _ _) by lra | rewrite (Qc_eqb_false _ _) by lra];
    decide_cmp; ring.
Qed.

Lemma udl_shear_step (a b : Qc) (l : UDLLoad Qc) :
  (a < b)%Qc ->
  (udl_a l < udl_b l)%Qc -> outside a b (udl_a l) -> outside a b (udl_b l) ->
  udlShear b l = (udlShear a l + udlTerm a b l * (b - a))%Qc.
Proof.
  destruct l as [lbl la lb w].
  unfold outside, udlShear, udlTerm, udlActive. cbn [udl_a udl_b udl_w].
  intros Hab Hl Ha Hb. unfold Qclt, Qcle in *.
  assert (Hcases : ((lb <= a)%Q \/ (b <= la)%Q)
                   \/ (((la < a)%Q \/ la = a) /\ ((b < lb)%Q \/ b = lb))).
  { destruct Hb as [Hb|Hb]; [now left; left|].
    destruct Ha as [Ha|Ha]; [|now left; right].
    right. split; now apply Qc_le_cases. }
  clear Ha Hb.
  destruct Hcases as [[H|H]|[[H1|H1] [H2|H2]]]; subst; decide_cmp; ring.
Qed.

Lemma uvl_shear_step (a b : Qc) (l : UVLLoad Qc) :
  (a < b)%Qc ->
  (uvl_a l < uvl_b l)%Qc -> outside a b (uvl_a l) -> outside a b (uvl_b l) ->
  uvlShear b l
  = (uvlShear a l + uvlTerm1 a b l * (b - a) + uvlTerm2 a b l * (b - a) * (b - a))%Qc.
Proof.
  unfold outside. intros Hab Hl Ha Hb. unfold Qclt, Qcle in *.
  assert (Hcases : ((uvl_b l <= a)%Q \/ (b <= uvl_a l)%Q)
                   \/ ((uvl_a l <= a)%Q /\ (b <= uvl_b l)%Q)).
  { destruct Hb as [Hb|Hb]; [now left; left|].
    destruct Ha as [Ha|Ha]; [now right | now left; right]. }
  clear Ha Hb. destruct Hcases as [H|[H1 H2]].
  - destruct (uvlTerms_inactive l a b H) as [-> ->].
    destruct H as [H|H].
    + rewrite !uvlShear_left by lra. ring.
    + rewrite !uvlShear_right by lra. ring.
  - destruct (uvlTerms_active l Hl a b H1 Hab H2) as [-> ->].
    rewrite !uvlShear_inside by (assumption || lra).
    rewrite (intensityAt_slope l a), (intensityAt_slope l b).
    generalize ((uvl_w2 l - uvl_w1 l) / (uvl_b l - uvl_a l))%Qc. intros s.
    qc_to_q. unfold inject_Z in *. field. lra.
Qed.

(** The end value of the shear segment over [a, b], when at most one
    distributed load is active there. *)
Lemma shearSegment_end (loads : Loads Qc) (reactions : list (Reaction Qc)) (a b : Qc) :
  (List.length (filter (udlActive a b) (udl loads))
   + List.length (filter (uvlActive a b) (uvl loads)) <= 1)%nat ->
  V_b (shearSegment loads reactions a b)
  = Some (shearStart loads reactions a
          + (total (udlTerm a b) (udl loads) + total (uvlTerm1 a b) (uvl loads)) * (b - a)
          + total (uvlTerm2 a b) (uvl loads) * (b - a) * (b - a))%Qc.
Proof.
  intros Hcount.
  unfold udlTerm, uvlTerm1, uvlTerm2. rewrite !total_filter.
  unfold shearSegment, classify.
  change (@ofZ Qc QcNumber 0%Z) with 0%Qc.
  rewrite checkUDL_filter, checkUVL_filter.
  destruct (filter (udlActive a b) (udl loads)) as [|u [|u' us]] eqn:Eu;
    destruct (filter (uvlActive a b) (uvl loads)) as [|v [|v' vs]] eqn:Ev;
    cbn [List.length] in Hcount; try lia; clear Hcount.
  - cbn [fold_left noActive shearCoeffs hasUVL hasUDL segmentType V_b total fold_right].
    f_equal. ring.
  - assert (Hv : uvlActive a b v = true).
    { assert (In v (filter (uvlActive a b) (uvl loads))) by (rewrite Ev; now left).
      now apply filter_In in H. }
    unfold uvlActive in Hv. cbn [fold_left noActive]. unfold checkUVL.
    change (ltb (uvl_a v) b && ltb a (uvl_b v)) with (Qc_ltb (uvl_a v) b && Qc_ltb a (uvl_b v)).
    rewrite Hv.
    cbn [shearCoeffs hasUVL hasUDL segmentType V_b idx nth total fold_right uvlW1 uvlW2].
    fold (uvlW1of a v) (uvlW2of b v).
    qc_ops. f_equal. unfold Qcdiv. ring.
  - assert (Hu : udlActive a b u = true).
    { assert (In u (filter (udlActive a b) (udl loads))) by (rewrite Eu; now left).
      now apply filter_In in H. }
    unfold udlActive in Hu. cbn [fold_left noActive]. unfold checkUDL.
    change (ltb (udl_a u) b && ltb a (udl_b u)) with (Qc_ltb (udl_a u) b && Qc_ltb a (udl_b u)).
    rewrite Hu.
    cbn [shearCoeffs hasUVL hasUDL segmentType V_b idx nth total fold_right udlRate noActive].
    qc_ops. f_equal. ring.
Qed.

Lemma nth_calculateShearSegments (loads : Loads Qc) (reactions : list (Reaction Qc))
  (ev : list Qc) : forall i s,
  nth_error (calculateShearSegments loads reactions ev) i = Some s ->
  exists a b, nth_error ev i = Some a /\ nth_error ev (Datatypes.S i) = Some b /\
    s = shearSegment loads reactions a b.
Proof.
  induction ev as [|x ev IH]; intros i s H; [destruct i; discriminate|].
  destruct ev as [|y ev]; [destruct i; discriminate|].
  rewrite calculateShearSegments_cons in H. destruct i as [|i].
  - cbn in H. injection H as <-. exists x, y. auto.
  - cbn [nth_error] in H. destruct (IH i s H) as (a & b & Ha & Hb & ->).
    exists a, b. auto.
Qed.

(** The shear at an event [b], seen from the segment that ends there. *)
Lemma shear_across_event (loads : Loads Qc) (reactions : list (Reaction Qc)) (a b : Qc) :
  (a < b)%Qc ->
  (forall p, In p (loadPositions loads) -> outside a b p) ->
  (forall r x, In r reactions -> r_x r = Some x -> outside a b x) ->
  Forall (fun sp => (fst sp < snd sp)%Qc) (spans loads) ->
  ForallOrdPairs apart (spans loads) ->
  exists Vb, V_b (shearSegment loads reactions a b) = Some Vb
    /\ shearStart loads reactions b = (Vb + pointForcesAt b loads reactions)%Qc.
Proof.
  intros Hab Hpos Hreact Hwf Hap. rewrite Forall_forall in Hwf.
  rewrite shearSegment_end.
  2:{ apply one_active_load; [exact Hab | exact Hap |].
      apply Forall_forall. intros sp Hsp.
      destruct (spans_positions loads sp Hsp). split; now apply Hpos. }
  eexists. split; [reflexivity|].
  rewrite (shearStart_total loads reactions b), (shearStart_total loads reactions a).
  unfold pointForcesAt.
  rewrite (total_step2 (reactionShear b) (reactionShear a) (reactionAt b)
             (@zeroTerm _) (@zeroTerm _) (b - a)%Qc reactions).
  2:{ intros r Hr. rewrite (reaction_shear_step a b r Hab).
      - unfold zeroTerm. ring.
      - intros x Hx. eapply Hreact; eassumption. }
  rewrite (total_step2 (pointShear b) (pointShear a) (fun l => (- pointLoadAt b l)%Qc)
             (@zeroTerm _) (@zeroTerm _) (b - a)%Qc (point loads)).
  2:{ intros l Hl. rewrite (point_shear_step a b l Hab).
      - unfold zeroTerm. ring.
      - apply Hpos. unfold loadPositions. apply in_or_app. left. now apply in_map. }
  rewrite (total_step2 (angledShear b) (angledShear a) (fun l => (- angledLoadAt b l)%Qc)
             (@zeroTerm _) (@zeroTerm _) (b - a)%Qc (angled loads)).
  2:{ intros l Hl. rewrite (angled_shear_step a b l Hab).
      - unfold zeroTerm. ring.
      - apply Hpos. unfold loadPositions. apply in_or_app. right.
        apply in_or_app. left. now apply in_map. }
  rewrite (total_step2 (udlShear b) (udlShear a) (@zeroTerm _)
             (udlTerm a b) (@zeroTerm _) (b - a)%Qc (udl loads)).
  2:{ intros l Hl. pose proof (spans_In_udl loads l Hl) as Hsp.
      destruct (spans_positions loads _ Hsp) as [P1 P2].
      rewrite (udl_shear_step a b l Hab (Hwf _ Hsp) (Hpos _ P1) (Hpos _ P2)).
      unfold zeroTerm. ring. }
  rewrite (total_step2 (uvlShear b) (uvlShear a) (@zeroTerm _)
             (uvlTerm1 a b) (uvlTerm2 a b) (b - a)%Qc (uvl loads)).
  2:{ intros l Hl. pose proof (spans_In_uvl loads l Hl) as Hsp.
      destruct (spans_positions loads _ Hsp) as [P1 P2].
      rewrite (uvl_shear_step a b l Hab (Hwf _ Hsp) (Hpos _ P1) (Hpos _ P2)).
      unfold zeroTerm. ring. }
  rewrite !total_zero.
  rewrite !total_opp. ring.
Qed.

Lemma display_shear_nth (segments : list (DiagramSegment Qc)) u i s :
  nth_error (convertSegmentsToDisplayUnits segments u) i = Some s ->
  exists s0, nth_error segments i = Some s0 /\
    seg_a s = toDisplay u (seg_a s0) /\ seg_b s = toDisplay u (seg_b s0) /\
    V_a s = option_map (fun v => convertForce v (u_force BASE_UNITS) (u_force u)) (V_a s0) /\
    V_b s = option_map (fun v => convertForce v (u_force BASE_UNITS) (u_force u)) (V_b s0).
Proof.
  unfold convertSegmentsToDisplayUnits. rewrite nth_error_map.
  destruct (nth_error segments i) as [s0|]; [|discriminate].
  cbn [option_map]. intros [= <-]. exists s0. cbn. auto.
Qed.

Lemma toDisplay_inj u (x y : Qc) : toDisplay u x = toDisplay u y -> x = y.
Proof.
  intros H. rewrite <- (toBase_toDisplay u x), <- (toBase_toDisplay u y). now rewrite H.
Qed.

Lemma Qc_eq_bool_toDisplay u (x y : Qc) :
  Qc_eq_bool (toDisplay u x) (toDisplay u y) = Qc_eq_bool x y.
Proof.
  destruct (Qc_eqb_spec x y) as [->|Hn].
  - apply Qc_eqb_true. reflexivity.
  - destruct (Qc_eqb_spec (toDisplay u x) (toDisplay u y)) as [E|]; [|reflexivity].
    apply toDisplay_inj in E. contradiction.
Qed.

Lemma Qc_eq_bool_toBase u (x y : Qc) :
  Qc_eq_bool (toBase u x) y = Qc_eq_bool x (toDisplay u y).
Proof.
  rewrite <- (Qc_eq_bool_toDisplay u (toBase u x) y). now rewrite toDisplay_toBase.
Qed.

Lemma reactionAt_display u (b : Qc) (r : Reaction Qc) :
  reactionAt (toDisplay u b) (nth 0 (convertReactionsToDisplayUnits [r] u) r)
  = (reactionAt b r / forceFactor (u_force u))%Qc.
Proof.
  cbn [convertReactionsToDisplayUnits map nth]. unfold reactionAt. cbn [r_type r_x r_R].
  destruct (r_type r); try (unfold Qcdiv; ring).
  destruct (r_x r) as [p|]; cbn [option_map]; [|unfold Qcdiv; ring].
  fold (toDisplay u p). rewrite Qc_eq_bool_toDisplay.
  destruct (Qc_eq_bool p b); [|unfold Qcdiv; ring].
  destruct (r_R r) as [R|]; cbn [option_map]; [|cbn; unfold Qcdiv; ring].
  now rewrite !orElse_Some_0, convertForce_to_display.
Qed.

Lemma pointForcesAt_display u (b : Qc) (loads : Loads Qc) (reactions : list (Reaction Qc)) :
  pointForcesAt b (convertLoadsToBaseUnits loads u) reactions
  = (forceFactor (u_force u)
     * pointForcesAt (toDisplay u b) loads (convertReactionsToDisplayUnits reactions u))%Qc.
Proof.
  unfold pointForcesAt.
  assert (Hr : total (reactionAt b) reactions
               = (forceFactor (u_force u)
                  * total (reactionAt (toDisplay u b))
                      (convertReactionsToDisplayUnits reactions u))%Qc).
  { unfold convertReactionsToDisplayUnits. rewrite total_map, <- total_scale.
    apply total_ext. intros r. pose proof (reactionAt_display u b r) as H.
    cbn [convertReactionsToDisplayUnits map nth] in H. rewrite H.
    field. apply forceFactor_nonzero. }
  assert (Hp : total (pointLoadAt b) (point (convertLoadsToBaseUnits loads u))
               = (forceFactor (u_force u)
                  * total (pointLoadAt (toDisplay u b)) (point loads))%Qc).
  { unfold convertLoadsToBaseUnits. cbn [point]. rewrite total_map, <- total_scale.
    apply total_ext. intros l. unfold pointLoadAt. cbn [pt_x pt_P].
    fold (toBase u (pt_x l)). rewrite Qc_eq_bool_toBase, convertForce_to_base.
    destruct (Qc_eq_bool _ _); ring. }
  assert (Ha : total (angledLoadAt b) (angled (convertLoadsToBaseUnits loads u))
               = (forceFactor (u_force u)
                  * total (angledLoadAt (toDisplay u b)) (angled loads))%Qc).
  { unfold convertLoadsToBaseUnits. cbn [angled]. rewrite total_map, <- total_scale.
    apply total_ext. intros l. unfold angledLoadAt, Py_of. cbn [ang_x ang_P ang_theta_deg].
    fold (toBase u (ang_x l)). rewrite Qc_eq_bool_toBase, convertForce_to_base.
    cbn [mul div QcNumber]. destruct (Qc_eq_bool _ _); ring. }
  rewrite Hr, Hp, Ha. ring.
Qed.

(** X12: across an event the shear of a valid result changes by the point forces
    standing there, and by nothing else: V_a of a segment is V_b of the
    segment before it, plus the vertical reactions, minus the point loads
    and the vertical parts of the angled loads at their shared end.  This
    holds when the distributed loads have a < b and no two of them overlap. *)
Theorem shear_jumps_by_the_point_forces
  (beamData : BeamData Qc) (supports : Support Qc) (loads : Loads Qc)
  (i : nat) (s s' : DiagramSegment Qc) :
  let result := calculateBeamAnalysis beamData supports loads in
  isValid result = true ->
  nth_error (V_segments result) i = Some s ->
  nth_error (V_segments result) (Datatypes.S i) = Some s' ->
  Forall (fun sp => (fst sp < snd sp)%Qc) (spans loads) ->
  ForallOrdPairs apart (spans loads) ->
  exists Vb Va,
    V_b s = Some Vb /\ V_a s' = Some Va
    /\ Va = (Vb + pointForcesAt (seg_b s) loads (reactions result))%Qc.
Proof.
  intros result Hvalid. subst result.
  destruct (valid_result _ _ _ Hvalid) as (_ & _ & ->). clear Hvalid.
  set (u := units beamData).
  fold (toBase u (length beamData)).
  set (baseLength := toBase u (length beamData)).
  set (baseLoads := convertLoadsToBaseUnits loads u).
  set (baseSupports := convertSupportsToBaseUnits supports (u_length u)).
  set (reacts := calculateReactions baseLoads baseSupports baseLength).
  set (ev := generateEvents baseLoads baseSupports baseLength).
  cbn [V_segments reactions].
  intros Hi Hi' Hwf Hap.
  destruct (display_shear_nth _ _ _ _ Hi) as (s0 & Hs0 & _ & Eb & _ & ->).
  destruct (display_shear_nth _ _ _ _ Hi') as (s0' & Hs0' & _ & _ & -> & _).
  destruct (nth_calculateShearSegments _ _ _ _ _ Hs0) as (a & b & Ha & Hb & ->).
  destruct (nth_calculateShearSegments _ _ _ _ _ Hs0') as (b' & c & Hb' & Hc & ->).
  rewrite Hb in Hb'. injection Hb' as <-.
  assert (Hin : forall x, In x ev <-> In x (eventPositions baseLoads baseSupports baseLength))
    by apply generateEvents_In.
  destruct (consecutive_events ev i a b (generateEvents_sorted _ _ _) Ha Hb) as [Hab Hout].
  destruct (shear_across_event baseLoads reacts a b Hab) as (Vb & HVb & Hstep).
  - intros p Hp. apply Hout, Hin. rewrite eventPositions_eq.
    apply in_or_app. right. apply in_or_app. now right.
  - intros r x Hr Hx. apply Hout, Hin. rewrite eventPositions_eq.
    apply in_or_app. right. apply in_or_app. left.
    eapply reactions_at_supports; eassumption.
  - unfold baseLoads. rewrite spans_base. apply Forall_map.
    eapply Forall_impl; [|exact Hwf]. intros sp H. cbn [fst snd].
    now apply toBase_lt.
  - unfold baseLoads. rewrite spans_base.
    eapply ForallOrdPairs_map; [|exact Hap].
    intros x y [H|H]; [left | right]; cbn [fst snd]; now apply toBase_le.
  - rewrite HVb. unfold shearSegment at 1. cbn [V_a option_map].
    do 2 eexists. split; [reflexivity|]. split; [reflexivity|].
    change (seg_b (shearSegment baseLoads reacts a b)) with b in Eb.
    rewrite Hstep, Eb. unfold baseLoads at 1. rewrite pointForcesAt_display.
    rewrite !convertForce_to_display. field. apply forceFactor_nonzero.
Qed.

End ShearJumps.

(** ** The moment at the end of a segment *)

Section MomentEnds.
Context {T : Trig Qc} {S : Special Qc}.

Lemma total_step_jump {A} (mb ma j v t1 t2 : A -> Qc) (d : Qc) (l : list A) :
  (forall x, In x l ->
     mb x = (ma x + j x + v x * d + t1 x / Qc_ofZ 2 * d * d
             + t2 x / Qc_ofZ 3 * d * d * d)%Qc) ->
  total mb l
  = (total ma l + total j l + total v l * d + total t1 l / Qc_ofZ 2 * d * d
     + total t2 l / Qc_ofZ 3 * d * d * d)%Qc.
Proof.
  induction l as [|x l IH]; intros H; [cbn; unfold Qcdiv; ring|].
  rewrite !total_cons, IH by (intros y Hy; apply H; now right).
  rewrite (H x) by now left. unfold Qcdiv. ring.
Qed.

Lemma applied_jump (a b : Qc) (l : MomentLoad Qc) :
  (a < b)%Qc -> outside a b (mom_x l) ->
  appliedMoment b l = (appliedMoment a l + appliedAt b l)%Qc.
Proof.
  destruct l as [lbl x M]. unfold outside, appliedMoment, appliedAt. cbn [mom_x mom_M].
  intros Hab Hx. unfold Qclt, Qcle in *.
  tri x a; tri x b; unfold Qclt in *; subst;
    try (exfalso; destruct Hx; lra);
    first [rewrite (Qc_eqb_true _ _) by lra | rewrite (Qc_eqb_false _ _) by lra];
    decide_cmp; ring.
Qed.

Lemma reaction_jump (a b : Qc) (r : Reaction Qc) :
  (a < b)%Qc ->
  (forall x, r_x r = Some x -> outside a b x) ->
  reactionMoment b r
  = (reactionMoment a r + (reactionCouple b r - reactionCouple a r)
     + reactionShear a r * (b - a))%Qc.
Proof.
  unfold outside, reactionMoment, reactionShear, reactionCouple.
  generalize (orElse (r_R r) 0%Qc). generalize (orElse (r_M r) 0%Qc).
  destruct r as [ty at_ [x|] R M H]; cbn [r_type r_x]; intros vM vR Hab Hx;
    destruct ty; try ring; specialize (Hx x eq_refl); unfold Qclt, Qcle in *;
    tri x a; tri x b; unfold Qclt in *; subst;
    try (exfalso; destruct Hx; lra); decide_cmp; ring.
Qed.

(** The moment at an event [b], seen from the segment that ends there. *)
Lemma moment_across_event (loads : Loads Qc) (reactions : list (Reaction Qc)) (a b : Qc) :
  (a < b)%Qc ->
  (forall p, In p (loadPositions loads) -> outside a b p) ->
  (forall r x, In r reactions -> r_x r = Some x -> outside a b x) ->
  Forall (fun sp => (fst sp < snd sp)%Qc) (spans loads) ->
  ForallOrdPairs apart (spans loads) ->
  (forall l, In l (uvl loads) -> regularAt a l /\ regularAt b l) ->
  exists Mb,
    M_b (momentSegment loads reactions a b (shearSegment loads reactions a b)) = Some Mb
    /\ momentStart loads reactions b
       = (Mb + (total (reactionCouple b) reactions - total (reactionCouple a) reactions)
          + total (appliedAt b) (moment loads))%Qc.
Proof.
  intros Hab Hpos Hreact Hwf Hap Hreg. rewrite Forall_forall in Hwf.
  rewrite momentSegment_end.
  2:{ apply one_active_load; [exact Hab | exact Hap |].
      apply Forall_forall. intros sp Hsp.
      destruct (spans_positions loads sp Hsp). split; now apply Hpos. }
  eexists. split; [reflexivity|].
  rewrite (momentStart_total loads reactions b), (momentStart_total loads reactions a),
    shearStart_total.
  rewrite (total_step_jump (reactionMoment b) (reactionMoment a)
             (fun r => (reactionCouple b r - reactionCouple a r)%Qc) (reactionShear a)
             (@zeroTerm _) (@zeroTerm _) (b - a)%Qc reactions).
  2:{ intros r Hr. rewrite (reaction_jump a b r Hab).
      - unfold zeroTerm, Qcdiv. ring.
      - intros x Hx. eapply Hreact; eassumption. }
  rewrite (total_step (pointMoment b) (pointMoment a) (pointShear a)
             (@zeroTerm _) (@zeroTerm _) (b - a)%Qc (point loads)).
  2:{ intros l Hl. rewrite (point_step a b l Hab).
      - unfold zeroTerm, Qcdiv. ring.
      - apply Hpos. unfold loadPositions. apply in_or_app. left. now apply in_map. }
  rewrite (total_step (angledMoment b) (angledMoment a) (angledShear a)
             (@zeroTerm _) (@zeroTerm _) (b - a)%Qc (angled loads)).
  2:{ intros l Hl. rewrite (angled_step a b l Hab).
      - unfold zeroTerm, Qcdiv. ring.
      - apply Hpos. unfold loadPositions. apply in_or_app. right.
        apply in_or_app. left. now apply in_map. }
  rewrite (total_step (udlMoment b) (udlMoment a) (udlShear a)
             (udlTerm a b) (@zeroTerm _) (b - a)%Qc (udl loads)).
  2:{ intros l Hl. pose proof (spans_In_udl loads l Hl) as Hsp.
      destruct (spans_positions loads _ Hsp) as [P1 P2].
      rewrite (udl_step a b l Hab (Hwf _ Hsp) (Hpos _ P1) (Hpos _ P2)).
      unfold zeroTerm, Qcdiv. ring. }
  rewrite (total_step (uvlMoment b) (uvlMoment a) (uvlShear a)
             (uvlTerm1 a b) (uvlTerm2 a b) (b - a)%Qc (uvl loads)).
  2:{ intros l Hl. pose proof (spans_In_uvl loads l Hl) as Hsp.
      destruct (spans_positions loads _ Hsp) as [P1 P2].
      destruct (Hreg l Hl) as [Ra Rb].
      apply (uvl_step a b l Hab (Hwf _ Hsp) (Hpos _ P1) (Hpos _ P2) Ra Rb). }
  rewrite (total_step_jump (appliedMoment b) (appliedMoment a) (appliedAt b)
             (@zeroTerm _) (@zeroTerm _) (@zeroTerm _) (b - a)%Qc (moment loads)).
  2:{ intros l Hl. rewrite (applied_jump a b l Hab).
      - unfold zeroTerm, Qcdiv. ring.
      - apply Hpos. unfold loadPositions. do 4 (apply in_or_app; right). now apply in_map. }
  rewrite !total_zero.
  rewrite total_minus. unfold Qcdiv. ring.
Qed.

(** X13: the end value M_b of every moment segment is the point evaluation
    [calculateMomentAtPoint] at the end of the segment, plus the moment
    reactions at or left of its start (which the point evaluation leaves
    out): for the events and reactions the engine computes from the loads,
    when the distributed loads have a < b and do not overlap and the divisor of
    the centroid formula is not zero at any event. *)
Theorem moment_segments_end_at_the_point_evaluation
  (loads : Loads Qc) (supports : Support Qc) (length : Qc) :
  let reactions := calculateReactions loads supports length in
  let events := generateEvents loads supports length in
  Forall (fun sp => (fst sp < snd sp)%Qc) (spans loads) ->
  ForallOrdPairs apart (spans loads) ->
  (forall l x, In l (uvl loads) -> In x events -> regularAt x l) ->
  exists M_segments,
    calculateMomentSegments (calculateShearSegments loads reactions events)
      loads reactions events = inr M_segments
    /\ Forall (fun s =>
                 M_b s = Some (calculateMomentAtPoint (seg_b s) loads reactions
                               + total (reactionCouple (seg_a s)) reactions)%Qc)
         M_segments.
Proof.
  intros reactions events Hwf Hap Hreg.
  rewrite calculateMomentSegments_total. eexists. split; [reflexivity|].
  apply Forall_forall. intros s Hs. apply In_nth_error in Hs. destruct Hs as [i Hi].
  destruct (nth_momentSegmentsOf _ _ _ _ _ Hi) as (a & b & Ha & Hb & ->).
  assert (Hin : forall x, In x events <-> In x (eventPositions loads supports length))
    by apply generateEvents_In.
  destruct (consecutive_events events i a b (generateEvents_sorted _ _ _) Ha Hb)
    as [Hab Hout].
  destruct (moment_across_event loads reactions a b Hab) as (Mb & HMb & Hstep);
    try assumption.
  - intros p Hp. apply Hout, Hin. rewrite eventPositions_eq.
    apply in_or_app. right. apply in_or_app. now right.
  - intros r x Hr Hx. apply Hout, Hin. rewrite eventPositions_eq.
    apply in_or_app. right. apply in_or_app. left.
    eapply reactions_at_supports; eassumption.
  - intros l Hl. split; apply Hreg; try assumption; eapply nth_error_In; eassumption.
  - rewrite HMb.
    destruct (momentSegment_start loads reactions a b (shearSegment loads reactions a b))
      as (_ & -> & ->).
    assert (E : calculateMomentAtPoint b loads reactions
                = (momentStart loads reactions b - total (reactionCouple b) reactions
                   - total (appliedAt b) (moment loads))%Qc).
    { rewrite calculateMomentAtPoint_total, momentStart_total.
      - rewrite !total_minus. ring.
      - eapply Forall_impl; [|exact Hwf]. intros sp H. now apply Qclt_le_weak. }
    rewrite E, Hstep. f_equal. ring.
Qed.

End MomentEnds.

(** ** The moment diagram of a simply supported beam *)

Section Closure.
Context {T : Trig Qc} {S : Special Qc}.

Lemma fold_addAngledLoad_totals (x0 : Qc) (l : list (AngledLoad Qc)) : forall t,
  fold_left (addAngledLoad x0) l t
  = mkTotals (totalVerticalForce t + total Py_of l)%Qc
      (totalMomentAbout t + total (fun load => (Py_of load * (ang_x load - x0))%Qc) l)%Qc
      (totalHorizontalForce t + total Px_of l)%Qc.
Proof.
  induction l as [|load l IH]; intros [v m h]; cbn [fold_left].
  - cbn. f_equal; ring.
  - rewrite IH. rewrite !total_cons.
    cbn [addAngledLoad totalVerticalForce totalMomentAbout totalHorizontalForce].
    cbv zeta. cbn [totalVerticalForce totalMomentAbout totalHorizontalForce
                   add sub mul QcNumber]. f_equal; ring.
Qed.

Lemma fold_addUDLLoad_totals (x0 : Qc) (l : list (UDLLoad Qc)) : forall t,
  fold_left (addUDLLoad x0) l t
  = mkTotals
      (totalVerticalForce t + total (fun load => (udl_w load * (udl_b load - udl_a load))%Qc) l)%Qc
      (totalMomentAbout t
       + total (fun load => (udl_w load * (udl_b load - udl_a load)
                             * ((udl_a load + udl_b load) / Qc_ofZ 2 - x0))%Qc) l)%Qc
      (totalHorizontalForce t).
Proof.
  induction l as [|load l IH]; intros [v m h]; cbn [fold_left].
  - cbn. f_equal; ring.
  - rewrite IH. rewrite !total_cons.
    cbn [addUDLLoad totalVerticalForce totalMomentAbout totalHorizontalForce].
    cbv zeta. cbn [totalVerticalForce totalMomentAbout totalHorizontalForce
                   add sub mul div ofZ QcNumber]. f_equal; ring.
Qed.

Lemma point_moment_about (E x0 : Qc) (l : list (PointLoad Qc)) :
  (forall load, In load l -> (pt_x load <= E)%Qc) ->
  total (pointMoment E) l
  = (total (fun load => (pt_P load * (pt_x load - x0))%Qc) l
     - (E - x0) * total (@pt_P Qc) l)%Qc.
Proof.
  induction l as [|load l IH]; intros H; [cbn; ring|].
  rewrite !total_cons, IH by (intros y Hy; apply H; now right).
  specialize (H load (or_introl eq_refl)). unfold pointMoment.
  destruct (Qc_ltb_spec (pt_x load) E) as [_|Hn]; [ring|].
  assert (pt_x load = E) as -> by (apply Qc_is_canon; unfold Qcle, Qclt in *; lra).
  ring.
Qed.

Lemma angled_moment_about (E x0 : Qc) (l : list (AngledLoad Qc)) :
  (forall load, In load l -> (ang_x load <= E)%Qc) ->
  total (angledMoment E) l
  = (total (fun load => (Py_of load * (ang_x load - x0))%Qc) l
     - (E - x0) * total Py_of l)%Qc.
Proof.
  induction l as [|load l IH]; intros H; [cbn; ring|].
  rewrite !total_cons, IH by (intros y Hy; apply H; now right).
  specialize (H load (or_introl eq_refl)). unfold angledMoment.
  destruct (Qc_ltb_spec (ang_x load) E) as [_|Hn]; [ring|].
  assert (ang_x load = E) as -> by (apply Qc_is_canon; unfold Qcle, Qclt in *; lra).
  ring.
Qed.

Lemma udl_moment_about (E x0 : Qc) (l : list (UDLLoad Qc)) :
  (forall load, In load l -> (udl_b load <= E)%Qc) ->
  total (udlMoment E) l
  = (total (fun load => (udl_w load * (udl_b load - udl_a load)
                         * ((udl_a load + udl_b load) / Qc_ofZ 2 - x0))%Qc) l
     - (E - x0) * total (fun load => (udl_w load * (udl_b load - udl_a load))%Qc) l)%Qc.
Proof.
  induction l as [|load l IH]; intros H; [cbn; ring|].
  rewrite !total_cons, IH by (intros y Hy; apply H; now right).
  specialize (H load (or_introl eq_refl)). unfold udlMoment.
  destruct (Qc_leb_spec (udl_b load) E) as [_|Hn]; [unfold Qcdiv; ring | contradiction].
Qed.

Lemma horizontal_moment (at_ : string) (t : Totals (num := Qc)) (x : Qc) :
  total (reactionMoment x) (horizontalReaction at_ t) = 0%Qc.
Proof.
  unfold horizontalReaction. destruct (ltb _ _); [|reflexivity].
  rewrite total_cons. unfold reactionMoment. cbn [r_type r_x total fold_right]. ring.
Qed.

(** The moment of all forces left of or at the largest event [E]: it
    vanishes by the two equilibrium equations the reactions solve. *)
Lemma momentStart_at_last (loads : Loads Qc) (supports : Support Qc) (length E : Qc) :
  stype supports = PinRoller ->
  uvl loads = [] -> moment loads = [] ->
  orElse (pin_x supports) 0%Qc <> orElse (roller_x supports) length ->
  (forall p, In p (eventPositions loads supports length) -> (p <= E)%Qc) ->
  momentStart loads (calculateReactions loads supports length) E = 0%Qc.
Proof.
  intros Hs Huvl Hmom Hne HE.
  assert (Hpx : (orElse (pin_x supports) 0%Qc <= E)%Qc).
  { apply HE. rewrite eventPositions_eq. unfold supportPositions. rewrite Hs.
    change (@ofZ Qc QcNumber 0%Z) with 0%Qc. cbn. auto. }
  assert (Hrx : (orElse (roller_x supports) length <= E)%Qc).
  { apply HE. rewrite eventPositions_eq. unfold supportPositions. rewrite Hs.
    cbn. auto. }
  assert (Hload : forall p, In p (loadPositions loads) -> (p <= E)%Qc).
  { intros p Hp. apply HE. rewrite eventPositions_eq.
    apply in_or_app. right. apply in_or_app. now right. }
  rewrite momentStart_total, Huvl, Hmom.
  unfold calculateReactions. rewrite Hs. change (@ofZ Qc QcNumber 0%Z) with 0%Qc.
  set (px := orElse (pin_x supports) 0%Qc) in *.
  set (rx := orElse (roller_x supports) length) in *.
  unfold sumForces. rewrite Huvl. cbn [fold_left].
  rewrite fold_addPointLoad_totals, fold_addAngledLoad_totals, fold_addUDLLoad_totals.
  cbn [totalVerticalForce totalMomentAbout totalHorizontalForce].
  change (@ofZ Qc QcNumber 0%Z) with 0%Qc.
  match goal with |- context [horizontalReaction ?at_ ?t] =>
    generalize (horizontal_moment at_ t E); generalize (horizontalReaction at_ t) end.
  intros hr Hhr.
  cbn [app]. rewrite !(total_cons (reactionMoment E)), Hhr. unfold reactionMoment at 1 2. cbn [r_type r_x r_R r_M].
  rewrite !orElse_Some_0.
  rewrite (point_moment_about E px), (angled_moment_about E px), (udl_moment_about E px).
  2:{ intros l Hl. apply Hload. unfold loadPositions.
      apply in_or_app. right. apply in_or_app. right. apply in_or_app. left.
      apply in_flat_map. exists l. cbn. auto. }
  2:{ intros l Hl. apply Hload. unfold loadPositions.
      apply in_or_app. right. apply in_or_app. left. now apply in_map. }
  2:{ intros l Hl. apply Hload. unfold loadPositions.
      apply in_or_app. left. now apply in_map. }
  generalize (total (fun load => (pt_P load * (pt_x load - px))%Qc) (point loads)).
  generalize (total (@pt_P Qc) (point loads)).
  generalize (total (fun load => (Py_of load * (ang_x load - px))%Qc) (angled loads)).
  generalize (total Py_of (angled loads)).
  generalize (total (fun load => (udl_w load * (udl_b load - udl_a load)
                                  * ((udl_a load + udl_b load) / Qc_ofZ 2 - px))%Qc)
                (udl loads)).
  generalize (total (fun load => (udl_w load * (udl_b load - udl_a load))%Qc) (udl loads)).
  intros U MU A MA P MP. cbn [total fold_right add sub div QcNumber].
  assert (Hd : (rx - px)%Qc <> 0%Qc).
  { intros E0. apply Hne. replace rx with ((rx - px) + px)%Qc by ring. rewrite E0. ring. }
  assert (Hif : forall (x v : Qc), (x <= E)%Qc ->
            (if Qc_ltb x E then v * (E - x) else 0)%Qc = (v * (E - x))%Qc).
  { intros x v Hx. destruct (Qc_ltb_spec x E) as [_|Hn]; [reflexivity|].
    assert (x = E) as -> by (apply Qc_is_canon; unfold Qcle, Qclt in *; lra). ring. }
  rewrite !Hif by assumption. field. exact Hd.
Qed.

(** The moment of the forces left of the least event: there are none. *)
Lemma momentStart_at_first (loads : Loads Qc) (reactions : list (Reaction Qc)) (e : Qc) :
  (forall p, In p (loadPositions loads) -> (e <= p)%Qc) ->
  (forall r x, In r reactions -> r_x r = Some x -> (e <= x)%Qc) ->
  (forall r, In r reactions -> r_type r <> moment_reaction) ->
  moment loads = [] ->
  Forall (fun sp => (fst sp < snd sp)%Qc) (spans loads) ->
  momentStart loads reactions e = 0%Qc.
Proof.
  intros Hload Hreact Hty Hmom Hwf. rewrite Forall_forall in Hwf.
  rewrite momentStart_total, Hmom.
  assert (Z : forall {A} (g : A -> Qc) (l : list A),
            (forall x, In x l -> g x = 0%Qc) -> total g l = 0%Qc).
  { intros A g l H. induction l as [|x l IH]; [reflexivity|].
    rewrite total_cons, IH, H; [ring | now left | intros y Hy; apply H; now right]. }
  rewrite (Z _ (reactionMoment e)), (Z _ (pointMoment e)), (Z _ (angledMoment e)),
    (Z _ (udlMoment e)), (Z _ (uvlMoment e)).
  - cbn. ring.
  - intros l Hl. pose proof (spans_In_uvl loads l Hl) as Hsp.
    destruct (spans_positions loads _ Hsp) as [P1 _]. apply Hload in P1. cbn [fst] in P1.
    apply uvlMoment_right; [exact (Hwf _ Hsp) | exact P1].
  - intros l Hl. pose proof (spans_In_udl loads l Hl) as Hsp.
    destruct (spans_positions loads _ Hsp) as [P1 P2]. apply Hload in P1, P2.
    pose proof (Hwf _ Hsp) as Hl'. cbn [fst snd] in *. unfold udlMoment.
    unfold Qcle, Qclt in *. decide_cmp. reflexivity.
  - intros l Hl. unfold angledMoment.
    assert (H : (e <= ang_x l)%Qc).
    { apply Hload. unfold loadPositions. apply in_or_app. right.
      apply in_or_app. left. now apply in_map. }
    unfold Qcle in H. decide_cmp. reflexivity.
  - intros l Hl. unfold pointMoment.
    assert (H : (e <= pt_x l)%Qc).
    { apply Hload. unfold loadPositions. apply in_or_app. left. now apply in_map. }
    unfold Qcle in H. decide_cmp. reflexivity.
  - intros r Hr. unfold reactionMoment. specialize (Hty r Hr).
    destruct (r_type r); try congruence; destruct (r_x r) as [x|] eqn:Ex; try ring.
    specialize (Hreact r x Hr Ex). unfold Qcle in Hreact. decide_cmp. ring.
Qed.

Lemma sorted_least (e : Qc) (rest : list Qc) :
  StronglySorted Qclt (e :: rest) -> forall p, In p (e :: rest) -> (e <= p)%Qc.
Proof.
  intros Hs p [<-|Hp]; [apply Qcle_refl|].
  inversion Hs as [|? ? _ Hf]; subst. rewrite Forall_forall in Hf.
  apply Qclt_le_weak, Hf, Hp.
Qed.

Lemma sorted_greatest (ev : list Qc) (E : Qc) :
  StronglySorted Qclt ev -> nth_error ev (List.length ev - 1) = Some E ->
  forall p, In p ev -> (p <= E)%Qc.
Proof.
  induction ev as [|x ev IH]; intros Hs HE p Hp; [destruct Hp|].
  inversion Hs as [|? ? Hs' Hf]; subst. rewrite Forall_forall in Hf.
  destruct ev as [|y ev].
  - cbn in HE. injection HE as <-. destruct Hp as [<-|[]]. apply Qcle_refl.
  - cbn [List.length] in *. replace (Datatypes.S (Datatypes.S (List.length ev)) - 1)%nat
      with (Datatypes.S (Datatypes.S (List.length ev) - 1))%nat in HE by lia.
    cbn [nth_error] in HE. destruct Hp as [<-|Hp].
    + apply Qclt_le_weak, Hf. eapply nth_error_In, HE.
    + apply IH; assumption.
Qed.

Lemma two_events (loads : Loads Qc) (supports : Support Qc) (length : Qc) :
  (0 < length)%Qc ->
  exists a b rest, generateEvents loads supports length = a :: b :: rest.
Proof.
  intros Hlen.
  pose proof (generateEvents_In loads supports length) as Hin.
  assert (H0 : In 0%Qc (generateEvents loads supports length))
    by (apply Hin; rewrite eventPositions_eq; cbn; auto).
  assert (HL : In length (generateEvents loads supports length))
    by (apply Hin; rewrite eventPositions_eq; cbn; auto).
  destruct (generateEvents loads supports length) as [|a [|b rest]];
    [destruct H0 | | eauto].
  destruct H0 as [->|[]], HL as [HL|[]]. rewrite <- HL in Hlen.
  exfalso. revert Hlen. apply Qcle_not_lt, Qcle_refl.
Qed.

Lemma pin_roller_reaction_types (loads : Loads Qc) (supports : Support Qc) (length : Qc) :
  stype supports = PinRoller ->
  forall r, In r (calculateReactions loads supports length) ->
            r_type r <> moment_reaction.
Proof.
  intros Hs r. unfold calculateReactions, horizontalReaction. rewrite Hs.
  destruct (ltb _ _); cbn [app In]; intros H;
    repeat (destruct H as [<-|H]; [discriminate|]); destruct H.
Qed.

Lemma no_couples (reactions : list (Reaction Qc)) (x : Qc) :
  (forall r, In r reactions -> r_type r <> moment_reaction) ->
  total (reactionCouple x) reactions = 0%Qc.
Proof.
  induction reactions as [|r l IH]; intros H; [reflexivity|].
  rewrite total_cons, IH by (intros y Hy; apply H; now right).
  specialize (H r (or_introl eq_refl)). unfold reactionCouple.
  destruct (r_type r); try congruence; ring.
Qed.

(** X14: the bending moment diagram of a simply supported beam starts at zero and
    comes back to zero: in a valid pin+roller result without UVLs and without
    applied moments, whose UDLs have a < b and do not overlap, M_a of the first
    moment segment and M_b of the last one are 0, wherever the two supports
    and the loads stand. *)
Theorem moment_diagram_closes
  (beamData : BeamData Qc) (supports : Support Qc) (loads : Loads Qc) :
  let r := calculateBeamAnalysis beamData supports loads in
  stype supports = PinRoller -> uvl loads = [] -> moment loads = [] ->
  isValid r = true ->
  Forall (fun sp => (fst sp < snd sp)%Qc) (spans loads) ->
  ForallOrdPairs apart (spans loads) ->
  exists first final,
    nth_error (M_segments r) 0 = Some first
    /\ nth_error (M_segments r) (List.length (M_segments r) - 1) = Some final
    /\ M_a first = Some 0%Qc /\ M_b final = Some 0%Qc.
Proof.
  intros r Hs Huvl Hmom Hvalid Hwf Hap. subst r.
  destruct (valid_result _ _ _ Hvalid) as (Hlen & Hsup & ->). clear Hvalid.
  apply length_positive in Hlen.
  set (u := units beamData) in *.
  fold (toBase u (length beamData)) in *.
  set (baseLength := toBase u (length beamData)) in *.
  set (baseLoads := convertLoadsToBaseUnits loads u) in *.
  set (baseSupports := convertSupportsToBaseUnits supports (u_length u)) in *.
  set (reacts := calculateReactions baseLoads baseSupports baseLength).
  pose proof (generateEvents_sorted baseLoads baseSupports baseLength) as Hsort.
  pose proof (generateEvents_In baseLoads baseSupports baseLength) as Hin.
  assert (HbL : (0 < baseLength)%Qc).
  { unfold baseLength. rewrite <- (toBase_0 u). now apply toBase_lt. }
  destruct (two_events baseLoads baseSupports baseLength HbL) as (e0 & e1 & rest & Hev).
  set (ev := generateEvents baseLoads baseSupports baseLength) in *.
  assert (Hbs : stype baseSupports = PinRoller)
    by (unfold baseSupports, convertSupportsToBaseUnits; now rewrite Hs).
  assert (Hbu : uvl baseLoads = [])
    by (unfold baseLoads, convertLoadsToBaseUnits; cbn; now rewrite Huvl).
  assert (Hbm : moment baseLoads = [])
    by (unfold baseLoads, convertLoadsToBaseUnits; cbn; now rewrite Hmom).
  assert (Hbwf : Forall (fun sp => (fst sp < snd sp)%Qc) (spans baseLoads)).
  { unfold baseLoads. rewrite spans_base. apply Forall_map.
    eapply Forall_impl; [|exact Hwf]. intros sp H. cbn [fst snd]. now apply toBase_lt. }
  assert (Hbap : ForallOrdPairs apart (spans baseLoads)).
  { unfold baseLoads. rewrite spans_base.
    eapply ForallOrdPairs_map; [|exact Hap].
    intros x y [H|H]; [left | right]; cbn [fst snd]; now apply toBase_le. }
  assert (Hloads : forall p, In p (loadPositions baseLoads) -> In p ev).
  { intros p Hp. apply Hin. rewrite eventPositions_eq.
    apply in_or_app. right. apply in_or_app. now right. }
  assert (Hreact : forall re x, In re reacts -> r_x re = Some x -> In x ev).
  { intros re x Hr Hx. apply Hin. rewrite eventPositions_eq.
    apply in_or_app. right. apply in_or_app. left.
    eapply reactions_at_supports; eassumption. }
  pose proof (pin_roller_reaction_types baseLoads baseSupports baseLength Hbs) as Hty.
  fold reacts in Hty.
  cbn [M_segments].
  set (Ms := momentSegmentsOf baseLoads reacts ev).
  assert (Hlen' : List.length Ms = Datatypes.S (List.length rest)).
  { unfold Ms. rewrite momentSegmentsOf_length, Hev. reflexivity. }
  assert (HlenD : List.length (convertSegmentsToDisplayUnits Ms u) = List.length Ms)
    by (unfold convertSegmentsToDisplayUnits; apply length_map).
  rewrite HlenD.
  destruct (nth_error Ms 0) as [s0|] eqn:E0;
    [|apply nth_error_None in E0; lia].
  destruct (nth_error Ms (List.length Ms - 1)) as [sn|] eqn:En;
    [|apply nth_error_None in En; lia].
  do 2 eexists. unfold convertSegmentsToDisplayUnits. rewrite !nth_error_map, E0, En.
  cbn [option_map]. split; [reflexivity|]. split; [reflexivity|].
  cbn [M_a M_b].
  assert (Hzero : (convertForce 0%Qc (u_force BASE_UNITS) (u_force u)
                   * convertLength (ofZ 1) (u_length BASE_UNITS) (u_length u))%js = 0%Qc).
  { rewrite moment_to_display. field.
    split; [apply lengthFactor_nonzero | apply forceFactor_nonzero]. }
  split.
  - destruct (nth_momentSegmentsOf _ _ _ _ _ E0) as (a & b & Ha & Hb & ->).
    destruct (momentSegment_start baseLoads reacts a b (shearSegment baseLoads reacts a b))
      as (-> & _ & _).
    cbn [option_map]. rewrite momentStart_at_first; [now rewrite Hzero| | | | |];
      try assumption.
    + intros p Hp. apply Hloads in Hp. fold ev in Hev. rewrite Hev in Hp, Hsort, Ha.
      injection Ha as <-. now apply (sorted_least e0 (e1 :: rest)).
    + intros re x Hr Hx. pose proof (Hreact re x Hr Hx) as Hp.
      fold ev in Hev. rewrite Hev in Hp, Hsort, Ha.
      injection Ha as <-. now apply (sorted_least e0 (e1 :: rest)).
  - destruct (nth_momentSegmentsOf _ _ _ _ _ En) as (a & b & Ha & Hb & ->).
    destruct (consecutive_events ev _ a b Hsort Ha Hb) as [Hab Hout].
    destruct (moment_across_event baseLoads reacts a b Hab) as (Mb & HMb & Hstep);
      try assumption.
    + intros p Hp. apply Hout, Hloads, Hp.
    + intros re x Hr Hx. eapply Hout, Hreact; eassumption.
    + rewrite Hbu. intros l [].
    + rewrite HMb. cbn [option_map]. f_equal.
      rewrite !no_couples, Hbm in Hstep by exact Hty.
      assert (HE : momentStart baseLoads reacts b = 0%Qc).
      { apply momentStart_at_last; try assumption.
        - apply validateSupports_spec in Hsup. destruct Hsup as [Hf|(_ & _ & Hne)];
            [congruence | exact Hne].
        - intros p Hp. apply Hin in Hp. fold ev in Hp.
          apply (sorted_greatest ev b Hsort); [|exact Hp].
          rewrite <- Hb. f_equal.
          assert (HlenEv : List.length ev = Datatypes.S (Datatypes.S (List.length rest)))
            by (rewrite Hev; reflexivity).
          lia. }
      rewrite HE in Hstep. cbn [total fold_right] in Hstep.
      replace Mb with 0%Qc; [exact Hzero|].
      rewrite Hstep. ring.
Qed.

End Closure.

(** ** The extrema search *)

Section ExtremaAnyArithmetic.
Context {num : Type} {N : Number num} {T : Trig num} {S : Special num}.

Lemma fold_left_invariant {A B} (P : B -> Prop) (f : B -> A -> B) (l : list A) :
  (forall e x, In x l -> P e -> P (f e x)) -> forall e, P e -> P (fold_left f l e).
Proof.
  induction l as [|x l IH]; intros Hf e He; cbn [fold_left]; [exact He|].
  apply IH; [intros e' y Hy; apply Hf; now right | apply Hf; [now left | exact He]].
Qed.

Lemma scanShearEnds_M (e : Extrema num) (s : DiagramSegment num) :
  Mmax (scanShearEnds e s) = Mmax e /\ Mmin (scanShearEnds e s) = Mmin e
  /\ Mmax_pos (positions (scanShearEnds e s)) = Mmax_pos (positions e)
  /\ Mmin_pos (positions (scanShearEnds e s)) = Mmin_pos (positions e).
Proof.
  unfold scanShearEnds, setVmax, setVmin.
  repeat match goal with |- context [if ?c then _ else _] => destruct c end;
    cbn; auto.
Qed.

Lemma compareMoment_V (m x : num) (e : Extrema num) :
  Vmax (compareMoment m x e) = Vmax e /\ Vmin (compareMoment m x e) = Vmin e
  /\ Vmax_pos (positions (compareMoment m x e)) = Vmax_pos (positions e)
  /\ Vmin_pos (positions (compareMoment m x e)) = Vmin_pos (positions e).
Proof.
  unfold compareMoment, setMmax, setMmin.
  repeat match goal with |- context [if ?c then _ else _] => destruct c end;
    cbn; auto.
Qed.

Lemma scanMomentEnds_V (e : Extrema num) (s : DiagramSegment num) :
  Vmax (scanMomentEnds e s) = Vmax e /\ Vmin (scanMomentEnds e s) = Vmin e
  /\ Vmax_pos (positions (scanMomentEnds e s)) = Vmax_pos (positions e)
  /\ Vmin_pos (positions (scanMomentEnds e s)) = Vmin_pos (positions e).
Proof.
  unfold scanMomentEnds, setMmax, setMmin.
  repeat match goal with |- context [if ?c then _ else _] => destruct c end;
    cbn; auto.
Qed.

Lemma scanInterior_V (loads : Loads num) (reactions : list (Reaction num))
  (e : Extrema num) (s : DiagramSegment num) :
  Vmax (scanInterior loads reactions e s) = Vmax e
  /\ Vmin (scanInterior loads reactions e s) = Vmin e
  /\ Vmax_pos (positions (scanInterior loads reactions e s)) = Vmax_pos (positions e)
  /\ Vmin_pos (positions (scanInterior loads reactions e s)) = Vmin_pos (positions e).
Proof.
  unfold scanInterior.
  repeat match goal with
         | |- context [if ?c then _ else _] => destruct c
         | |- context [compareMoment ?m ?x ?e] =>
             let H := fresh in
             pose proof (compareMoment_V m x e) as H;
             destruct H as (-> & -> & -> & ->)
         end; auto.
Qed.

(** X15: where an extremum of the shear is recorded, the shear has that value: the
    pair (Vmax, Vmax_pos) is the value and the position of the start or of the
    end of a shear segment, or still the initial (-Infinity, 0); and likewise
    (Vmin, Vmin_pos), with Infinity. *)
Theorem shear_extrema_are_attained
  (V_segments M_segments : list (DiagramSegment num)) (loads : Loads num)
  (reactions : list (Reaction num)) :
  let e := findExtrema V_segments M_segments loads reactions in
  let ends := flat_map (fun s => [(numOf (V_a s), seg_a s); (numOf (V_b s), seg_b s)])
                V_segments in
  In (Vmax e, Vmax_pos (positions e)) ((neg Infinity, ofZ 0) :: ends)
  /\ In (Vmin e, Vmin_pos (positions e)) ((Infinity, ofZ 0) :: ends).
Proof.
  cbv zeta. unfold findExtrema.
  set (e0 := mkExtrema (neg Infinity) Infinity (neg Infinity) Infinity
               (mkPositions (ofZ 0) (ofZ 0) (ofZ 0) (ofZ 0))).
  set (ends := flat_map _ V_segments).
  set (P := fun e : Extrema num =>
              In (Vmax e, Vmax_pos (positions e)) ((neg Infinity, ofZ 0) :: ends)
              /\ In (Vmin e, Vmin_pos (positions e)) ((Infinity, ofZ 0) :: ends)).
  change (P (fold_left (scanInterior loads reactions) V_segments
               (fold_left scanMomentEnds M_segments
                  (fold_left scanShearEnds V_segments e0)))).
  apply fold_left_invariant.
  { intros e s _ He. unfold P in *.
    destruct (scanInterior_V loads reactions e s) as (-> & -> & -> & ->). exact He. }
  apply fold_left_invariant.
  { intros e s _ He. unfold P in *.
    destruct (scanMomentEnds_V e s) as (-> & -> & -> & ->). exact He. }
  apply fold_left_invariant; [|unfold P; cbn; auto].
  intros e s Hs [H1 H2]. unfold P.
  assert (Ha : In (numOf (V_a s), seg_a s) ends).
  { unfold ends. apply in_flat_map. exists s. cbn. auto. }
  assert (Hb : In (numOf (V_b s), seg_b s) ends).
  { unfold ends. apply in_flat_map. exists s. cbn. auto. }
  unfold scanShearEnds, setVmax, setVmin.
  repeat match goal with |- context [if ?c then _ else _] => destruct c end;
    cbn [Vmax Vmin positions Vmax_pos Vmin_pos]; split; auto; now right.
Qed.

(** X16: the same for the bending moment: the pair (Mmax, Mmax_pos) is the value
    and the position of the start or of the end of a moment segment, or the
    point evaluation [calculateMomentAtPoint] at the position recorded, or
    still the initial (-Infinity, 0); and likewise (Mmin, Mmin_pos). *)
Theorem moment_extrema_are_attained
  (V_segments M_segments : list (DiagramSegment num)) (loads : Loads num)
  (reactions : list (Reaction num)) :
  let e := findExtrema V_segments M_segments loads reactions in
  let ends := flat_map (fun s => [(numOf (M_a s), seg_a s); (numOf (M_b s), seg_b s)])
                M_segments in
  (In (Mmax e, Mmax_pos (positions e)) ((neg Infinity, ofZ 0) :: ends)
   \/ Mmax e = calculateMomentAtPoint (Mmax_pos (positions e)) loads reactions)
  /\ (In (Mmin e, Mmin_pos (positions e)) ((Infinity, ofZ 0) :: ends)
      \/ Mmin e = calculateMomentAtPoint (Mmin_pos (positions e)) loads reactions).
Proof.
  cbv zeta. unfold findExtrema.
  set (e0 := mkExtrema (neg Infinity) Infinity (neg Infinity) Infinity
               (mkPositions (ofZ 0) (ofZ 0) (ofZ 0) (ofZ 0))).
  set (ends := flat_map _ M_segments).
  set (P := fun e : Extrema num =>
              (In (Mmax e, Mmax_pos (positions e)) ((neg Infinity, ofZ 0) :: ends)
               \/ Mmax e = calculateMomentAtPoint (Mmax_pos (positions e)) loads reactions)
              /\ (In (Mmin e, Mmin_pos (positions e)) ((Infinity, ofZ 0) :: ends)
                  \/ Mmin e
                     = calculateMomentAtPoint (Mmin_pos (positions e)) loads reactions)).
  change (P (fold_left (scanInterior loads reactions) V_segments
               (fold_left scanMomentEnds M_segments
                  (fold_left scanShearEnds V_segments e0)))).
  assert (Hcmp : forall x e, P e ->
                   P (compareMoment (calculateMomentAtPoint x loads reactions) x e)).
  { intros x e [H1 H2]. unfold P, compareMoment, setMmax, setMmin.
    repeat match goal with |- context [if ?c then _ else _] => destruct c end;
      cbn [Mmax Mmin positions Mmax_pos Mmin_pos]; split; auto. }
  apply fold_left_invariant.
  { intros e s _ He. unfold scanInterior.
    repeat match goal with |- context [if ?c then _ else _] => destruct c end;
      repeat apply Hcmp; exact He. }
  apply fold_left_invariant.
  { intros e s Hs [H1 H2]. unfold P.
    assert (Ha : In (numOf (M_a s), seg_a s) ends).
    { unfold ends. apply in_flat_map. exists s. cbn. auto. }
    assert (Hb : In (numOf (M_b s), seg_b s) ends).
    { unfold ends. apply in_flat_map. exists s. cbn. auto. }
    unfold scanMomentEnds, setMmax, setMmin.
    repeat match goal with |- context [if ?c then _ else _] => destruct c end;
      cbn [Mmax Mmin positions Mmax_pos Mmin_pos]; split; auto;
      left; now right. }
  apply fold_left_invariant; [|unfold P; cbn; auto].
  intros e s _ He. unfold P in *.
  destruct (scanShearEnds_M e s) as (-> & -> & -> & ->). exact He.
Qed.

End ExtremaAnyArithmetic.

Section ExtremaExact.
Context {T : Trig Qc} {S : Special Qc}.

Lemma widens_refl (e : Extrema Qc) : widens e e.
Proof. unfold widens. repeat split; apply Qcle_refl. Qed.

Lemma widens_trans (e1 e2 e3 : Extrema Qc) : widens e1 e2 -> widens e2 e3 -> widens e1 e3.
Proof.
  unfold widens. intros (A1 & A2 & A3 & A4) (B1 & B2 & B3 & B4).
  repeat split; eapply Qcle_trans; eassumption.
Qed.

Lemma boundsV_widens (e e' : Extrema Qc) (v : Qc) : widens e e' -> boundsV e v -> boundsV e' v.
Proof.
  unfold widens, boundsV. intros (A1 & A2 & _) [B1 B2].
  split; eapply Qcle_trans; eassumption.
Qed.

Lemma boundsM_widens (e e' : Extrema Qc) (v : Qc) : widens e e' -> boundsM e v -> boundsM e' v.
Proof.
  unfold widens, boundsM. intros (_ & _ & A1 & A2) [B1 B2].
  split; eapply Qcle_trans; eassumption.
Qed.

Ltac scan_cases :=
  repeat match goal with
         | |- context [Qc_ltb ?x ?y] => destruct (Qc_ltb_spec x y)
         end;
  cbn [Vmax Vmin Mmax Mmin positions] in *; unfold Qcle, Qclt in *;
  repeat split; lra.

Lemma scanShearEnds_widens (e : Extrema Qc) (s : DiagramSegment Qc) :
  widens e (scanShearEnds e s)
  /\ boundsV (scanShearEnds e s) (numOf (V_a s))
  /\ boundsV (scanShearEnds e s) (numOf (V_b s)).
Proof.
  unfold widens, boundsV, scanShearEnds, setVmax, setVmin.
  generalize (numOf (V_a s)) (numOf (V_b s)). intros va vb.
  destruct e as [vmax vmin mmax mmin q]. cbn [ltb QcNumber Vmax Vmin Mmax Mmin positions].
  scan_cases.
Qed.

Lemma scanMomentEnds_widens (e : Extrema Qc) (s : DiagramSegment Qc) :
  widens e (scanMomentEnds e s)
  /\ boundsM (scanMomentEnds e s) (numOf (M_a s))
  /\ boundsM (scanMomentEnds e s) (numOf (M_b s)).
Proof.
  unfold widens, boundsM, scanMomentEnds, setMmax, setMmin.
  generalize (numOf (M_a s)) (numOf (M_b s)). intros va vb.
  destruct e as [vmax vmin mmax mmin q]. cbn [ltb QcNumber Vmax Vmin Mmax Mmin positions].
  scan_cases.
Qed.

Lemma compareMoment_widens (m x : Qc) (e : Extrema Qc) :
  widens e (compareMoment m x e) /\ boundsM (compareMoment m x e) m.
Proof.
  unfold widens, boundsM, compareMoment, setMmax, setMmin.
  destruct e as [vmax vmin mmax mmin q]. cbn [ltb QcNumber Vmax Vmin Mmax Mmin positions].
  scan_cases.
Qed.

Lemma scanInterior_widens (loads : Loads Qc) (reactions : list (Reaction Qc))
  (e : Extrema Qc) (s : DiagramSegment Qc) :
  widens e (scanInterior loads reactions e s).
Proof.
  unfold scanInterior.
  repeat match goal with
         | |- context [if ?c then _ else _] => destruct c
         end;
    repeat first [apply widens_refl
                 | eapply widens_trans; [|apply compareMoment_widens]].
Qed.

Lemma fold_widens {A} (f : Extrema Qc -> A -> Extrema Qc) (Q : Extrema Qc -> A -> Prop)
  (l : list A) :
  (forall e x, widens e (f e x) /\ Q (f e x) x) ->
  (forall e e' x, widens e e' -> Q e x -> Q e' x) ->
  forall e, widens e (fold_left f l e) /\ forall x, In x l -> Q (fold_left f l e) x.
Proof.
  intros Hf HQ. induction l as [|x l IH]; intros e; cbn [fold_left].
  - split; [apply widens_refl | intros x []].
  - destruct (IH (f e x)) as [W B]. destruct (Hf e x) as [W' B'].
    split; [eapply widens_trans; eassumption|].
    intros y [<-|Hy]; [eapply HQ; eassumption | now apply B].
Qed.

(** X17: the extrema returned bound every value the search looks at: Vmin and Vmax
    the shear at the start and at the end of every shear segment, Mmin and
    Mmax the moment at the start and at the end of every moment segment. *)
Theorem extrema_bound_the_segment_ends
  (V_segments M_segments : list (DiagramSegment Qc)) (loads : Loads Qc)
  (reactions : list (Reaction Qc)) :
  let e := findExtrema V_segments M_segments loads reactions in
  Forall (fun s => boundsV e (numOf (V_a s)) /\ boundsV e (numOf (V_b s))) V_segments
  /\ Forall (fun s => boundsM e (numOf (M_a s)) /\ boundsM e (numOf (M_b s))) M_segments.
Proof.
  cbv zeta. unfold findExtrema.
  set (e0 := mkExtrema _ _ _ _ _).
  destruct (fold_widens scanShearEnds
              (fun e s => boundsV e (numOf (V_a s)) /\ boundsV e (numOf (V_b s)))
              V_segments) with (e := e0) as [_ HV].
  { intros e s. destruct (scanShearEnds_widens e s) as (W & A & B). auto. }
  { intros e e' s W [A B]. split; eapply boundsV_widens; eassumption. }
  set (e1 := fold_left scanShearEnds V_segments e0) in *.
  destruct (fold_widens scanMomentEnds
              (fun e s => boundsM e (numOf (M_a s)) /\ boundsM e (numOf (M_b s)))
              M_segments) with (e := e1) as [W1 HM].
  { intros e s. destruct (scanMomentEnds_widens e s) as (W & A & B). auto. }
  { intros e e' s W [A B]. split; eapply boundsM_widens; eassumption. }
  set (e2 := fold_left scanMomentEnds M_segments e1) in *.
  destruct (fold_widens (scanInterior loads reactions) (fun _ _ => True) V_segments)
    with (e := e2) as [W2 _].
  { intros e s. split; [apply scanInterior_widens | exact I]. }
  { auto. }
  split; apply Forall_forall; intros s Hs.
  - destruct (HV s Hs) as [A B].
    split; (apply (boundsV_widens e1); [exact (widens_trans _ _ _ W1 W2) | assumption]).
  - destruct (HM s Hs) as [A B].
    split; (apply (boundsM_widens e2); [exact W2 | assumption]).
Qed.

End ExtremaExact.

(** ** A beam without loads *)

Section NoLoads.
Context {T : Trig Qc} {S : Special Qc}.

Lemma total_all_zero {A} (g : A -> Qc) (l : list A) :
  (forall x, In x l -> g x = 0%Qc) -> total g l = 0%Qc.
Proof.
  intros H. induction l as [|x l IH]; [reflexivity|].
  rewrite total_cons, IH, H; [ring | now left | intros y Hy; apply H; now right].
Qed.

Lemma starts_without_loads (reactions : list (Reaction Qc)) (a : Qc) :
  (forall r, In r reactions -> orElse (r_R r) 0%Qc = 0%Qc /\ orElse (r_M r) 0%Qc = 0%Qc) ->
  shearStart noLoads reactions a = 0%Qc /\ momentStart noLoads reactions a = 0%Qc.
Proof.
  intros H. rewrite shearStart_total, momentStart_total. cbn [noLoads point angled udl uvl moment].
  rewrite (total_all_zero (reactionShear a)), (total_all_zero (reactionMoment a)).
  - cbn. split; ring.
  - intros r Hr. destruct (H r Hr) as [H1 H2]. unfold reactionMoment. rewrite H1, H2.
    by_cases; ring.
  - intros r Hr. destruct (H r Hr) as [H1 H2]. unfold reactionShear. rewrite H1.
    by_cases; ring.
Qed.

Lemma reactions_without_loads (supports : Support Qc) (length : Qc) :
  calculateReactions noLoads supports length
  = match stype supports with
    | PinRoller =>
        [ mkReaction vertical "pin" (Some (orElse (pin_x supports) 0%Qc)) (Some 0%Qc)
            None None;
          mkReaction vertical "roller" (Some (orElse (roller_x supports) length))
            (Some 0%Qc) None None ]
    | Fixed =>
        [ mkReaction vertical "fixed" (Some (fixed_x_of supports length)) (Some 0%Qc)
            None None;
          mkReaction moment_reaction "fixed" (Some (fixed_x_of supports length)) None
            (Some 0%Qc) None ]
    end.
Proof.
  unfold calculateReactions.
  destruct (stype supports).
  - change (sumForces ?x noLoads) with (mkTotals 0%Qc 0%Qc 0%Qc).
    rewrite no_horizontalReaction. cbn [app totalVerticalForce totalMomentAbout].
    change (@ofZ Qc QcNumber 0%Z) with 0%Qc. cbn [sub div QcNumber].
    repeat f_equal; unfold Qcdiv; ring.
  - change (fold_left addMomentLoad (moment noLoads) (sumForces ?x noLoads))
      with (mkTotals 0%Qc 0%Qc 0%Qc).
    rewrite no_horizontalReaction. cbn [app totalVerticalForce totalMomentAbout].
    cbn [neg QcNumber]. repeat f_equal; ring.
Qed.

(** X18: without any load a valid analysis gives reactions that are all zero, a
    shear that is const and zero on every segment, and a moment that is
    linear and zero on every segment, for either kind of support. *)
Theorem no_loads_no_internal_forces (beamData : BeamData Qc) (supports : Support Qc) :
  let r := calculateBeamAnalysis beamData supports noLoads in
  isValid r = true ->
  Forall (fun re => match r_type re with
                    | vertical => r_R re = Some 0%Qc
                    | moment_reaction => r_M re = Some 0%Qc
                    | horizontal => False
                    end) (reactions r)
  /\ Forall (fun s => seg_type s = const /\ V_a s = Some 0%Qc /\ V_b s = Some 0%Qc)
       (V_segments r)
  /\ Forall (fun s => seg_type s = linear /\ M_a s = Some 0%Qc /\ M_b s = Some 0%Qc)
       (M_segments r).
Proof.
  intros r Hvalid. subst r.
  destruct (valid_result _ _ _ Hvalid) as (_ & _ & ->). clear Hvalid.
  set (u := units beamData).
  change (convertLoadsToBaseUnits noLoads u) with (@noLoads Qc).
  rewrite reactions_without_loads.
  set (reacts := match stype _ with PinRoller => _ | Fixed => _ end).
  assert (Hidle : forall re, In re reacts ->
                     orElse (r_R re) 0%Qc = 0%Qc /\ orElse (r_M re) 0%Qc = 0%Qc).
  { unfold reacts. intros re. destruct (stype _); cbn [In];
      intros [<-|[<-|[]]]; cbn [r_R r_M]; rewrite ?orElse_Some_0; auto. }
  assert (Hf0 : convertForce 0%Qc (u_force BASE_UNITS) (u_force u) = 0%Qc).
  { rewrite convertForce_to_display. field. apply forceFactor_nonzero. }
  assert (Hm0 : (convertForce 0%Qc (u_force BASE_UNITS) (u_force u)
                 * convertLength (ofZ 1) (u_length BASE_UNITS) (u_length u))%js = 0%Qc).
  { rewrite moment_to_display. field.
    split; [apply lengthFactor_nonzero | apply forceFactor_nonzero]. }
  cbn [reactions V_segments M_segments].
  match goal with |- context [calculateShearSegments noLoads reacts ?e] =>
    generalize e end.
  intros ev. split; [|split].
  - unfold reacts, convertReactionsToDisplayUnits. destruct (stype _); cbn [map];
      repeat constructor; cbn [r_type r_R r_M option_map]; now rewrite ?Hm0, ?Hf0.
  - unfold convertSegmentsToDisplayUnits.
    induction ev as [|a rest IH]; [constructor|].
    destruct rest as [|b rest]; [constructor|].
    rewrite calculateShearSegments_cons. cbn [map]. constructor; [|exact IH].
    destruct (starts_without_loads reacts a Hidle) as [HV _].
    unfold shearSegment. cbn [classify noLoads udl uvl fold_left noActive hasUVL hasUDL
                               segmentType seg_type V_a V_b option_map].
    rewrite HV, Hf0. auto.
  - unfold convertSegmentsToDisplayUnits.
    induction ev as [|a rest IH]; [constructor|].
    destruct rest as [|b rest]; [constructor|].
    rewrite momentSegmentsOf_cons. cbn [map]. constructor; [|exact IH].
    destruct (starts_without_loads reacts a Hidle) as [HV HM].
    unfold momentSegment, shearSegment.
    cbn [classify noLoads udl uvl fold_left noActive hasUVL hasUDL
         segmentType seg_type V_a M_a M_b option_map idx nth].
    rewrite HV, HM, orElse_Some_0.
    replace (0 + 0 * (b - a))%js with 0%Qc by (cbn [add sub mul QcNumber]; ring).
    rewrite Hm0. auto.
Qed.

End NoLoads.

(** ** The samplers on a result in display units *)

Section SamplerUnits.
Context {T : Trig Qc} {S : Special Qc}.

Lemma first_position (a b n : Qc) : (a + (b - a) * (Qc_ofZ (Z.of_nat 0) / n))%Qc = a.
Proof. change (Qc_ofZ (Z.of_nat 0)) with 0%Qc. unfold Qcdiv. ring. Qed.

(** A shear segment of a result, and the segment in base units it displays. *)
Lemma result_shear_segment (beamData : BeamData Qc) (supports : Support Qc)
  (loads : Loads Qc) (s : DiagramSegment Qc) :
  isValid (calculateBeamAnalysis beamData supports loads) = true ->
  In s (V_segments (calculateBeamAnalysis beamData supports loads)) ->
  exists bl re a b,
    let u := units beamData in
    let s0 := shearSegment bl re a b in
    seg_a s = toDisplay u a /\ seg_b s = toDisplay u b
    /\ seg_type s = seg_type s0 /\ coeffs s = coeffs s0
    /\ V_a s = Some (shearStart bl re a / forceFactor (u_force u))%Qc.
Proof.
  intros Hvalid. destruct (valid_result _ _ _ Hvalid) as (_ & _ & ->).
  cbn [V_segments]. unfold convertSegmentsToDisplayUnits. intros Hs.
  apply in_map_iff in Hs. destruct Hs as (s0 & <- & Hs0).
  apply In_nth_error in Hs0. destruct Hs0 as [i Hi].
  destruct (nth_calculateShearSegments _ _ _ _ _ Hi) as (a & b & _ & _ & ->).
  match goal with |- context [shearSegment ?l ?r a b] => exists l, r, a, b end.
  cbv zeta. cbn [seg_a seg_b seg_type coeffs V_a].
  repeat split; try reflexivity.
  unfold shearSegment. cbn [V_a option_map]. now rewrite convertForce_to_display.
Qed.

Lemma result_moment_segment (beamData : BeamData Qc) (supports : Support Qc)
  (loads : Loads Qc) (s : DiagramSegment Qc) :
  isValid (calculateBeamAnalysis beamData supports loads) = true ->
  In s (M_segments (calculateBeamAnalysis beamData supports loads)) ->
  exists bl re a b,
    let u := units beamData in
    let s0 := momentSegment bl re a b (shearSegment bl re a b) in
    seg_a s = toDisplay u a /\ seg_b s = toDisplay u b
    /\ seg_type s = seg_type s0 /\ coeffs s = coeffs s0
    /\ M_a s = Some (momentStart bl re a
                     / (forceFactor (u_force u) * lengthFactor (u_length u)))%Qc.
Proof.
  intros Hvalid. destruct (valid_result _ _ _ Hvalid) as (_ & _ & ->).
  cbn [M_segments]. unfold convertSegmentsToDisplayUnits. intros Hs.
  apply in_map_iff in Hs. destruct Hs as (s0 & <- & Hs0).
  apply In_nth_error in Hs0. destruct Hs0 as [i Hi].
  destruct (nth_momentSegmentsOf _ _ _ _ _ Hi) as (a & b & _ & _ & ->).
  match goal with |- context [momentSegment ?l ?r a b ?v] =>
    exists l, r, a, b; destruct (momentSegment_start l r a b v) as (Hm & Ha & Hb) end.
  cbv zeta. cbn [seg_a seg_b seg_type coeffs M_a]. rewrite Hm, Ha, Hb.
  repeat split; try reflexivity.
  cbn [option_map]. now rewrite moment_to_display.
Qed.

Lemma shearSegment_head (bl : Loads Qc) (re : list (Reaction Qc)) (a b : Qc) :
  exists rest, coeffs (shearSegment bl re a b) = Some (shearStart bl re a :: rest)
               /\ seg_type (shearSegment bl re a b) <> cubic.
Proof.
  unfold shearSegment. cbn [coeffs seg_type]. unfold shearCoeffs.
  pose proof (classify_typed bl a b) as Ht. unfold typed in Ht. rewrite Ht.
  destruct (hasUVL _); [|destruct (hasUDL _)]; eexists; split;
    try reflexivity; discriminate.
Qed.

Lemma momentSegment_head (bl : Loads Qc) (re : list (Reaction Qc)) (a b : Qc) :
  let m := momentSegment bl re a b (shearSegment bl re a b) in
  exists rest, coeffs m = Some (momentStart bl re a :: rest) /\ seg_type m <> const.
Proof.
  cbv zeta. destruct (shearSegment_head bl re a b) as (rest & _ & Hn).
  unfold momentSegment.
  destruct (seg_type (shearSegment bl re a b)); try congruence;
    cbn [coeffs seg_type]; eexists; split; try reflexivity; discriminate.
Qed.

(** X19: the shear sampler reads the coefficients, which stay in base units when
    the result is converted: for a segment of a valid result, the first point
    pushed stands at the start of the segment (display units, rounded) and
    carries V_a times the force factor of the display unit, that is V_a in
    newtons, rounded to three decimals. *)
Theorem shear_samples_are_in_base_units
  (beamData : BeamData Qc) (supports : Support Qc) (loads : Loads Qc)
  (segment : DiagramSegment Qc) :
  let r := calculateBeamAnalysis beamData supports loads in
  isValid r = true -> In segment (V_segments r) ->
  exists V_a_display,
    V_a segment = Some V_a_display
    /\ nth_error (samplePoints segment) 0
       = Some (mkShearPoint
                 (round (seg_a segment * Qc_ofZ 1000) / Qc_ofZ 1000)%Qc
                 (round (V_a_display * forceFactor (u_force (units beamData))
                         * Qc_ofZ 1000) / Qc_ofZ 1000)%Qc).
Proof.
  intros r Hvalid Hs. subst r.
  destruct (result_shear_segment _ _ _ _ Hvalid Hs) as (bl & re & a & b & H).
  cbv zeta in H. destruct H as (Ea & Eb & Et & Ec & Ev).
  destruct (shearSegment_head bl re a b) as (rest & Hc & Hn).
  rewrite Hc in Ec. rewrite <- Et in Hn.
  eexists. split; [exact Ev|].
  unfold samplePoints. rewrite Nat.add_1_r. cbn [seq map nth_error].
  unfold sampleShear, sampleX. cbv zeta. rewrite Ec.
  cbn [add sub mul div ofZ QcNumber]. rewrite !first_position.
  replace (seg_a segment - seg_a segment)%Qc with 0%Qc by ring.
  do 3 f_equal. f_equal.
  pose proof (forceFactor_nonzero (u_force (units beamData))) as Hf.
  destruct (seg_type segment); try congruence; cbn [idx nth];
    unfold Qcdiv; field_simplify; try exact Hf; try reflexivity.
Qed.

(** X20: the bending moment sampler likewise: the first point pushed for a
    moment segment of a valid result carries M_a times the force factor and
    the length factor of the display units, that is M_a in newton metres. *)
Theorem moment_samples_are_in_base_units
  (beamData : BeamData Qc) (supports : Support Qc) (loads : Loads Qc)
  (segment : DiagramSegment Qc) :
  let r := calculateBeamAnalysis beamData supports loads in
  isValid r = true -> In segment (M_segments r) ->
  exists M_a_display,
    M_a segment = Some M_a_display
    /\ nth_error (momentSamplePoints segment) 0
       = Some (mkMomentPoint
                 (round (seg_a segment * Qc_ofZ 1000) / Qc_ofZ 1000)%Qc
                 (round (M_a_display
                         * (forceFactor (u_force (units beamData))
                            * lengthFactor (u_length (units beamData)))
                         * Qc_ofZ 1000) / Qc_ofZ 1000)%Qc).
Proof.
  intros r Hvalid Hs. subst r.
  destruct (result_moment_segment _ _ _ _ Hvalid Hs) as (bl & re & a & b & H).
  cbv zeta in H. destruct H as (Ea & Eb & Et & Ec & Ev).
  destruct (momentSegment_head bl re a b) as (rest & Hc & Hn).
  rewrite Hc in Ec. rewrite <- Et in Hn.
  eexists. split; [exact Ev|].
  unfold momentSamplePoints. rewrite Nat.add_1_r. cbn [seq map nth_error].
  unfold sampleMoment, momentSampleX. cbv zeta. rewrite Ec.
  cbn [add sub mul div ofZ QcNumber]. rewrite !first_position.
  replace (seg_a segment - seg_a segment)%Qc with 0%Qc by ring.
  do 3 f_equal. f_equal.
  pose proof (forceFactor_nonzero (u_force (units beamData))) as Hf.
  pose proof (lengthFactor_nonzero (u_length (units beamData))) as Hl.
  destruct (seg_type segment); try congruence; cbn [idx nth];
    unfold Qcdiv; field_simplify; auto.
Qed.

(** X21: the chart of the shear force multiplies what it reads by 0.001: the first
    point pushed for a segment of a valid result carries V_a times the force
    factor of the display unit times 0.001, which is V_a itself when the
    display unit is kN and V_a / 1000 when it is N. *)
Theorem chart_points_are_in_kilonewtons
  (beamData : BeamData Qc) (supports : Support Qc) (loads : Loads Qc)
  (segment : DiagramSegment Qc) :
  let r := calculateBeamAnalysis beamData supports loads in
  isValid r = true -> In segment (V_segments r) ->
  exists V_a_display,
    V_a segment = Some V_a_display
    /\ nth_error (chartPoints segment) 0
       = Some (mkShearPoint
                 (round (seg_a segment * Qc_ofZ 1000) / Qc_ofZ 1000)%Qc
                 (round (V_a_display * forceFactor (u_force (units beamData))
                         * (Qc_ofZ 1 / Qc_ofZ 1000) * Qc_ofZ 1000) / Qc_ofZ 1000)%Qc).
Proof.
  intros r Hvalid Hs. subst r.
  destruct (result_shear_segment _ _ _ _ Hvalid Hs) as (bl & re & a & b & H).
  cbv zeta in H. destruct H as (Ea & Eb & Et & Ec & Ev).
  destruct (shearSegment_head bl re a b) as (rest & Hc & Hn).
  rewrite Hc in Ec. rewrite <- Et in Hn.
  eexists. split; [exact Ev|].
  unfold chartPoints. rewrite Nat.add_1_r. cbn [seq map nth_error].
  unfold chartShear, chartSampleX, conversionFactor, dec. cbv zeta. rewrite Ec.
  cbn [add sub mul div ofZ QcNumber]. rewrite !first_position.
  replace (seg_a segment - seg_a segment)%Qc with 0%Qc by ring.
  do 3 f_equal. f_equal. f_equal. f_equal.
  pose proof (forceFactor_nonzero (u_force (units beamData))) as Hf.
  destruct (seg_type segment); try congruence; cbn [idx nth];
    unfold Qcdiv; field_simplify; try exact Hf; try reflexivity.
Qed.

End SamplerUnits.

(** ** The legacy entry point *)

Section LegacyAnyArithmetic.
Context {num : Type} {N : Number num} {T : Trig num} {S : Special num}.

(** X22: in a valid legacy result the x array of each series is the event list
    and the y array has one value for each segment, so x is one entry longer
    than y. *)
Theorem legacy_series_differ_in_length (beamData : LegacyBeamData (num := num))
  (supports : list (LegacySupport (num := num))) (loads : list (LegacyLoad (num := num)))
  (result : LegacyAnalysisResult (num := num)) :
  calculateBeamAnalysisLegacy beamData supports loads = inr result ->
  lr_isValid result = true ->
  List.length (series_x (lr_shearForce result))
  = Datatypes.S (List.length (series_y (lr_shearForce result)))
  /\ List.length (series_x (lr_bendingMoment result))
     = Datatypes.S (List.length (series_y (lr_bendingMoment result))).
Proof.
  unfold calculateBeamAnalysisLegacy. destruct supports as [|support0 rest]; [discriminate|].
  intros [= <-]. cbn [lr_isValid lr_shearForce lr_bendingMoment series_x series_y].
  intros Hvalid. rewrite !length_map.
  destruct (valid_result _ _ _ Hvalid) as (_ & _ & ->).
  cbn [events V_segments M_segments]. unfold convertSegmentsToDisplayUnits.
  rewrite !length_map, calculateShearSegments_length, momentSegmentsOf_length.
  unfold generateEvents. rewrite arraySort_length.
  match goal with |- context [eventSet ?l ?s ?len] =>
    pose proof (eventSet_length l s len) end.
  split; lia.
Qed.

End LegacyAnyArithmetic.

Section LegacyExact.
Context {T : Trig Qc} {S : Special Qc}.

(** X23: every support type other than the string "Pin + Roller" is analysed as a
    fixed support: for a positive length the legacy result is valid and its
    reactions hold the single entry "fixed", minus the sum of the load
    magnitudes. *)
Theorem legacy_reads_other_types_as_fixed (beamData : LegacyBeamData (num := Qc))
  (support0 : LegacySupport (num := Qc)) (rest : list (LegacySupport (num := Qc)))
  (loads : list (LegacyLoad (num := Qc))) :
  String.eqb (ls_type support0) "Pin + Roller" = false ->
  (0 < lb_length beamData)%Qc ->
  exists result,
    calculateBeamAnalysisLegacy beamData (support0 :: rest) loads = inr result
    /\ lr_isValid result = true
    /\ lr_reactions result = [("fixed"%string, (- total (@ll_magnitude Qc) loads)%Qc)].
Proof.
  intros Hty Hlen. unfold calculateBeamAnalysisLegacy. rewrite Hty.
  eexists. split; [reflexivity|]. cbn [lr_isValid lr_reactions].
  match goal with |- context [calculateBeamAnalysis ?b ?s ?l] =>
    pose proof (fixed_is_valid b s l eq_refl Hlen) as Hv;
    pose proof (fixed_result_reactions b s l eq_refl Hv eq_refl eq_refl eq_refl) as Hr end.
  cbv zeta in Hr. split; [exact Hv|]. rewrite Hr. cbn [fold_left r_type r_at r_R objSet].
  rewrite orElse_Some_0. unfold sumOfLoads. cbn [point].
  fold (total (@pt_P Qc) (map (fun load => mkPointLoad (ll_id load) (ll_position load)
                                             (ll_magnitude load)) loads)).
  rewrite total_map. reflexivity.
Qed.

End LegacyExact.

(** ** The chart of the shear force *)

Section Chart.
Context {S : Special Qc}.

Lemma fold_max_bounds (l : list Qc) : forall v,
  (v <= fold_left max l v)%Qc /\ forall x, In x l -> (x <= fold_left max l v)%Qc.
Proof.
  induction l as [|y l IH]; intros v; cbn [fold_left].
  - split; [apply Qcle_refl | intros x []].
  - destruct (IH (max v y)) as [H1 H2].
    assert (Hv : (v <= max v y)%Qc /\ (y <= max v y)%Qc).
    { cbn [max QcNumber]. destruct (Qc_ltb_spec v y) as [H|H]; unfold Qcle, Qclt in *;
        split; lra. }
    destruct Hv as [Hv Hy]. split; [eapply Qcle_trans; eassumption|].
    intros x [<-|Hx]; [eapply Qcle_trans; eassumption | now apply H2].
Qed.

Lemma fold_min_bounds (l : list Qc) : forall v,
  (fold_left min l v <= v)%Qc /\ forall x, In x l -> (fold_left min l v <= x)%Qc.
Proof.
  induction l as [|y l IH]; intros v; cbn [fold_left].
  - split; [apply Qcle_refl | intros x []].
  - destruct (IH (min v y)) as [H1 H2].
    assert (Hv : (min v y <= v)%Qc /\ (min v y <= y)%Qc).
    { cbn [min QcNumber]. destruct (Qc_ltb_spec y v) as [H|H]; unfold Qcle, Qclt in *;
        split; lra. }
    destruct Hv as [Hv Hy]. split; [eapply Qcle_trans; eassumption|].
    intros x [<-|Hx]; [eapply Qcle_trans; eassumption | now apply H2].
Qed.

Lemma mathMax_bounds (l : list Qc) (x : Qc) : In x l -> (x <= mathMax l)%Qc.
Proof.
  destruct l as [|v l]; [intros []|]. cbn [mathMax].
  destruct (fold_max_bounds l v) as [H1 H2]. intros [<-|Hx]; auto.
Qed.

Lemma mathMin_bounds (l : list Qc) (x : Qc) : In x l -> (mathMin l <= x)%Qc.
Proof.
  destruct l as [|v l]; [intros []|]. cbn [mathMin].
  destruct (fold_min_bounds l v) as [H1 H2]. intros [<-|Hx]; auto.
Qed.

(** X24: the y axis of the chart always shows the zero line and every point with
    room to spare: yMin lies below 0 and below every shear value drawn, yMax
    above 0 and above every one of them, whatever the data, the empty list
    included. *)
Theorem chart_domain_holds_the_data (data : list (ShearPoint (num := Qc))) :
  let yMin := fst (yDomain data) in
  let yMax := snd (yDomain data) in
  (yMin < 0)%Qc /\ (0 < yMax)%Qc
  /\ Forall (fun point => (yMin < shearForce point)%Qc /\ (shearForce point < yMax)%Qc) data.
Proof.
  cbv zeta. unfold yDomain. cbv zeta. cbn [fst snd].
  change (@ofZ Qc QcNumber 0%Z) with 0%Qc.
  set (values := map shearForce data ++ [0%Qc]).
  set (hi := mathMax values). set (lo := mathMin values).
  set (range := mathMax [(hi - lo)%js; ofZ 1]).
  assert (H0 : In 0%Qc values) by (unfold values; apply in_or_app; right; now left).
  assert (Hhi : (0 <= hi)%Qc) by (apply mathMax_bounds, H0).
  assert (Hlo : (lo <= 0)%Qc) by (apply mathMin_bounds, H0).
  assert (Hr : (@ofZ Qc QcNumber 1%Z <= range)%Qc).
  { unfold range. apply (mathMax_bounds [(hi - lo)%js; ofZ 1] (ofZ 1)). cbn. auto. }
  set (pad := (range * dec 15 100)%js).
  assert (Hp : (0 < pad)%Qc).
  { unfold pad, dec. cbn [mul div ofZ QcNumber].
    assert (Hd : (0 < Qc_ofZ 15 / Qc_ofZ 100)%Qc) by reflexivity.
    assert (Hr' : (0 < range)%Qc).
    { eapply Qclt_le_trans; [|exact Hr]. reflexivity. }
    rewrite <- (Qcmult_0_l (Qc_ofZ 15 / Qc_ofZ 100)).
    apply Qcmult_lt_compat_r; assumption. }
  clearbody pad. cbn [add sub mul QcNumber] in *. unfold Qcle, Qclt in *.
  split; [qc_to_q; lra|]. split; [qc_to_q; lra|].
  apply Forall_forall. intros p Hin.
  assert (Hv : In (shearForce p) values).
  { unfold values. apply in_or_app. left. now apply in_map. }
  pose proof (mathMax_bounds values _ Hv) as B1.
  pose proof (mathMin_bounds values _ Hv) as B2.
  fold hi in B1. fold lo in B2. unfold Qcle in *.
  split; qc_to_q; lra.
Qed.

End Chart.

(** ** The order of the sampled points *)

Section SampleOrder.
Context {T : Trig Qc} {S : Special Qc}.

Lemma Qc_ofZ_le (z1 z2 : Z) : (z1 <= z2)%Z -> (Qc_ofZ z1 <= Qc_ofZ z2)%Qc.
Proof.
  intros H. unfold Qc_ofZ, Qcle, Q2Qc. cbn [this]. rewrite !Qred_correct.
  now rewrite <- Zle_Qle.
Qed.

Lemma round_le (x y : Qc) : (x <= y)%Qc -> (round x <= round y)%Qc.
Proof.
  intros H. cbn [round QcRounding]. apply Qc_ofZ_le, Qfloor_resp_le.
  unfold Qcle in H. unfold Qcplus, Q2Qc. cbn [this]. rewrite !Qred_correct. lra.
Qed.

Lemma round3_le (x y : Qc) :
  (x <= y)%Qc -> (round (x * Qc_ofZ 1000) / Qc_ofZ 1000 <= round (y * Qc_ofZ 1000) / Qc_ofZ 1000)%Qc.
Proof.
  intros H. unfold Qcdiv. apply Qcmult_le_compat_r; [|discriminate].
  apply round_le. apply Qcmult_le_compat_r; [exact H | discriminate].
Qed.

Lemma fraction_le (i j n : nat) :
  (0 < n)%nat -> (i <= j)%nat ->
  (Qc_ofZ (Z.of_nat i) / Qc_ofZ (Z.of_nat n) <= Qc_ofZ (Z.of_nat j) / Qc_ofZ (Z.of_nat n))%Qc.
Proof.
  intros Hn Hij. unfold Qcle. qc_to_q. rewrite ?Qred_correct.
  apply Qmult_le_compat_r; [rewrite <- Zle_Qle; lia|].
  apply Qinv_le_0_compat. rewrite ?Qred_correct.
  change 0%Q with (inject_Z 0). rewrite <- Zle_Qle. lia.
Qed.

Lemma numPoints_pos (s : DiagramSegment Qc) : (0 < numPoints s)%nat.
Proof. unfold numPoints. destruct (seg_type s); lia. Qed.

Lemma sampleX_le (s : DiagramSegment Qc) (i j : nat) :
  (seg_a s <= seg_b s)%Qc -> (i <= j)%nat -> (sampleX s i <= sampleX s j)%Qc.
Proof.
  intros Hab Hij. unfold sampleX. cbv zeta. cbn [add sub mul div ofZ QcNumber].
  pose proof (fraction_le i j (numPoints s) (numPoints_pos s) Hij) as Hf.
  generalize dependent (Qc_ofZ (Z.of_nat i) / Qc_ofZ (Z.of_nat (numPoints s)))%Qc.
  generalize (Qc_ofZ (Z.of_nat j) / Qc_ofZ (Z.of_nat (numPoints s)))%Qc.
  intros tj ti Hf. unfold Qcle in *. qc_to_q. nra.
Qed.

Lemma sampleX_first (s : DiagramSegment Qc) : sampleX s 0 = seg_a s.
Proof.
  unfold sampleX. cbv zeta. cbn [add sub mul div ofZ QcNumber]. apply first_position.
Qed.

Lemma sampleX_last (s : DiagramSegment Qc) : sampleX s (numPoints s) = seg_b s.
Proof.
  unfold sampleX. cbv zeta. cbn [add sub mul div ofZ QcNumber].
  assert (Hn : Qc_ofZ (Z.of_nat (numPoints s)) <> 0%Qc).
  { unfold numPoints. destruct (seg_type s); discriminate. }
  field. exact Hn.
Qed.

Lemma sorted_app (l1 l2 : list Qc) :
  StronglySorted Qcle l1 -> StronglySorted Qcle l2 ->
  (forall x y, In x l1 -> In y l2 -> (x <= y)%Qc) ->
  StronglySorted Qcle (l1 ++ l2).
Proof.
  induction 1 as [|x l1 H1 IH Hx]; intros H2 H; [exact H2|].
  cbn [app]. constructor.
  - apply IH; [exact H2 | intros a b Ha Hb; apply H; [now right | exact Hb]].
  - apply Forall_app. split; [exact Hx|].
    apply Forall_forall. intros y Hy. apply H; [now left | exact Hy].
Qed.

Lemma sorted_map_seq (f : nat -> Qc) (len : nat) : forall start,
  (forall i j, (i <= j)%nat -> (f i <= f j)%Qc) ->
  StronglySorted Qcle (map f (seq start len)).
Proof.
  induction len as [|len IH]; intros start Hf; cbn [seq map]; constructor.
  - apply IH, Hf.
  - apply Forall_forall. intros y Hy. apply in_map_iff in Hy.
    destruct Hy as (j & <- & Hj). apply in_seq in Hj. apply Hf. lia.
Qed.

(** The positions emitted for one segment. *)
Lemma samplePoints_sorted (s : DiagramSegment Qc) :
  (seg_a s <= seg_b s)%Qc ->
  StronglySorted Qcle (map sp_x (samplePoints s))
  /\ forall x, In x (map sp_x (samplePoints s)) ->
       (round (seg_a s * Qc_ofZ 1000) / Qc_ofZ 1000 <= x)%Qc
       /\ (x <= round (seg_b s * Qc_ofZ 1000) / Qc_ofZ 1000)%Qc.
Proof.
  intros Hab. unfold samplePoints. rewrite map_map. cbn [sp_x]. split.
  - apply sorted_map_seq. intros i j Hij. apply round3_le, sampleX_le; assumption.
  - intros x Hx. apply in_map_iff in Hx. destruct Hx as (i & <- & Hi).
    apply in_seq in Hi. cbn [mul div ofZ QcNumber]. split.
    + rewrite <- (sampleX_first s) at 1. apply round3_le, sampleX_le; [exact Hab | lia].
    + rewrite <- (sampleX_last s) at 1. apply round3_le, sampleX_le; [exact Hab | lia].
Qed.

Lemma chain_le (segments : list (DiagramSegment Qc)) : forall lo hi,
  chain lo segments hi -> (lo <= hi)%Qc.
Proof.
  induction segments as [|s rest IH]; intros lo hi; cbn [chain].
  - intros ->. apply Qcle_refl.
  - intros (<- & Hab & Hc). eapply Qcle_trans; [apply Qclt_le_weak, Hab | apply IH, Hc].
Qed.

Lemma chain_sorted (segments : list (DiagramSegment Qc)) : forall lo hi,
  chain lo segments hi ->
  StronglySorted Qcle (map sp_x (flat_map samplePoints segments))
  /\ forall x, In x (map sp_x (flat_map samplePoints segments)) ->
       (round (lo * Qc_ofZ 1000) / Qc_ofZ 1000 <= x)%Qc
       /\ (x <= round (hi * Qc_ofZ 1000) / Qc_ofZ 1000)%Qc.
Proof.
  induction segments as [|s rest IH]; intros lo hi; cbn [chain flat_map map].
  - intros _. split; [constructor | intros x []].
  - intros (<- & Hab & Hc). apply Qclt_le_weak in Hab.
    destruct (IH _ _ Hc) as [Hs Hb]. destruct (samplePoints_sorted s Hab) as [Hs' Hb'].
    pose proof (chain_le _ _ _ Hc) as Hle.
    rewrite map_app. split.
    + apply sorted_app; [exact Hs' | exact Hs |].
      intros x y Hx Hy. destruct (Hb' x Hx) as [_ H1]. destruct (Hb y Hy) as [H2 _].
      eapply Qcle_trans; eassumption.
    + intros x Hx. apply in_app_or in Hx. destruct Hx as [Hx|Hx].
      * destruct (Hb' x Hx) as [H1 H2]. split; [exact H1|].
        eapply Qcle_trans; [exact H2 | now apply round3_le].
      * destruct (Hb x Hx) as [H1 H2]. split; [|exact H2].
        eapply Qcle_trans; [|exact H1]. now apply round3_le.
Qed.

(** The filter keeps the points that stand right of the point before them. *)
Lemma removeDuplicates_sorted (arr : list (ShearPoint (num := Qc))) : forall prev,
  StronglySorted Qcle (map sp_x arr) ->
  (forall q, prev = Some q -> Forall (fun x => (sp_x q <= x)%Qc) (map sp_x arr)) ->
  StronglySorted rightOf (removeDuplicates prev arr)
  /\ forall q, prev = Some q -> Forall (rightOf q) (removeDuplicates prev arr).
Proof.
  induction arr as [|p rest IH]; intros prev Hs Hprev; cbn [removeDuplicates].
  - split; [constructor | intros; constructor].
  - cbn [map] in Hs. inversion Hs as [|? ? Hs' Hp]; subst.
    destruct (IH (Some p) Hs') as [R1 R2].
    { intros q [= <-]. exact Hp. }
    specialize (R2 p eq_refl).
    assert (Hmono : forall q, (sp_x q <= sp_x p)%Qc ->
              Forall (rightOf q) (removeDuplicates (Some p) rest)).
    { intros q Hq. eapply Forall_impl; [|exact R2]. unfold rightOf.
      intros o Ho. unfold Qcle, Qclt in *. qc_to_q. lra. }
    destruct prev as [q|].
    + assert (Hq : (sp_x q <= sp_x p)%Qc).
      { specialize (Hprev q eq_refl). cbn [map] in Hprev. now inversion Hprev. }
      match goal with |- context [if ?c then _ else _] => destruct c eqn:Ek end;
        cbn [app].
      * split.
        -- constructor; assumption.
        -- intros q' [= <-]. constructor; [|now apply Hmono].
           unfold rightOf. revert Ek. unfold dec. cbn [abs ltb sub div ofZ QcNumber].
           destruct (Qc_ltb_spec (sp_x p - sp_x q) (Qc_ofZ 0)) as [Hneg|_].
           ++ exfalso. unfold Qcle, Qclt in *. revert Hneg. qc_to_q. unfold inject_Z. lra.
           ++ intros Ek. destruct (Qc_ltb_spec (Qc_ofZ 1 / Qc_ofZ 1000) (sp_x p - sp_x q))
                as [Hgt|]; [|discriminate].
              unfold Qclt in *. revert Hgt.
              generalize (Qc_ofZ 1 / Qc_ofZ 1000)%Qc. intros d. qc_to_q. lra.
      * split; [exact R1|]. intros q' [= <-]. now apply Hmono.
    + cbn [app]. split; [constructor; assumption | intros q' [=]].
Qed.

(** X25: the points returned by the shear sampler for a valid result stand in
    strictly increasing order on the x axis, each more than 0.001 right of
    the one before it: no position appears twice, so of the two values the
    shear has at a jump at most one is returned. *)
Theorem sampled_positions_increase
  (beamData : BeamData Qc) (supports : Support Qc) (loads : Loads Qc) :
  let r := calculateBeamAnalysis beamData supports loads in
  isValid r = true ->
  StronglySorted rightOf (generateShearForceData r).
Proof.
  intros r Hvalid. subst r. unfold generateShearForceData, dataPoints.
  destruct (valid_result _ _ _ Hvalid) as (_ & _ & ->). cbn [V_segments].
  set (u := units beamData).
  match goal with |- context [calculateShearSegments ?l ?re ?e] =>
    set (bl := l); set (reacts := re);
    pose proof (generateEvents_sorted bl
                  (convertSupportsToBaseUnits supports (u_length u))
                  (convertLength (length beamData) (u_length u) (u_length BASE_UNITS)))
      as Hsort;
    set (ev := e) in * end.
  set (segments := convertSegmentsToDisplayUnits (calculateShearSegments bl reacts ev) u).
  assert (Hsd : StronglySorted Qclt (map (toDisplay u) ev))
    by (apply map_sorted; [apply toDisplay_lt | exact Hsort]).
  assert (Hends : map ends segments = pairs (map (toDisplay u) ev)).
  { unfold segments. rewrite display_ends, shear_ends, pairs_map. reflexivity. }
  assert (Hchain : exists lo hi, chain lo segments hi).
  { destruct (map (toDisplay u) ev) as [|x rest] eqn:Eev.
    - destruct segments; [|discriminate]. exists 0%Qc, 0%Qc. reflexivity.
    - exists x, (last (x :: rest) x). eapply chain_of_pairs; eauto. }
  destruct Hchain as (lo & hi & Hchain).
  destruct (chain_sorted segments lo hi Hchain) as [Hs _].
  apply (removeDuplicates_sorted _ None Hs). intros q [=].
Qed.

End SampleOrder.

(** ** The further properties on the exact scenarios *)

Lemma unknown_unit_is_base_unit_witness :
  convertLength (Qc_ofZ 250) "cm" "mm" = convertLength (Qc_ofZ 250) "m" "mm"
  /\ convertLength (Qc_ofZ 250) "mm" "cm" = convertLength (Qc_ofZ 250) "mm" "m"
  /\ convertForce (Qc_ofZ 250) "lbf" "kN" = convertForce (Qc_ofZ 250) "N" "kN"
  /\ convertForce (Qc_ofZ 250) "kN" "lbf" = convertForce (Qc_ofZ 250) "kN" "N".
Proof.
  apply (unknown_unit_is_base_unit (Qc_ofZ 250) "cm" "lbf" "mm" "kN"); reflexivity.
Defined.

Lemma conversions_compose_witness :
  convertLength (convertLength (Qc_ofZ 250) "ft" "mm") "mm" "cm"
  = convertLength (Qc_ofZ 250) "ft" "cm"
  /\ convertLength (Qc_ofZ 250) "ft" "ft" = Qc_ofZ 250
  /\ convertLength (convertLength (Qc_ofZ 250) "ft" "mm") "mm" "ft" = Qc_ofZ 250
  /\ convertForce (convertForce (Qc_ofZ 250) "ft" "mm") "mm" "cm"
     = convertForce (Qc_ofZ 250) "ft" "cm"
  /\ convertForce (Qc_ofZ 250) "ft" "ft" = Qc_ofZ 250
  /\ convertForce (convertForce (Qc_ofZ 250) "ft" "mm") "mm" "ft" = Qc_ofZ 250.
Proof.
  apply (conversions_compose (Qc_ofZ 250) "ft" "mm" "cm"); reflexivity.
Defined.

Lemma segments_between_events_witness :
  List.length (events exactResult) = Datatypes.S (List.length (V_segments exactResult))
  /\ List.length (M_segments exactResult) = List.length (V_segments exactResult).
Proof.
  apply (segments_between_events (T := anyTrig) (S := anySpecial)
           exactBeam exactSupports exactLoads).
  vm_compute; reflexivity.
Defined.

Lemma moment_segments_follow_shear_witness :
  Forall2 (fun v m : DiagramSegment Qc =>
             seg_a m = seg_a v /\ seg_b m = seg_b v
             /\ seg_type v <> cubic /\ seg_type m = integralType (seg_type v)
             /\ (exists cv cm, coeffs v = Some cv /\ coeffs m = Some cm
                               /\ List.length cv = coefficients (seg_type v)
                               /\ List.length cm = coefficients (seg_type m))
             /\ (V_a v <> None /\ V_b v <> None /\ M_a v = None /\ M_b v = None)
             /\ (M_a m <> None /\ M_b m <> None /\ V_a m = None /\ V_b m = None))
    (V_segments exactResult) (M_segments exactResult).
Proof.
  apply (moment_segments_follow_shear (T := anyTrig) (S := anySpecial)
           exactBeam exactSupports exactLoads).
  vm_compute; reflexivity.
Defined.

Lemma point_loads_give_steps_witness :
  let r := calculateBeamAnalysis (T := anyTrig) (S := anySpecial)
             exactBeam exactSupports exactPointLoads in
  Forall (fun s => seg_type s = const /\ V_b s = V_a s) (V_segments r)
  /\ Forall (fun s => seg_type s = linear) (M_segments r)
  /\ getChartType r = stepAfter.
Proof.
  apply (point_loads_give_steps (T := anyTrig) (S := anySpecial)
           exactBeam exactSupports exactPointLoads);
    first [reflexivity | vm_compute; reflexivity].
Defined.

Lemma reactions_stand_at_supports_witness :
  exists pinReaction rollerReaction rest,
    reactions exactResult
    = mkReaction vertical "pin" (Some (Qc_ofZ 0)) (Some pinReaction) None None
      :: mkReaction vertical "roller" (Some (Qc_ofZ 10)) (Some rollerReaction) None None
      :: rest
    /\ Forall unplaced rest.
Proof.
  apply (reactions_stand_at_supports (T := anyTrig) (S := anySpecial)
           exactBeam exactSupports exactLoads).
  vm_compute; reflexivity.
Defined.

Lemma fixed_reactions_negate_the_loads_witness :
  let r := calculateBeamAnalysis (T := anyTrig) (S := anySpecial)
             exactBeam exactCantilever exactPointAndMoment in
  isValid r = true
  /\ reactions r
     = [ mkReaction vertical "fixed" (Some (Qc_ofZ 0))
           (Some (- sumOfLoads exactPointAndMoment)%Qc) None None;
         mkReaction moment_reaction "fixed" (Some (Qc_ofZ 0)) None
           (Some (- (momentOfLoadsAbout (Qc_ofZ 0) exactPointAndMoment
                     + sumOfAppliedMoments exactPointAndMoment))%Qc)
           None ].
Proof.
  apply (fixed_reactions_negate_the_loads (T := anyTrig) (S := anySpecial)
           exactBeam exactCantilever exactPointAndMoment);
    first [reflexivity | qc_order].
Defined.

Lemma pin_roller_reactions_balance_moments_witness :
  let r := calculateBeamAnalysis (T := anyTrig) (S := anySpecial)
             exactBeam exactSupports exactPointLoads in
  exists pinReaction rollerReaction,
    reactions r
    = [ mkReaction vertical "pin" (Some (Qc_ofZ 0)) (Some pinReaction) None None;
        mkReaction vertical "roller" (Some (Qc_ofZ 10)) (Some rollerReaction) None None ]
    /\ Qc_ofZ 0 <> Qc_ofZ 10
    /\ (rollerReaction * (Qc_ofZ 10 - Qc_ofZ 0))%Qc
       = momentOfLoadsAbout (Qc_ofZ 0) exactPointLoads
    /\ (pinReaction * (Qc_ofZ 0 - Qc_ofZ 10))%Qc
       = momentOfLoadsAbout (Qc_ofZ 10) exactPointLoads
    /\ (pinReaction + rollerReaction)%Qc = sumOfLoads exactPointLoads.
Proof.
  apply (pin_roller_reactions_balance_moments (T := anyTrig) (S := anySpecial)
           exactBeam exactSupports exactPointLoads);
    first [reflexivity | vm_compute; reflexivity].
Defined.

Lemma moment_at_point_agrees_with_segments_witness :
  let reactions := calculateReactions (T := anyTrig) exactLoads exactSupports (Qc_ofZ 10) in
  calculateMomentAtPoint (T := anyTrig) (Qc_ofZ 7) exactLoads reactions
  = (momentStart (T := anyTrig) exactLoads reactions (Qc_ofZ 7)
     - total (reactionCouple (Qc_ofZ 7)) reactions
     - total (appliedAt (Qc_ofZ 7)) (moment exactLoads))%Qc.
Proof.
  apply (moment_at_point_agrees_with_segments (T := anyTrig)).
  repeat constructor; qc_order.
Defined.

Lemma shear_jumps_by_the_point_forces_witness :
  exists Vb Va,
    V_b (nth 1 (V_segments exactResult) noSegment) = Some Vb
    /\ V_a (nth 2 (V_segments exactResult) noSegment) = Some Va
    /\ Va = (Vb + pointForcesAt (T := anyTrig)
                    (seg_b (nth 1 (V_segments exactResult) noSegment))
                    exactLoads (reactions exactResult))%Qc.
Proof.
  apply (shear_jumps_by_the_point_forces (T := anyTrig) (S := anySpecial)
           exactBeam exactSupports exactLoads 1).
  - vm_compute; reflexivity.
  - vm_compute; reflexivity.
  - vm_compute; reflexivity.
  - repeat constructor; qc_order.
  - repeat constructor; qc_order.
Defined.

Lemma moment_segments_end_at_the_point_evaluation_witness :
  let reactions := calculateReactions (T := anyTrig) exactLoads exactSupports (Qc_ofZ 10) in
  let events := generateEvents exactLoads exactSupports (Qc_ofZ 10) in
  exists M_segments,
    calculateMomentSegments (T := anyTrig) (S := anySpecial)
      (calculateShearSegments (T := anyTrig) (S := anySpecial) exactLoads reactions events)
      exactLoads reactions events = inr M_segments
    /\ Forall (fun s =>
                 M_b s = Some (calculateMomentAtPoint (T := anyTrig) (seg_b s) exactLoads
                                 reactions
                               + total (reactionCouple (seg_a s)) reactions)%Qc)
         M_segments.
Proof.
  apply (moment_segments_end_at_the_point_evaluation (T := anyTrig) (S := anySpecial)
           exactLoads exactSupports (Qc_ofZ 10)).
  - repeat constructor; qc_order.
  - repeat constructor; qc_order.
  - intros l x [<-|[]] Hx.
    assert (E : generateEvents exactLoads exactSupports (Qc_ofZ 10)
                = [Qc_ofZ 0; Qc_ofZ 4; Qc_ofZ 5; Qc_ofZ 10]) by (vm_compute; reflexivity).
    rewrite E in Hx.
    destruct Hx as [<-|[<-|[<-|[<-|[]]]]]; intros H;
      first [vm_compute in H; discriminate H | clear H; qc_neq].
Defined.

Lemma moment_diagram_closes_witness :
  let r := calculateBeamAnalysis (T := anyTrig) (S := anySpecial)
             exactBeam exactSupports exactSpanLoads in
  exists first final,
    nth_error (M_segments r) 0 = Some first
    /\ nth_error (M_segments r) (List.length (M_segments r) - 1) = Some final
    /\ M_a first = Some 0%Qc /\ M_b final = Some 0%Qc.
Proof.
  apply (moment_diagram_closes (T := anyTrig) (S := anySpecial)
           exactBeam exactSupports exactSpanLoads);
    first [reflexivity | vm_compute; reflexivity | repeat constructor; qc_order].
Defined.

Lemma no_loads_no_internal_forces_witness :
  let r := calculateBeamAnalysis (T := anyTrig) (S := anySpecial)
             exactBeam exactCantilever noLoads in
  Forall (fun re => match r_type re with
                    | vertical => r_R re = Some 0%Qc
                    | moment_reaction => r_M re = Some 0%Qc
                    | horizontal => False
                    end) (reactions r)
  /\ Forall (fun s => seg_type s = const /\ V_a s = Some 0%Qc /\ V_b s = Some 0%Qc)
       (V_segments r)
  /\ Forall (fun s => seg_type s = linear /\ M_a s = Some 0%Qc /\ M_b s = Some 0%Qc)
       (M_segments r).
Proof.
  apply (no_loads_no_internal_forces (T := anyTrig) (S := anySpecial)
           exactBeam exactCantilever).
  vm_compute; reflexivity.
Defined.

Lemma shear_samples_are_in_base_units_witness :
  let r := calculateBeamAnalysis (T := anyTrig) (S := anySpecial)
             exactBeamInCm exactSupportsInCm exactLoadsInCm in
  let segment := nth 0 (V_segments r) noSegment in
  exists V_a_display,
    V_a segment = Some V_a_display
    /\ nth_error (samplePoints (S := anySpecial) segment) 0
       = Some (mkShearPoint
                 (round (seg_a segment * Qc_ofZ 1000) / Qc_ofZ 1000)%Qc
                 (round (V_a_display * forceFactor "kN" * Qc_ofZ 1000) / Qc_ofZ 1000)%Qc).
Proof.
  apply (shear_samples_are_in_base_units (T := anyTrig) (S := anySpecial)
           exactBeamInCm exactSupportsInCm exactLoadsInCm).
  - vm_compute; reflexivity.
  - apply nth_In. vm_compute. lia.
Defined.

Lemma moment_samples_are_in_base_units_witness :
  let r := calculateBeamAnalysis (T := anyTrig) (S := anySpecial)
             exactBeamInCm exactSupportsInCm exactLoadsInCm in
  let segment := nth 0 (M_segments r) noSegment in
  exists M_a_display,
    M_a segment = Some M_a_display
    /\ nth_error (momentSamplePoints (S := anySpecial) segment) 0
       = Some (mkMomentPoint
                 (round (seg_a segment * Qc_ofZ 1000) / Qc_ofZ 1000)%Qc
                 (round (M_a_display * (forceFactor "kN" * lengthFactor "cm")
                         * Qc_ofZ 1000) / Qc_ofZ 1000)%Qc).
Proof.
  apply (moment_samples_are_in_base_units (T := anyTrig) (S := anySpecial)
           exactBeamInCm exactSupportsInCm exactLoadsInCm).
  - vm_compute; reflexivity.
  - apply nth_In. vm_compute. lia.
Defined.

Lemma chart_points_are_in_kilonewtons_witness :
  let r := calculateBeamAnalysis (T := anyTrig) (S := anySpecial)
             exactBeamInCm exactSupportsInCm exactLoadsInCm in
  let segment := nth 0 (V_segments r) noSegment in
  exists V_a_display,
    V_a segment = Some V_a_display
    /\ nth_error (chartPoints (S := anySpecial) segment) 0
       = Some (mkShearPoint
                 (round (seg_a segment * Qc_ofZ 1000) / Qc_ofZ 1000)%Qc
                 (round (V_a_display * forceFactor "kN"
                         * (Qc_ofZ 1 / Qc_ofZ 1000) * Qc_ofZ 1000) / Qc_ofZ 1000)%Qc).
Proof.
  apply (chart_points_are_in_kilonewtons (T := anyTrig) (S := anySpecial)
           exactBeamInCm exactSupportsInCm exactLoadsInCm).
  - vm_compute; reflexivity.
  - apply nth_In. vm_compute. lia.
Defined.

Lemma legacy_series_differ_in_length_witness :
  exists result,
    calculateBeamAnalysisLegacy (T := anyTrig) (S := anySpecial)
      legacyBeam legacyCantilever legacyLoads = inr result
    /\ List.length (series_x (lr_shearForce result))
       = Datatypes.S (List.length (series_y (lr_shearForce result)))
    /\ List.length (series_x (lr_bendingMoment result))
       = Datatypes.S (List.length (series_y (lr_bendingMoment result))).
Proof.
  eexists. split; [reflexivity|].
  apply (legacy_series_differ_in_length (T := anyTrig) (S := anySpecial)
           legacyBeam legacyCantilever legacyLoads).
  - reflexivity.
  - vm_compute; reflexivity.
Defined.

Lemma legacy_reads_other_types_as_fixed_witness :
  exists result,
    calculateBeamAnalysisLegacy (T := anyTrig) (S := anySpecial)
      legacyBeam legacyCantilever legacyLoads = inr result
    /\ lr_isValid result = true
    /\ lr_reactions result = [("fixed"%string, (- total (@ll_magnitude Qc) legacyLoads)%Qc)].
Proof.
  apply (legacy_reads_other_types_as_fixed (T := anyTrig) (S := anySpecial) legacyBeam
           (mkLegacySupport "Fixed" [Qc_ofZ 0]) [] legacyLoads).
  - reflexivity.
  - qc_order.
Defined.

Lemma sampled_positions_increase_witness :
  StronglySorted rightOf (generateShearForceData (S := anySpecial) exactResult).
Proof.
  apply (sampled_positions_increase (T := anyTrig) (S := anySpecial)
           exactBeam exactSupports exactLoads).
  vm_compute; reflexivity.
Defined.
